(** * Financial crime graph analysis engine: a shallow embedding

    The engine (graph-engine.ts) reads a batch of transactions and reports
    fraud rings (cycles, fan-in / fan-out hubs, shell chains), suspicious
    accounts with scores, and one node record per account.

    Modelling choices.
    - JS numbers are exact rationals ([Q]).  Every score the engine builds is
      a multiple of 0.5 below 200, which binary64 represents exactly, so the
      score arithmetic agrees with the engine's; amounts are summed exactly.
    - JS strings are [string]; comparison and upper-casing are byte-wise
      (they agree with JS on ASCII identifiers).
    - [Set<string>] and [Map<string, V>] keep insertion order, which the
      engine's iteration depends on: they are lists / association lists.
    - [new Date(s).getTime()] is a platform function: it is the section
      variable [getTime], with [None] standing for NaN.
    - [performance.now()] is not modelled; the summary carries the counts. *)

From Stdlib Require Import List String Ascii Bool Arith ZArith QArith Qround.
From Stdlib Require Import Lia Lqa Permutation Sorted DecimalString DecimalNat.
Import ListNotations.

Local Open Scope string_scope.
Local Open Scope list_scope.
Local Open Scope nat_scope.

(** ** Insertion-ordered sets of strings (JS [Set<string>]) *)

Module StrSet.
Definition t := list string.

Definition has (x : string) (s : t) : bool := existsb (String.eqb x) s.

Definition add (x : string) (s : t) : t := if has x s then s else s ++ [x].

Definition delete (x : string) (s : t) : t :=
  filter (fun y => negb (String.eqb x y)) s.

Definition size (s : t) : nat := List.length s.

Definition ofList (l : list string) : t := fold_left (fun s x => add x s) l [].
End StrSet.

(** ** Insertion-ordered maps keyed by strings (JS [Map<string, V>]) *)

Module StrMap.
Section Ops.
Context {V : Type}.

Definition t := list (string * V).

Fixpoint get (k : string) (m : t) : option V :=
  match m with
  | [] => None
  | (k', v) :: m' => if String.eqb k k' then Some v else get k m'
  end.

Definition has (k : string) (m : t) : bool :=
  match get k m with Some _ => true | None => false end.

(** [set] keeps the position of a key that is present, and appends a new
    key at the end: the iteration order of a JS [Map]. *)
Fixpoint set (k : string) (v : V) (m : t) : t :=
  match m with
  | [] => [(k, v)]
  | (k', v') :: m' =>
      if String.eqb k k' then (k', v) :: m' else (k', v') :: set k v m'
  end.

(** [getOrCreate] followed by in-place mutation of the entry. *)
Definition update (k : string) (dflt : V) (f : V -> V) (m : t) : t :=
  match get k m with
  | Some v => set k (f v) m
  | None => set k (f dflt) m
  end.

Definition keys (m : t) : list string := map fst m.
End Ops.
Arguments t : clear implicits.
End StrMap.

(** ** Sorting: [Array.prototype.sort] is stable *)

Section Sorting.
Context {A : Type}.
(** [le x y] holds when the comparator does not put [y] strictly before [x]. *)
Variable le : A -> A -> bool.

Fixpoint insertSorted (x : A) (l : list A) : list A :=
  match l with
  | [] => [x]
  | y :: l' => if le x y then x :: l else y :: insertSorted x l'
  end.

Fixpoint sortBy (l : list A) : list A :=
  match l with
  | [] => []
  | x :: l' => insertSorted x (sortBy l')
  end.
End Sorting.

(** ** Strings *)

Definition toUpperChar (c : ascii) : ascii :=
  let n := nat_of_ascii c in
  if (97 <=? n) && (n <=? 122) then ascii_of_nat (n - 32) else c.

Fixpoint toUpperCase (s : string) : string :=
  match s with
  | EmptyString => EmptyString
  | String c s' => String (toUpperChar c) (toUpperCase s')
  end.

(** [s.includes(kw)] *)
Fixpoint includes (s kw : string) : bool :=
  if String.prefix kw s then true
  else match s with
       | EmptyString => false
       | String _ s' => includes s' kw
       end.

Definition startsWith (s p : string) : bool := String.prefix p s.

(** [l.join(sep)] *)
Definition join (sep : string) (l : list string) : string := String.concat sep l.

(** [String(n)] for a non-negative integer. *)
Definition stringOfNat (n : nat) : string :=
  NilEmpty.string_of_uint (Nat.to_uint n).

Fixpoint repeatString (c : string) (n : nat) : string :=
  match n with
  | O => ""
  | S n' => (c ++ repeatString c n')%string
  end.

(** [s.padStart(width, "0")] *)
Definition padStart0 (width : nat) (s : string) : string :=
  (repeatString "0" (width - String.length s) ++ s)%string.

(** ** Numbers *)

Definition Qltb (x y : Q) : bool := negb (Qle_bool y x).
Definition Qgtb (x y : Q) : bool := Qltb y x.
Definition Qgeb (x y : Q) : bool := Qle_bool y x.
Definition Qmin (x y : Q) : Q := if Qle_bool x y then x else y.
Definition Qmax (x y : Q) : Q := if Qle_bool x y then y else x.
Definition Qsum (l : list Q) : Q := fold_left Qplus l 0%Q.
Definition QofNat (n : nat) : Q := inject_Z (Z.of_nat n).

(** [Math.round]: nearest integer, halves towards plus infinity. *)
Definition Math_round (x : Q) : Z := Qfloor (x + (1 # 2))%Q.

(** [Math.round(x * 10) / 10] *)
Definition round1 (x : Q) : Q := (inject_Z (Math_round (x * 10)) / 10)%Q.

(** ** Data model *)

Record Transaction := mkTransaction {
  transaction_id : string;
  sender_id : string;
  receiver_id : string;
  amount : Q;
  timestamp : string
}.

Record SuspiciousAccount := mkSuspiciousAccount {
  account_id : string;
  suspicion_score : Q;
  detected_patterns : list string;
  sa_ring_id : string
}.

Record FraudRing := mkFraudRing {
  ring_id : string;
  member_accounts : list string;
  pattern_type : string;
  risk_score : Q
}.

Record AnalysisSummary := mkAnalysisSummary {
  total_accounts_analyzed : nat;
  suspicious_accounts_flagged : nat;
  fraud_rings_detected : nat;
  legitimate_accounts_filtered : nat
}.

Record GraphNode := mkGraphNode {
  id : string;
  suspicious : bool;
  ring_ids : list string;
  patterns : list string;
  total_sent : Q;
  total_received : Q;
  transaction_count : nat;
  node_suspicion_score : Q
}.

Record GraphEdge := mkGraphEdge {
  source : string;
  target : string;
  edge_amount : Q;
  edge_timestamp : string;
  edge_transaction_id : string
}.

Record AnalysisResult := mkAnalysisResult {
  suspicious_accounts : list SuspiciousAccount;
  fraud_rings : list FraudRing;
  summary : AnalysisSummary;
  nodes : list GraphNode;
  edges : list GraphEdge
}.

(** ** Legitimate business account detection *)

Module AccountTxs.
Record t := mk {
  sent : list Transaction;
  received : list Transaction;
  uniqueSenders : StrSet.t;
  uniqueReceivers : StrSet.t;
  totalSent : Q;
  totalReceived : Q
}.
Definition empty : t := mk [] [] [] [] 0 0.
End AccountTxs.

Definition businessKeywords : list string :=
  [ "COMPANY"; "CORP"; "INC"; "LLC"; "LTD"; "ENTERPRISE";
    "PAYROLL"; "SALARY"; "WAGE"; "HR_"; "HUMAN_RESOURCE";
    "RENT"; "LANDLORD"; "PROPERTY"; "REALTY"; "HOUSING";
    "VENDOR"; "SUPPLIER"; "SUPPLY"; "WHOLESALE";
    "GROCERY"; "STORE"; "SHOP"; "MARKET"; "RETAIL";
    "UTILITY"; "ELECTRIC"; "WATER"; "GAS_CO"; "POWER";
    "INSURANCE"; "INSURE";
    "BANK"; "CREDIT_UNION"; "MORTGAGE";
    "GOVERNMENT"; "GOV_"; "TAX_"; "IRS";
    "SCHOOL"; "UNIVERSITY"; "COLLEGE";
    "HOSPITAL"; "CLINIC"; "MEDICAL"; "HEALTH";
    "TELECOM"; "PHONE"; "MOBILE"; "INTERNET";
    "SUBSCRIPTION"; "NETFLIX"; "SPOTIFY" ].

Definition hasBusinessName (accountId : string) : bool :=
  let nameUpper := toUpperCase accountId in
  existsb (fun kw => includes nameUpper kw) businessKeywords.

(** The closure shared by the payroll and rent heuristics: the mean of the
    amounts, [false] when it is 0, else [Math.sqrt(variance) / mean < 0.3].
    The square root is not rational; the comparison is decided exactly:
    for a negative mean the quotient is at most 0, and for a positive mean
    [sqrt v / m < 3/10] is [v < 9/100 * m * m]. *)
Definition consistentAmounts (amounts : list Q) : bool :=
  let n := QofNat (List.length amounts) in
  let mean := (Qsum amounts / n)%Q in
  if Qeq_bool mean 0 then false
  else
    let variance :=
      (fold_left (fun a b => a + (b - mean) * (b - mean)) amounts 0 / n)%Q in
    if Qltb mean 0 then true
    else Qltb variance ((9 # 100) * mean * mean)%Q.

Definition isPayrollLike (data : AccountTxs.t) : bool :=
  (5 <=? StrSet.size (AccountTxs.uniqueReceivers data)) && (5 <=? List.length (AccountTxs.sent data))
  && consistentAmounts (map amount (AccountTxs.sent data)).

Definition isRentCollector (data : AccountTxs.t) : bool :=
  (5 <=? StrSet.size (AccountTxs.uniqueSenders data)) && (5 <=? List.length (AccountTxs.received data))
  && consistentAmounts (map amount (AccountTxs.received data)).

Definition isMerchant (data : AccountTxs.t) : bool :=
  (8 <=? StrSet.size (AccountTxs.uniqueSenders data))
  && (StrSet.size (AccountTxs.uniqueReceivers data) <=? 3)
  && Qgtb (AccountTxs.totalReceived data) (AccountTxs.totalSent data * 5)%Q.

Definition isPurePayer (data : AccountTxs.t) : bool :=
  (5 <=? StrSet.size (AccountTxs.uniqueReceivers data))
  && (StrSet.size (AccountTxs.uniqueSenders data) <=? 1)
  && Qgtb (AccountTxs.totalSent data) (AccountTxs.totalReceived data * 5)%Q.

Definition legitFlowRatio (data : AccountTxs.t) : Q :=
  if Qgtb (AccountTxs.totalSent data) 0 && Qgtb (AccountTxs.totalReceived data) 0
  then (Qmin (AccountTxs.totalSent data) (AccountTxs.totalReceived data)
        / Qmax (AccountTxs.totalSent data) (AccountTxs.totalReceived data))%Q
  else 0%Q.

Definition isOneDirectional (data : AccountTxs.t) : bool :=
  Qltb (legitFlowRatio data) (15 # 100).

Definition gatherAccountTxs (transactions : list Transaction)
  : StrMap.t AccountTxs.t :=
  fold_left
    (fun accountTxs tx =>
       let accountTxs :=
         StrMap.update (sender_id tx) AccountTxs.empty
           (fun s => AccountTxs.mk (AccountTxs.sent s ++ [tx]) (AccountTxs.received s)
                       (AccountTxs.uniqueSenders s)
                       (StrSet.add (receiver_id tx) (AccountTxs.uniqueReceivers s))
                       (AccountTxs.totalSent s + amount tx) (AccountTxs.totalReceived s))
           accountTxs in
       StrMap.update (receiver_id tx) AccountTxs.empty
         (fun r => AccountTxs.mk (AccountTxs.sent r) (AccountTxs.received r ++ [tx])
                     (StrSet.add (sender_id tx) (AccountTxs.uniqueSenders r))
                     (AccountTxs.uniqueReceivers r)
                     (AccountTxs.totalSent r) (AccountTxs.totalReceived r + amount tx))
         accountTxs)
    transactions [].

Definition isLegitimate (accountId : string) (data : AccountTxs.t) : bool :=
  if hasBusinessName accountId then true
  else if isPayrollLike data && isOneDirectional data then true
  else if isRentCollector data && isOneDirectional data then true
  else if isMerchant data then true
  else if isPurePayer data then true
  else false.

Definition detectLegitimateAccounts (transactions : list Transaction)
  : StrSet.t :=
  fold_left
    (fun legit '(accountId, data) =>
       if isLegitimate accountId data then StrSet.add accountId legit
       else legit)
    (gatherAccountTxs transactions) [].

Definition removeLegitimateTransactions (transactions : list Transaction)
    (legitimateAccounts : StrSet.t) : list Transaction :=
  if StrSet.size legitimateAccounts =? 0 then transactions
  else filter
         (fun tx => negb (StrSet.has (sender_id tx) legitimateAccounts)
                    && negb (StrSet.has (receiver_id tx) legitimateAccounts))
         transactions.

(** ** Adjacency index, account universe *)

Definition Adjacency := StrMap.t (StrMap.t (list Transaction)).

Definition buildAdjacencyList (transactions : list Transaction) : Adjacency :=
  fold_left
    (fun adj tx =>
       StrMap.update (sender_id tx) []
         (fun senderMap =>
            StrMap.update (receiver_id tx) [] (fun l => l ++ [tx]) senderMap)
         adj)
    transactions [].

(** The keys of [adj.get(current)], in insertion order ([[]] when absent). *)
Definition neighborsOf (adj : Adjacency) (current : string) : list string :=
  match StrMap.get current adj with
  | Some neighbors => StrMap.keys neighbors
  | None => []
  end.

Definition getAllAccounts (transactions : list Transaction) : StrSet.t :=
  fold_left
    (fun accounts tx =>
       StrSet.add (receiver_id tx) (StrSet.add (sender_id tx) accounts))
    transactions [].

(** ** Per-account statistics *)

Record AccountStats := mkAccountStats {
  totalSent : Q;
  totalReceived : Q;
  sendCount : nat;
  receiveCount : nat;
  senders : StrSet.t;
  receivers : StrSet.t;
  transactionTimestamps : list (option Z);
  totalTransactions : nat
}.

Definition emptyAccountStats : AccountStats :=
  mkAccountStats 0 0 0 0 [] [] [] 0.

Definition StatsTable := StrMap.t AccountStats.

(** ** Ring deduplication key *)

(** [[...members].sort()]: the default sort compares strings. *)
Definition sortStrings (l : list string) : list string := sortBy String.leb l.

Definition makeRingDeduplicationKey (members : list string)
    (patternType : string) : string :=
  let sorted := sortStrings members in
  (patternType ++ "::" ++ join "," sorted)%string.

(** ** Pattern 1: cycles of length 3 to 5 *)

Section DetectCycles.
Variable adj : Adjacency.

(** The inner [dfs(current, depth)] of one start node.  [budget] is
    [6 - depth]: the guard [depth > 5] is the case [budget = 0].  The path
    and the visited set are passed down, so the [pop] / [delete] on exit
    are implicit; the accumulated [cycles] are threaded through. *)
Fixpoint cycleDfs (startNode : string) (budget : nat) (current : string)
    (path : list string) (visited : StrSet.t)
    (cycles : list (list string)) : list (list string) :=
  match budget with
  | O => cycles
  | S budget' =>
      let depth := 6 - budget in
      let path := path ++ [current] in
      let visited := StrSet.add current visited in
      fold_left
        (fun cycles neighbor =>
           if String.eqb neighbor startNode && (3 <=? depth)
           then cycles ++ [path]
           else if negb (StrSet.has neighbor visited) && (depth <? 5)
           then cycleDfs startNode budget' neighbor path visited cycles
           else cycles)
        (neighborsOf adj current) cycles
  end.

Definition rawCycles (allAccounts : StrSet.t) : list (list string) :=
  fold_left
    (fun cycles startNode => cycleDfs startNode 5 startNode [] [] cycles)
    allAccounts [].
End DetectCycles.

(** [cycle.reduce((a, b) => (a < b ? a : b))] *)
Definition minMember (cycle : list string) : string :=
  match cycle with
  | [] => ""
  | x :: l => fold_left (fun a b => if String.ltb a b then a else b) l x
  end.

(** [cycle.indexOf(x)] on a list that contains [x]. *)
Fixpoint indexOf (x : string) (l : list string) : nat :=
  match l with
  | [] => 0
  | y :: l' => if String.eqb y x then 0 else S (indexOf x l')
  end.

Definition normalizeCycle (cycle : list string) : list string :=
  let minIdx := indexOf (minMember cycle) cycle in
  skipn minIdx cycle ++ firstn minIdx cycle.

Definition cycleKey (normalized : list string) : string := join "|" normalized.

Definition dedupCycles (cycles : list (list string)) : list (list string) :=
  fst (fold_left
         (fun '(uniqueCycles, seen) cycle =>
            let normalized := normalizeCycle cycle in
            let key := cycleKey normalized in
            if negb (StrSet.has key seen)
            then (uniqueCycles ++ [normalized], StrSet.add key seen)
            else (uniqueCycles, seen))
         cycles ([], [])).

Definition detectCycles (adj : Adjacency) (allAccounts : StrSet.t)
  : list (list string) :=
  dedupCycles (rawCycles adj allAccounts).

(** ** Pattern 3: layered shell networks *)

(** Monadic fold: the loop body may run out of fuel. *)
Fixpoint foldM {A B : Type} (f : B -> A -> option B) (l : list A) (b : B)
  : option B :=
  match l with
  | [] => Some b
  | x :: l' => match f b x with
               | Some b' => foldM f l' b'
               | None => None
               end
  end.

Section DetectShellNetworks.
Variable adj : Adjacency.
Variable accountStats : StatsTable.
Variable cycleNodes : StrSet.t.

Definition totalTxOf (account : string) : nat :=
  match StrMap.get account accountStats with
  | Some stats => totalTransactions stats
  | None => 0
  end.

Definition lowActivity (account : string) : bool :=
  (2 <=? totalTxOf account) && (totalTxOf account <=? 3).

(** The look-ahead loop over the next hops of a freshly appended
    intermediary: every high-activity next hop closes a chain. *)
Definition recordDestinations (path : list string) (visited : StrSet.t)
    (neighbor : string) (chains : list (list string)) : list (list string) :=
  fold_left
    (fun chains nn =>
       if negb (StrSet.has nn visited) && negb (StrSet.has nn cycleNodes)
       then
         if lowActivity nn then chains
         else if 2 <=? List.length path then chains ++ [path ++ [nn]]
              else chains
       else chains)
    (neighborsOf adj neighbor) chains.

(** The inner [dfs(current)].  The source recursion has no depth bound;
    [fuel] bounds it here and [None] reports exhaustion. *)
Fixpoint shellDfs (fuel : nat) (current : string) (path : list string)
    (visited : StrSet.t) (chains : list (list string))
    : option (list (list string)) :=
  match fuel with
  | O => None
  | S fuel' =>
      foldM
        (fun chains neighbor =>
           if StrSet.has neighbor visited then Some chains
           else if StrSet.has neighbor cycleNodes then Some chains
           else if lowActivity neighbor then
             let path := path ++ [neighbor] in
             let visited := StrSet.add neighbor visited in
             let chains := recordDestinations path visited neighbor chains in
             let chains :=
               if 3 <=? List.length path then chains ++ [path] else chains in
             shellDfs fuel' neighbor path visited chains
           else Some chains)
        (neighborsOf adj current) chains
  end.

(** Every account that occurs in the adjacency index. *)
Definition adjNodes : StrSet.t :=
  StrSet.ofList
    (flat_map (fun '(s, m) => s :: StrMap.keys m) adj).

Definition shellFuel : nat := S (StrSet.size adjNodes).

Definition rawChains : option (list (list string)) :=
  foldM
    (fun chains startNode =>
       if StrSet.has startNode cycleNodes then Some chains
       else shellDfs shellFuel startNode [startNode]
              (StrSet.add startNode []) chains)
    (StrMap.keys adj) [].
End DetectShellNetworks.

(** [chain.every(node => existingSet.has(node))] *)
Definition isSubsetOf (chain existing : list string) : bool :=
  forallb (fun node => StrSet.has node (StrSet.ofList existing)) chain.

Definition eliminateSubsets (chains : list (list string))
  : list (list string) :=
  let sortedChains :=
    sortBy (fun a b => List.length b <=? List.length a) chains in
  fold_left
    (fun uniqueChains chain =>
       if existsb (isSubsetOf chain) uniqueChains then uniqueChains
       else uniqueChains ++ [chain])
    sortedChains [].

Definition detectShellNetworks (adj : Adjacency) (accountStats : StatsTable)
    (cycleNodes : StrSet.t) : option (list (list string)) :=
  match rawChains adj accountStats cycleNodes with
  | Some chains => Some (eliminateSubsets chains)
  | None => None
  end.

(** ** Suspicion score *)

Definition flowBonus (accountStats : StatsTable) (accountId : string) : bool :=
  match StrMap.get accountId accountStats with
  | Some stats =>
      let totalFlow := (totalSent stats + totalReceived stats)%Q in
      if Qgtb totalFlow 0 then
        let maxFlow := Qmax (totalSent stats) (totalReceived stats) in
        if Qgtb maxFlow 0 then
          let flowRatio :=
            (Qmin (totalSent stats) (totalReceived stats) / maxFlow)%Q in
          Qgtb flowRatio (7 # 10) && Qltb flowRatio 1
        else false
      else false
  | None => false
  end.

Definition calculateSuspicionScore (accountId : string)
    (patterns : list string) (accountStats : StatsTable) (cycleCount : nat)
    (isSmurfHub isShellNode temporalFlag : bool) : Q :=
  let score := 0%Q in
  let score :=
    if existsb (fun p => startsWith p "cycle_length_") patterns
    then (score + 35
          + Qmin (inject_Z (Z.of_nat cycleCount - 1)) 3 * 10)%Q
    else score in
  let score := if StrSet.has "fan_in" patterns then (score + 25)%Q else score in
  let score := if StrSet.has "fan_out" patterns then (score + 25)%Q else score in
  let score :=
    if StrSet.has "shell_network" patterns then (score + 20)%Q else score in
  let score := if temporalFlag then (score + 15)%Q else score in
  let score :=
    if flowBonus accountStats accountId then (score + 10)%Q else score in
  let capped := Qmin score 100 in
  round1 capped.

(** ** The parts that read timestamps *)

Definition WINDOW_MS : Z := 72 * 60 * 60 * 1000.
Definition MIN_CONNECTIONS : nat := 10.

(** A hub of a fan-in (fan-out) ring: its distinct senders (receivers) in
    first-seen order, and the temporal flag.  The source has the two record
    shapes [{senders, temporal}] and [{receivers, temporal}]. *)
Record Hub := mkHub {
  counterparties : list string;
  temporal : bool
}.

(** Pipeline state of the ring assembly: the mutable locals of
    [analyzeTransactions]. *)
Record RingState := mkRingState {
  accountPatterns : StrMap.t StrSet.t;
  accountRings : StrMap.t StrSet.t;
  fraudRings : list FraudRing;
  ringDeduplicationSet : StrSet.t;
  ringCounter : nat;
  accountCycleCounts : StrMap.t nat;
  cycleNodes : StrSet.t
}.

Definition initialRingState : RingState :=
  mkRingState [] [] [] [] 1 [] [].

Definition addPattern (accountId pattern : string) (st : RingState)
  : RingState :=
  mkRingState
    (StrMap.update accountId [] (StrSet.add pattern) (accountPatterns st))
    (accountRings st) (fraudRings st) (ringDeduplicationSet st)
    (ringCounter st) (accountCycleCounts st) (cycleNodes st).

Definition addRing (accountId ringId : string) (st : RingState) : RingState :=
  mkRingState (accountPatterns st)
    (StrMap.update accountId [] (StrSet.add ringId) (accountRings st))
    (fraudRings st) (ringDeduplicationSet st)
    (ringCounter st) (accountCycleCounts st) (cycleNodes st).

Definition ringIdOf (counter : nat) : string :=
  ("RING_" ++ padStart0 3 (stringOfNat counter))%string.

Definition nextRingId (st : RingState) : string * RingState :=
  (ringIdOf (ringCounter st),
   mkRingState (accountPatterns st) (accountRings st) (fraudRings st)
     (ringDeduplicationSet st) (S (ringCounter st))
     (accountCycleCounts st) (cycleNodes st)).

Definition markSeen (dedupKey : string) (st : RingState) : RingState :=
  mkRingState (accountPatterns st) (accountRings st) (fraudRings st)
    (StrSet.add dedupKey (ringDeduplicationSet st)) (ringCounter st)
    (accountCycleCounts st) (cycleNodes st).

Definition pushRing (ring : FraudRing) (st : RingState) : RingState :=
  mkRingState (accountPatterns st) (accountRings st) (fraudRings st ++ [ring])
    (ringDeduplicationSet st) (ringCounter st)
    (accountCycleCounts st) (cycleNodes st).

Definition countCycleMember (account : string) (st : RingState) : RingState :=
  let count :=
    match StrMap.get account (accountCycleCounts st) with
    | Some n => n
    | None => 0
    end in
  mkRingState (accountPatterns st) (accountRings st) (fraudRings st)
    (ringDeduplicationSet st) (ringCounter st)
    (StrMap.set account (count + 1) (accountCycleCounts st))
    (StrSet.add account (cycleNodes st)).

(** One iteration of [for (const cycle of cycles)]. *)
Definition acceptCycle (st : RingState) (cycle : list string) : RingState :=
  let dedupKey := makeRingDeduplicationKey cycle "cycle" in
  if StrSet.has dedupKey (ringDeduplicationSet st) then st
  else
    let st := markSeen dedupKey st in
    let '(ringId, st) := nextRingId st in
    let st :=
      fold_left
        (fun st account =>
           let st :=
             addPattern account
               ("cycle_length_" ++ stringOfNat (List.length cycle))%string st in
           let st := addRing account ringId st in
           countCycleMember account st)
        cycle st in
    let riskScore := Qmin (70 + QofNat (List.length cycle) * 5)%Q 100 in
    pushRing (mkFraudRing ringId cycle "cycle" (round1 riskScore)) st.

(** One iteration of the fan-in (fan-out) loop, [patternType] being
    ["fan_in"] (["fan_out"]). *)
Definition acceptHub (patternType : string) (st : RingState)
    (entry : string * Hub) : RingState :=
  let '(accountId, data) := entry in
  let members := accountId :: counterparties data in
  let dedupKey := makeRingDeduplicationKey members patternType in
  if StrSet.has dedupKey (ringDeduplicationSet st) then st
  else
    let st := markSeen dedupKey st in
    let '(ringId, st) := nextRingId st in
    let st := addPattern accountId patternType st in
    let st := addRing accountId ringId st in
    let st :=
      fold_left
        (fun st party =>
           let st := addPattern party patternType st in
           addRing party ringId st)
        (counterparties data) st in
    let riskScore :=
      Qmin (60 + (if temporal data then 25 else 10)
            + QofNat (List.length (counterparties data)) * (1 # 2))%Q 100 in
    pushRing (mkFraudRing ringId members patternType (round1 riskScore)) st.

(** One iteration of [for (const chain of shellChains)]. *)
Definition acceptChain (st : RingState) (chain : list string) : RingState :=
  let dedupKey := makeRingDeduplicationKey chain "shell_network" in
  if StrSet.has dedupKey (ringDeduplicationSet st) then st
  else
    let st := markSeen dedupKey st in
    let '(ringId, st) := nextRingId st in
    let st :=
      fold_left
        (fun st account =>
           let st := addPattern account "shell_network" st in
           addRing account ringId st)
        chain st in
    let riskScore := Qmin (50 + QofNat (List.length chain) * 8)%Q 100 in
    pushRing (mkFraudRing ringId chain "shell_network" (round1 riskScore)) st.

(** [x || 0] on a number. *)
Definition orZero (x : Q) : Q := if Qeq_bool x 0 then 0%Q else x.

Definition edgeOf (tx : Transaction) : GraphEdge :=
  mkGraphEdge (sender_id tx) (receiver_id tx) (amount tx) (timestamp tx)
    (transaction_id tx).

Section Engine.
(** [new Date(s).getTime()]: epoch milliseconds, [None] for NaN. *)
Variable getTime : string -> option Z.

Definition computeAccountStats (transactions : list Transaction)
  : StatsTable :=
  fold_left
    (fun stats tx =>
       let ts := getTime (timestamp tx) in
       let stats :=
         StrMap.update (sender_id tx) emptyAccountStats
           (fun sender =>
              mkAccountStats
                (totalSent sender + amount tx) (totalReceived sender)
                (S (sendCount sender)) (receiveCount sender)
                (senders sender)
                (StrSet.add (receiver_id tx) (receivers sender))
                (transactionTimestamps sender ++ [ts])
                (S (totalTransactions sender)))
           stats in
       StrMap.update (receiver_id tx) emptyAccountStats
         (fun receiver =>
            mkAccountStats
              (totalSent receiver) (totalReceived receiver + amount tx)
              (sendCount receiver) (S (receiveCount receiver))
              (StrSet.add (sender_id tx) (senders receiver))
              (receivers receiver)
              (transactionTimestamps receiver ++ [ts])
              (S (totalTransactions receiver)))
         stats)
    transactions [].

(** *** Pattern 2: smurfing *)

(** The comparator [(a, b) => a - b]: a NaN difference counts as 0. *)
Definition timeLe (a b : option Z) : bool :=
  match a, b with
  | Some x, Some y => (x <=? y)%Z
  | _, _ => true
  end.

(** [ts >= start && ts <= start + WINDOW_MS]; false when either is NaN. *)
Definition inWindow (start ts : option Z) : bool :=
  match start, ts with
  | Some a, Some t => ((a <=? t) && (t <=? a + WINDOW_MS))%Z
  | _, _ => false
  end.

(** The temporal-cluster loop of a hub over its transactions [txs];
    [party] projects the counterparty. *)
Definition temporalCluster (party : Transaction -> string)
    (txs : list Transaction) : bool :=
  let timestamps :=
    sortBy timeLe (map (fun t => getTime (timestamp t)) txs) in
  existsb
    (fun start =>
       let partiesInWindow :=
         StrSet.ofList
           (map party
              (filter (fun t => inWindow start (getTime (timestamp t)))
                 txs)) in
       MIN_CONNECTIONS <=? StrSet.size partiesInWindow)
    timestamps.

(** [byReceiver] / [bySender]: transactions grouped under [hub]. *)
Definition groupBy (hub : Transaction -> string)
    (transactions : list Transaction) : StrMap.t (list Transaction) :=
  fold_left
    (fun m tx => StrMap.update (hub tx) [] (fun l => l ++ [tx]) m)
    transactions [].

(** The fan-in loop is [detectFan receiver_id sender_id], the fan-out loop
    [detectFan sender_id receiver_id]. *)
Definition detectFan (hub party : Transaction -> string)
    (transactions : list Transaction) : StrMap.t Hub :=
  fold_left
    (fun fanAccounts '(hubId, txs) =>
       let uniqueParties := StrSet.ofList (map party txs) in
       if MIN_CONNECTIONS <=? StrSet.size uniqueParties
       then StrMap.set hubId
              (mkHub uniqueParties (temporalCluster party txs)) fanAccounts
       else fanAccounts)
    (groupBy hub transactions) [].

Definition detectSmurfing (transactions : list Transaction)
  : StrMap.t Hub * StrMap.t Hub :=
  (detectFan receiver_id sender_id transactions,
   detectFan sender_id receiver_id transactions).

(** *** Main analysis *)

Definition hubTemporal (fanAccounts : StrMap.t Hub) (accountId : string)
  : bool :=
  match StrMap.get accountId fanAccounts with
  | Some data => temporal data
  | None => false
  end.

Definition buildSuspiciousAccounts (st : RingState)
    (accountStats : StatsTable) (fanInAccounts fanOutAccounts : StrMap.t Hub)
  : list SuspiciousAccount :=
  fold_left
    (fun suspiciousAccounts '(accountId, patterns) =>
       match StrMap.get accountId (accountRings st) with
       | None => suspiciousAccounts
       | Some rings =>
           if StrSet.size rings =? 0 then suspiciousAccounts
           else
             let isFanIn := StrMap.has accountId fanInAccounts in
             let isFanOut := StrMap.has accountId fanOutAccounts in
             let temporalFlag :=
               (isFanIn && hubTemporal fanInAccounts accountId)
               || (isFanOut && hubTemporal fanOutAccounts accountId) in
             let cycleCount :=
               match StrMap.get accountId (accountCycleCounts st) with
               | Some n => n
               | None => 0
               end in
             let score :=
               calculateSuspicionScore accountId patterns accountStats
                 cycleCount (isFanIn || isFanOut)
                 (StrSet.has "shell_network" patterns) temporalFlag in
             let primaryRing := hd "" rings in
             suspiciousAccounts
               ++ [mkSuspiciousAccount accountId score patterns primaryRing]
       end)
    (accountPatterns st) [].

Definition sortSuspicious (l : list SuspiciousAccount)
  : list SuspiciousAccount :=
  sortBy (fun a b => Qle_bool (suspicion_score b) (suspicion_score a)) l.

Definition buildNode (st : RingState) (allOriginalStats : StatsTable)
    (suspiciousAccounts : list SuspiciousAccount)
    (legitimateAccounts : StrSet.t) (accountId : string) : GraphNode :=
  let stats := StrMap.get accountId allOriginalStats in
  let rings := StrMap.get accountId (accountRings st) in
  let patterns := StrMap.get accountId (accountPatterns st) in
  let sa :=
    find (fun a => String.eqb (account_id a) accountId) suspiciousAccounts in
  let isLegit := StrSet.has accountId legitimateAccounts in
  let suspiciousSet := StrSet.ofList (map account_id suspiciousAccounts) in
  mkGraphNode accountId
    (StrSet.has accountId suspiciousSet)
    (match rings with Some r => r | None => [] end)
    (if isLegit then ["legitimate_business"]
     else match patterns with Some p => p | None => [] end)
    (match stats with Some s => orZero (totalSent s) | None => 0%Q end)
    (match stats with Some s => orZero (totalReceived s) | None => 0%Q end)
    (match stats with Some s => totalTransactions s | None => 0 end)
    (match sa with Some a => orZero (suspicion_score a) | None => 0%Q end).

(** The result of the early return taken when the filter leaves nothing. *)
Definition emptyResult (transactions : list Transaction)
    (allAccountsBeforeFilter legitimateAccounts : StrSet.t)
  : AnalysisResult :=
  mkAnalysisResult [] []
    (mkAnalysisSummary (StrSet.size allAccountsBeforeFilter) 0 0
       (StrSet.size legitimateAccounts))
    (map
       (fun id =>
          mkGraphNode id false []
            (if StrSet.has id legitimateAccounts
             then ["legitimate_business"] else [])
            0%Q 0%Q 0 0%Q)
       allAccountsBeforeFilter)
    (map edgeOf transactions).

(** The ring assembly up to and including the fan-out loop. *)
Definition assembleCyclesAndHubs (cycles : list (list string))
    (fanInAccounts fanOutAccounts : StrMap.t Hub) : RingState :=
  let st := fold_left acceptCycle cycles initialRingState in
  let st := fold_left (acceptHub "fan_in") fanInAccounts st in
  fold_left (acceptHub "fan_out") fanOutAccounts st.

Definition analyzeTransactions (transactions : list Transaction)
  : option AnalysisResult :=
  let allAccountsBeforeFilter := getAllAccounts transactions in
  let legitimateAccounts := detectLegitimateAccounts transactions in
  let filteredTransactions :=
    removeLegitimateTransactions transactions legitimateAccounts in
  if List.length filteredTransactions =? 0
  then Some (emptyResult transactions allAccountsBeforeFilter
               legitimateAccounts)
  else
    let allAccounts := getAllAccounts filteredTransactions in
    let adj := buildAdjacencyList filteredTransactions in
    let accountStats := computeAccountStats filteredTransactions in
    let cycles := detectCycles adj allAccounts in
    let '(fanInAccounts, fanOutAccounts) := detectSmurfing transactions in
    let st := assembleCyclesAndHubs cycles fanInAccounts fanOutAccounts in
    match detectShellNetworks adj accountStats (cycleNodes st) with
    | None => None
    | Some shellChains =>
        let st := fold_left acceptChain shellChains st in
        let suspiciousAccounts :=
          sortSuspicious
            (buildSuspiciousAccounts st accountStats
               fanInAccounts fanOutAccounts) in
        let allOriginalStats := computeAccountStats transactions in
        let nodes :=
          map (buildNode st allOriginalStats suspiciousAccounts
                 legitimateAccounts)
            allAccountsBeforeFilter in
        Some
          (mkAnalysisResult suspiciousAccounts (fraudRings st)
             (mkAnalysisSummary (StrSet.size allAccountsBeforeFilter)
                (List.length suspiciousAccounts)
                (List.length (fraudRings st))
                (StrSet.size legitimateAccounts))
             nodes (map edgeOf transactions))
    end.
End Engine.

(** ** Reading a ring identifier back *)

(** The integer suffix of a ring identifier: the decimal number after
    [RING_]. *)
Definition ringSuffix (rid : string) : option nat :=
  match rid with
  | String "R" (String "I" (String "N" (String "G" (String "_" digits)))) =>
      option_map Nat.of_uint (NilEmpty.uint_of_string digits)
  | _ => None
  end.

(** [RING_NNN]: the three decimal digits of a number below 1000. *)
Definition digitChar (d : nat) : ascii := ascii_of_nat (48 + d).

Definition threeDigits (n : nat) : string :=
  String (digitChar (n / 100))
    (String (digitChar ((n / 10) mod 10))
       (String (digitChar (n mod 10)) EmptyString)).

(** ** The suspicion score as the rule reads *)

(** The score before the pass-through bonus: 35 plus 10 per further cycle
    (at most 3) for a cycle member, 25 for [fan_in], 25 for [fan_out], 20
    for [shell_network], 15 for the temporal flag. *)
Definition patternScore (patterns : list string) (cycleCount : nat)
    (temporalFlag : bool) : Q :=
  ((if existsb (fun p => startsWith p "cycle_length_") patterns
    then 35 + Qmin (inject_Z (Z.of_nat cycleCount - 1)) 3 * 10 else 0)
   + (if StrSet.has "fan_in" patterns then 25 else 0)
   + (if StrSet.has "fan_out" patterns then 25 else 0)
   + (if StrSet.has "shell_network" patterns then 20 else 0)
   + (if temporalFlag then 15 else 0))%Q.

(** The flow ratio [min(sent, received) / max(sent, received)]. *)
Definition flowRatioOf (stats : AccountStats) : Q :=
  (Qmin (totalSent stats) (totalReceived stats)
   / Qmax (totalSent stats) (totalReceived stats))%Q.

(** The rule of the pass-through bonus: both totals positive and the flow
    ratio strictly between 0.7 and 1. *)
Definition passThrough (stats : AccountStats) : Prop :=
  (0 < totalSent stats)%Q /\ (0 < totalReceived stats)%Q
  /\ (7 # 10 < flowRatioOf stats)%Q /\ (flowRatioOf stats < 1)%Q.

(** The timestamp of a transaction parses to a finite epoch moment. *)
Definition parses (getTime : string -> option Z) (t : Transaction) : bool :=
  match getTime (timestamp t) with
  | Some _ => true
  | None => false
  end.

(** * Vocabulary of the properties *)

(** ** Ring assembly *)

(** An account has an entry: a non-empty ring set and a non-empty pattern
    set. *)
Definition hasEntry (a : string) (st : RingState) : Prop :=
  (exists rs, StrMap.get a (accountRings st) = Some rs /\ rs <> [])
  /\ (exists ps, StrMap.get a (accountPatterns st) = Some ps /\ ps <> []).

(** [Extends st st']: [st'] is [st] after some calls of [addPattern],
    [addRing] and [countCycleMember]. *)
Record Extends (st st' : RingState) : Prop := mkExtends {
  ext_rings : fraudRings st' = fraudRings st;
  ext_counter : ringCounter st' = ringCounter st;
  ext_seen : ringDeduplicationSet st' = ringDeduplicationSet st;
  ext_entry : forall a, hasEntry a st -> hasEntry a st';
  ext_cycleNodes : forall a, In a (cycleNodes st) -> In a (cycleNodes st');
  ext_keys : NoDup (StrMap.keys (accountPatterns st)) ->
             NoDup (StrMap.keys (accountPatterns st'))
}.

(** The common shape of the three loop bodies. *)
Definition acceptCandidate (members : list string) (patternType label : string)
    (extra : string -> RingState -> RingState) (risk : Q) (st : RingState)
  : RingState :=
  let dedupKey := makeRingDeduplicationKey members patternType in
  if StrSet.has dedupKey (ringDeduplicationSet st) then st
  else
    let ringId := ringIdOf (ringCounter st) in
    pushRing (mkFraudRing ringId members patternType risk)
      (fold_left
         (fun st a => extra a (addRing a ringId (addPattern a label st)))
         members (snd (nextRingId (markSeen dedupKey st)))).

(** The deduplication key of an emitted ring. *)
Definition ringKey (ring : FraudRing) : string :=
  makeRingDeduplicationKey (member_accounts ring) (pattern_type ring).

(** The invariant of the ring assembly; [Origin] says where an emitted
    ring may come from. *)
Record RingInv (Origin : list string -> string -> Q -> Prop)
    (st : RingState) : Prop := mkRingInv {
  inv_counter : ringCounter st = S (List.length (fraudRings st));
  inv_ids : map ring_id (fraudRings st)
            = map ringIdOf (seq 1 (List.length (fraudRings st)));
  inv_origin : forall ring, In ring (fraudRings st) ->
      Origin (member_accounts ring) (pattern_type ring) (risk_score ring);
  inv_members : forall ring a, In ring (fraudRings st) ->
      In a (member_accounts ring) -> hasEntry a st;
  inv_cycle : forall ring a, In ring (fraudRings st) ->
      pattern_type ring = "cycle" -> In a (member_accounts ring) ->
      In a (cycleNodes st);
  inv_keys : NoDup (StrMap.keys (accountPatterns st));
  inv_seen : forall ring, In ring (fraudRings st) ->
      In (ringKey ring) (ringDeduplicationSet st);
  inv_distinct : NoDup (map ringKey (fraudRings st))
}.

(** The risk scores of the three kinds of candidates. *)
Definition cycleRisk (members : list string) : Q :=
  round1 (Qmin (70 + QofNat (List.length members) * 5)%Q 100).

Definition hubRisk (data : Hub) : Q :=
  round1 (Qmin (60 + (if temporal data then 25 else 10)
                + QofNat (List.length (counterparties data)) * (1 # 2))%Q 100).

Definition chainRisk (members : list string) : Q :=
  round1 (Qmin (50 + QofNat (List.length members) * 8)%Q 100).

(** Every emitted ring is a detected cycle, a fan-in hub, a fan-out hub or a
    shell chain, with the matching type and risk score. *)
Inductive RingOrigin (cycles : list (list string))
    (fanInAccounts fanOutAccounts : StrMap.t Hub)
    (chains : list (list string)) : list string -> string -> Q -> Prop :=
| origin_cycle cycle :
    In cycle cycles ->
    RingOrigin cycles fanInAccounts fanOutAccounts chains
      cycle "cycle" (cycleRisk cycle)
| origin_fan_in hubId data :
    In (hubId, data) fanInAccounts ->
    RingOrigin cycles fanInAccounts fanOutAccounts chains
      (hubId :: counterparties data) "fan_in" (hubRisk data)
| origin_fan_out hubId data :
    In (hubId, data) fanOutAccounts ->
    RingOrigin cycles fanInAccounts fanOutAccounts chains
      (hubId :: counterparties data) "fan_out" (hubRisk data)
| origin_chain chain :
    In chain chains ->
    RingOrigin cycles fanInAccounts fanOutAccounts chains
      chain "shell_network" (chainRisk chain).

(** Whether an account has a non-empty ring set. *)
Definition hasRings (st : RingState) (a : string) : bool :=
  match StrMap.get a (accountRings st) with
  | Some rings => negb (StrSet.size rings =? 0)
  | None => false
  end.

(** ** Transactions of an account, hubs, windows *)

(** The transactions of a batch whose [hub] side is [h], in input order. *)
Definition txsOf (hub : Transaction -> string) (h : string)
    (transactions : list Transaction)
  : list Transaction :=
  filter (fun t => String.eqb (hub t) h) transactions.

(** The transactions stored under [adj.get(a).get(b)] are exactly the
    transactions from [a] to [b], in input order. *)
Definition edgeTxs (a b : string) (transactions : list Transaction)
  : list Transaction :=
  txsOf receiver_id b (txsOf sender_id a transactions).

(** The hub entry computed from the transactions of one hub. *)
Definition hubOf (getTime : string -> option Z)
    (party : Transaction -> string) (txs : list Transaction) : Hub :=
  mkHub (StrSet.ofList (map party txs)) (temporalCluster getTime party txs).

(** The window test of one start time. *)
Definition windowFull (getTime : string -> option Z)
    (party : Transaction -> string) (txs : list Transaction)
    (start : option Z) : bool :=
  MIN_CONNECTIONS
  <=? StrSet.size
        (StrSet.ofList
           (map party
              (filter (fun t => inWindow start (getTime (timestamp t)))
                 txs))).

(** ** Statistics of one account *)

(** The two mutations of [computeAccountStats]. *)
Definition senderStep (getTime : string -> option Z) (tx : Transaction)
    (sender : AccountStats)
  : AccountStats :=
  mkAccountStats
    (totalSent sender + amount tx) (totalReceived sender)
    (S (sendCount sender)) (receiveCount sender)
    (senders sender)
    (StrSet.add (receiver_id tx) (receivers sender))
    (transactionTimestamps sender ++ [getTime (timestamp tx)])
    (S (totalTransactions sender)).

Definition receiverStep (getTime : string -> option Z) (tx : Transaction)
    (receiver : AccountStats)
  : AccountStats :=
  mkAccountStats
    (totalSent receiver) (totalReceived receiver + amount tx)
    (sendCount receiver) (S (receiveCount receiver))
    (StrSet.add (sender_id tx) (senders receiver))
    (receivers receiver)
    (transactionTimestamps receiver ++ [getTime (timestamp tx)])
    (S (totalTransactions receiver)).

(** What one transaction does to the entry of account [a]. *)
Definition accountStep (getTime : string -> option Z) (a : string)
    (s : AccountStats) (tx : Transaction)
  : AccountStats :=
  let s := if String.eqb (sender_id tx) a then senderStep getTime tx s else s in
  if String.eqb (receiver_id tx) a then receiverStep getTime tx s else s.

(** The transaction has account [a] as sender or receiver. *)
Definition touches (a : string) (tx : Transaction) : bool :=
  String.eqb (sender_id tx) a || String.eqb (receiver_id tx) a.

(** ** Paths, chains and cycles of the adjacency index *)

(** Consecutive members are joined by an edge of the adjacency index. *)
Fixpoint isPath (adj : Adjacency) (l : list string) : Prop :=
  match l with
  | a :: l' =>
      match l' with
      | b :: _ => In b (neighborsOf adj a) /\ isPath adj l'
      | [] => True
      end
  | [] => True
  end.

(** The members of a chain other than the first and the last. *)
Definition interior (chain : list string) : list string :=
  removelast (tl chain).

(** What every recorded shell chain satisfies. *)
Record ChainOK (adj : Adjacency) (accountStats : StatsTable)
    (cycleNodes : StrSet.t) (chain : list string) : Prop := mkChainOK {
  chain_length : 3 <= List.length chain;
  chain_path : isPath adj chain;
  chain_nocycle : forall a, In a chain -> ~ In a cycleNodes;
  chain_interior : forall a, In a (interior chain) ->
      lowActivity accountStats a = true;
  chain_nodup : NoDup chain;
  chain_start : exists s l, chain = s :: l /\ In s (StrMap.keys adj)
}.

(** What the current path of the shell search satisfies. *)
Record PathOK (adj : Adjacency) (accountStats : StatsTable)
    (cycleNodes : StrSet.t) (visited : StrSet.t) (current : string)
    (path : list string) : Prop := mkPathOK {
  path_path : isPath adj path;
  path_last : last path "" = current;
  path_nonempty : path <> [];
  path_nocycle : forall a, In a path -> ~ In a cycleNodes;
  path_tail : forall a, In a (tl path) -> lowActivity accountStats a = true;
  path_nodup : NoDup path;
  path_visited : forall a, In a path -> In a visited;
  path_start : exists s l, path = s :: l /\ In s (StrMap.keys adj)
}.

(** A simple directed cycle of the adjacency index, of 3 to 5 nodes,
    listed from one of its nodes. *)
Record SimpleCycle (adj : Adjacency) (c : list string) : Prop :=
  mkSimpleCycle {
  cyc_path : isPath adj c;
  cyc_nodup : NoDup c;
  cyc_min : 3 <= List.length c;
  cyc_max : List.length c <= 5;
  cyc_close : In (hd "" c) (neighborsOf adj (last c ""))
}.

(** [rotate n l]: the list [l] read from position [n] on, cyclically. *)
Definition rotate (n : nat) (l : list string) : list string :=
  skipn n l ++ firstn n l.

(** The order of the default string sort. *)
Definition leS (a b : string) : Prop := String.leb a b = true.

(** The identifier contains the separator of the cycle key. *)
Fixpoint hasPipe (s : string) : bool :=
  match s with
  | EmptyString => false
  | String c s' => Ascii.eqb c "|" || hasPipe s'
  end.

(** One iteration of the deduplication loop of [detectCycles]. *)
Definition dedupStep (st : list (list string) * StrSet.t)
    (cycle : list string) : list (list string) * StrSet.t :=
  let '(uniqueCycles, seen) := st in
  let normalized := normalizeCycle cycle in
  let key := cycleKey normalized in
  if negb (StrSet.has key seen)
  then (uniqueCycles ++ [normalized], StrSet.add key seen)
  else (uniqueCycles, seen).

(** ** The stages of one analysis *)

Section Stages.
Variable getTime : string -> option Z.
Variable transactions : list Transaction.

Definition filteredOf : list Transaction :=
  removeLegitimateTransactions transactions
    (detectLegitimateAccounts transactions).

Definition adjOf : Adjacency := buildAdjacencyList filteredOf.

Definition statsOf : StatsTable := computeAccountStats getTime filteredOf.

Definition cyclesOf : list (list string) :=
  detectCycles adjOf (getAllAccounts filteredOf).

Definition fanInOf : StrMap.t Hub :=
  detectFan getTime receiver_id sender_id transactions.

Definition fanOutOf : StrMap.t Hub :=
  detectFan getTime sender_id receiver_id transactions.

Definition hubStateOf : RingState :=
  assembleCyclesAndHubs cyclesOf fanInOf fanOutOf.

Definition chainsOf : option (list (list string)) :=
  detectShellNetworks adjOf statsOf (cycleNodes hubStateOf).

Definition finalStateOf (chains : list (list string)) : RingState :=
  fold_left acceptChain chains hubStateOf.

Definition suspiciousOf (chains : list (list string))
  : list SuspiciousAccount :=
  sortSuspicious
    (buildSuspiciousAccounts (finalStateOf chains) statsOf fanInOf fanOutOf).
End Stages.

(** ** Sample inputs *)

(** A stand-in for the platform's date parser in the examples: a non-empty
    string of decimal digits is read as epoch milliseconds, anything else
    fails to parse. *)
Fixpoint digitsValue (s : string) (acc : Z) : option Z :=
  match s with
  | EmptyString => Some acc
  | String c s' =>
      let n := nat_of_ascii c in
      if (48 <=? n) && (n <=? 57)
      then digitsValue s' (acc * 10 + Z.of_nat (n - 48))%Z
      else None
  end.

Definition sampleGetTime (s : string) : option Z :=
  match s with
  | EmptyString => None
  | _ => digitsValue s 0%Z
  end.

Definition tx (tid s r : string) (a : Q) (ts : string) : Transaction :=
  mkTransaction tid s r a ts.

(** Scenario A: a pure 3-cycle with equal amounts. *)
Definition scenarioA : list Transaction :=
  [ tx "T1" "A" "B" 100 "0";
    tx "T2" "B" "C" 100 "3600000";
    tx "T3" "C" "A" 100 "7200000" ].

(** A legitimate name as a fan-in hub: ten customers pay [BANK]; one
    unrelated transfer survives the filter. *)
Definition bankBatch : list Transaction :=
  map (fun s => tx ("T_" ++ s)%string s "BANK" 50 "0")
    ["S01"; "S02"; "S03"; "S04"; "S05"; "S06"; "S07"; "S08"; "S09"; "S10"]
  ++ [tx "T_X" "X" "Y" 5 "0"].

(** Scenario C: a payroll account pays ten employees; the filter removes
    every transaction. *)
Definition payrollBatch : list Transaction :=
  map (fun s => tx ("T_" ++ s)%string "ACME_CORP_PAYROLL" s 2000 "0")
    ["E1"; "E2"; "E3"; "E4"; "E5"; "E6"; "E7"; "E8"; "E9"; "E10"].

(** Two 3-cycles through [A] whose identifiers contain the separator of
    the cycle key. *)
Definition pipeBatch : list Transaction :=
  [ tx "T1" "A" "B|C" 10 "0"; tx "T2" "B|C" "D" 10 "0";
    tx "T3" "D" "A" 10 "0";
    tx "T4" "A" "B" 10 "0"; tx "T5" "B" "C|D" 10 "0";
    tx "T6" "C|D" "A" 10 "0" ].

(** Two hubs [A] and [B] that each receive from the same ten accounts,
    themselves included. *)
Definition selfTransferBatch : list Transaction :=
  map (fun s => tx ("TA_" ++ s)%string s "A" 10 "0")
    ["A"; "B"; "C1"; "C2"; "C3"; "C4"; "C5"; "C6"; "C7"; "C8"]
  ++ map (fun s => tx ("TB_" ++ s)%string s "B" 10 "0")
       ["A"; "B"; "C1"; "C2"; "C3"; "C4"; "C5"; "C6"; "C7"; "C8"].

(** A batch with a 3-cycle and its reversal, a fan-in hub (one of its
    transactions carries a timestamp that does not parse) and a shell chain. *)
Definition mixedBatch : list Transaction :=
  [ tx "T01" "A" "B" 100 "1000"; tx "T02" "B" "C" 90 "2000";
    tx "T03" "C" "A" 80 "3000";
    tx "T04" "A" "C" 10 "4000"; tx "T05" "C" "B" 10 "5000";
    tx "T06" "B" "A" 10 "6000" ]
  ++ map (fun s => tx ("H_" ++ s)%string s "HUB" 10 "7000")
       ["P01"; "P02"; "P03"; "P04"; "P05"; "P06"; "P07"; "P08"; "P09"; "P10"]
  ++ [ tx "T07" "P01" "HUB" 10 "not-a-date" ]
  ++ map (fun s => tx ("Z_" ++ s)%string "HUB" s 20 "8000")
       ["Z1"; "Z2"; "Z3"; "Z4"]
  ++ [ tx "T08" "SRC" "M1" 500 "9000"; tx "T09" "M1" "M2" 490 "9100";
       tx "T10" "M2" "M3" 480 "9200"; tx "T11" "M3" "DST" 470 "9300";
       tx "T12" "DST" "Q1" 100 "9400"; tx "T13" "DST" "Q2" 100 "9500";
       tx "T14" "DST" "Q3" 100 "9600" ].

(** The results of two of the sample batches, and rings of the first. *)
Definition mixedResult : AnalysisResult :=
  match analyzeTransactions sampleGetTime mixedBatch with
  | Some r => r
  | None => mkAnalysisResult [] [] (mkAnalysisSummary 0 0 0 0) [] []
  end.

Definition mixedShellRing : FraudRing :=
  mkFraudRing "RING_003" ["SRC"; "M1"; "M2"; "M3"; "DST"] "shell_network"
    (900 # 10).

Definition mixedCycleRing : FraudRing :=
  mkFraudRing "RING_001" ["A"; "B"; "C"] "cycle" (850 # 10).

Definition mixedFanInRing : FraudRing :=
  mkFraudRing "RING_002"
    ["HUB"; "P01"; "P02"; "P03"; "P04"; "P05"; "P06"; "P07"; "P08"; "P09";
     "P10"] "fan_in" (900 # 10).

Definition bankResult : AnalysisResult :=
  match analyzeTransactions sampleGetTime bankBatch with
  | Some r => r
  | None => mkAnalysisResult [] [] (mkAnalysisSummary 0 0 0 0) [] []
  end.

(** ** The ledger of ring memberships *)

(** The label that membership in a ring adds to an account. *)
Definition ringLabel (ring : FraudRing) : string :=
  if String.eqb (pattern_type ring) "cycle"
  then ("cycle_length_"
        ++ stringOfNat (List.length (member_accounts ring)))%string
  else pattern_type ring.

(** The emitted rings that list account [a], in emission order. *)
Definition ringsOf (a : string) (rings : list FraudRing) : list FraudRing :=
  filter (fun ring => StrSet.has a (member_accounts ring)) rings.

(** The set an account holds when each of its rings adds [f ring] to it;
    no entry for an account without rings. *)
Definition ledgerOf (f : FraudRing -> string) (a : string)
    (rings : list FraudRing) : option StrSet.t :=
  match ringsOf a rings with
  | [] => None
  | l => Some (StrSet.ofList (map f l))
  end.

Definition isCycleRing (ring : FraudRing) : bool :=
  String.eqb (pattern_type ring) "cycle".

(** How often the cycle rings list account [a]. *)
Definition cycleCountOf (a : string) (rings : list FraudRing) : nat :=
  list_sum
    (map (fun ring => count_occ string_dec (member_accounts ring) a)
       (filter isCycleRing rings)).

(** [accountCycleCounts.get(a) || 0] *)
Definition cycleCountAt (st : RingState) (a : string) : nat :=
  match StrMap.get a (accountCycleCounts st) with
  | Some n => n
  | None => 0
  end.

(** The three per-account tables are determined by the emitted rings. *)
Record Ledger (st : RingState) : Prop := mkLedger {
  led_rings : forall a,
      StrMap.get a (accountRings st) = ledgerOf ring_id a (fraudRings st);
  led_patterns : forall a,
      StrMap.get a (accountPatterns st) = ledgerOf ringLabel a (fraudRings st);
  led_counts : forall a, cycleCountAt st a = cycleCountOf a (fraudRings st)
}.

Definition orEmpty (o : option StrSet.t) : StrSet.t :=
  match o with Some s => s | None => [] end.

(** The temporal flag that [analyzeTransactions] passes to the score. *)
Definition temporalFlagOf (fanInAccounts fanOutAccounts : StrMap.t Hub)
    (accountId : string) : bool :=
  (StrMap.has accountId fanInAccounts && hubTemporal fanInAccounts accountId)
  || (StrMap.has accountId fanOutAccounts
      && hubTemporal fanOutAccounts accountId).

(** ** Per-account views of the two-sided tables *)

(** What one transaction does to the entry of account [a] in a table whose
    loop body updates the sender's entry with [fs] and then the receiver's
    entry with [fr]. *)
Definition pairStep {V : Type} (fs fr : Transaction -> V -> V) (a : string)
    (s : V) (tx : Transaction) : V :=
  let s := if String.eqb (sender_id tx) a then fs tx s else s in
  if String.eqb (receiver_id tx) a then fr tx s else s.

(** The record that [detectLegitimateAccounts] gathers for account [a]. *)
Definition accountTxsOf (a : string) (transactions : list Transaction)
  : AccountTxs.t :=
  let sent := txsOf sender_id a transactions in
  let received := txsOf receiver_id a transactions in
  AccountTxs.mk sent received
    (StrSet.ofList (map sender_id received))
    (StrSet.ofList (map receiver_id sent))
    (fold_left Qplus (map amount sent) 0%Q)
    (fold_left Qplus (map amount received) 0%Q).

(** The test of [removeLegitimateTransactions]. *)
Definition survives (legitimateAccounts : StrSet.t) (tx : Transaction) : bool :=
  negb (StrSet.has (sender_id tx) legitimateAccounts)
  && negb (StrSet.has (receiver_id tx) legitimateAccounts).

(** The two mutations of the gathering loop of [detectLegitimateAccounts]. *)
Definition gatherSent (tx : Transaction) (s : AccountTxs.t) : AccountTxs.t :=
  AccountTxs.mk (AccountTxs.sent s ++ [tx]) (AccountTxs.received s)
    (AccountTxs.uniqueSenders s)
    (StrSet.add (receiver_id tx) (AccountTxs.uniqueReceivers s))
    (AccountTxs.totalSent s + amount tx) (AccountTxs.totalReceived s).

Definition gatherReceived (tx : Transaction) (r : AccountTxs.t)
  : AccountTxs.t :=
  AccountTxs.mk (AccountTxs.sent r) (AccountTxs.received r ++ [tx])
    (StrSet.add (sender_id tx) (AccountTxs.uniqueSenders r))
    (AccountTxs.uniqueReceivers r)
    (AccountTxs.totalSent r) (AccountTxs.totalReceived r + amount tx).

(** The node carries the single label [legitimate_business]. *)
Definition labelledLegitimate (node : GraphNode) : bool :=
  match patterns node with
  | [p] => String.eqb p "legitimate_business"
  | _ => false
  end.

(** ** Shell chains that are kept *)

(** [kept] is what the subset elimination holds after the chains [seen]:
    chains of [seen], longest first, none included in an earlier one, and
    every chain of [seen] included in one of them. *)
Record Kept (kept seen : list (list string)) : Prop := mkKept {
  kept_seen : forall u, In u kept -> In u seen;
  kept_covers : forall c, In c seen -> exists u, In u kept /\ incl c u;
  kept_sorted :
    StronglySorted (fun a b => List.length b <= List.length a) kept;
  kept_later : ForallOrdPairs (fun a b => ~ incl b a) kept
}.

(** ** Windows of a hub *)

(** The counterparties of the transactions of [txs] whose timestamp lies
    in the 72 hours that start at [start]. *)
Definition partiesInWindow (getTime : string -> option Z)
    (party : Transaction -> string) (txs : list Transaction) (start : Z)
  : StrSet.t :=
  StrSet.ofList
    (map party
       (filter
          (fun t =>
             match getTime (timestamp t) with
             | Some ts => ((start <=? ts) && (ts <=? start + WINDOW_MS))%Z
             | None => false
             end)
          txs)).

(** ** Candidate rings *)

(** The string contains the character [c]. *)
Fixpoint hasChar (c : ascii) (s : string) : bool :=
  match s with
  | EmptyString => false
  | String c' s' => Ascii.eqb c' c || hasChar c s'
  end.

(** A candidate ring: member list and pattern type. *)
Definition candidateKey (c : list string * string) : string :=
  makeRingDeduplicationKey (fst c) (snd c).

Definition ringShape (ring : FraudRing) : list string * string :=
  (member_accounts ring, pattern_type ring).

(** One candidate after the other, a candidate whose key was seen is
    dropped. *)
Definition keepFirst (kept : list (list string * string))
    (c : list string * string) : list (list string * string) :=
  if existsb (fun c' => String.eqb (candidateKey c) (candidateKey c')) kept
  then kept else kept ++ [c].

Definition firstOfEachKey (l : list (list string * string))
  : list (list string * string) :=
  fold_left keepFirst l [].

Definition hubCandidate (patternType : string) (entry : string * Hub)
  : list string * string :=
  (fst entry :: counterparties (snd entry), patternType).

(** The candidates in the order in which the four loops of
    [analyzeTransactions] meet them. *)
Definition candidatesOf (getTime : string -> option Z)
    (transactions : list Transaction) (chains : list (list string))
  : list (list string * string) :=
  map (fun c => (c, "cycle")) (cyclesOf transactions)
  ++ map (hubCandidate "fan_in") (fanInOf getTime transactions)
  ++ map (hubCandidate "fan_out") (fanOutOf getTime transactions)
  ++ map (fun c => (c, "shell_network")) chains.

Definition patternTypes : list string :=
  ["cycle"; "fan_in"; "fan_out"; "shell_network"].

(** ** The engine of lib/graph-engine.ts *)

(** The engine as the API route imports it.  Its detectors, its score and
    its ring assembly are those above; it has no legitimacy filter, no
    early return, and its summary has no count of filtered accounts. *)
Module Lib.
Record AnalysisSummary := mkAnalysisSummary {
  total_accounts_analyzed : nat;
  suspicious_accounts_flagged : nat;
  fraud_rings_detected : nat
}.

Record AnalysisResult := mkAnalysisResult {
  suspicious_accounts : list SuspiciousAccount;
  fraud_rings : list FraudRing;
  summary : AnalysisSummary;
  nodes : list GraphNode;
  edges : list GraphEdge
}.

Definition buildNode (st : RingState) (accountStats : StatsTable)
    (suspiciousAccounts : list SuspiciousAccount) (accountId : string)
  : GraphNode :=
  let stats := StrMap.get accountId accountStats in
  let rings := StrMap.get accountId (accountRings st) in
  let patterns := StrMap.get accountId (accountPatterns st) in
  let sa :=
    find (fun a => String.eqb (account_id a) accountId) suspiciousAccounts in
  let suspiciousSet := StrSet.ofList (map account_id suspiciousAccounts) in
  mkGraphNode accountId
    (StrSet.has accountId suspiciousSet)
    (match rings with Some r => r | None => [] end)
    (match patterns with Some p => p | None => [] end)
    (match stats with Some s => orZero (totalSent s) | None => 0%Q end)
    (match stats with Some s => orZero (totalReceived s) | None => 0%Q end)
    (match stats with Some s => totalTransactions s | None => 0 end)
    (match sa with Some a => orZero (suspicion_score a) | None => 0%Q end).

Definition analyzeTransactions (getTime : string -> option Z)
    (transactions : list Transaction) : option AnalysisResult :=
  let allAccounts := getAllAccounts transactions in
  let adj := buildAdjacencyList transactions in
  let accountStats := computeAccountStats getTime transactions in
  let cycles := detectCycles adj allAccounts in
  let '(fanInAccounts, fanOutAccounts) :=
    detectSmurfing getTime transactions in
  let st := assembleCyclesAndHubs cycles fanInAccounts fanOutAccounts in
  match detectShellNetworks adj accountStats (cycleNodes st) with
  | None => None
  | Some shellChains =>
      let st := fold_left acceptChain shellChains st in
      let suspiciousAccounts :=
        sortSuspicious
          (buildSuspiciousAccounts st accountStats
             fanInAccounts fanOutAccounts) in
      let nodes :=
        map (buildNode st accountStats suspiciousAccounts) allAccounts in
      Some
        (mkAnalysisResult suspiciousAccounts (fraudRings st)
           (mkAnalysisSummary (StrSet.size allAccounts)
              (List.length suspiciousAccounts)
              (List.length (fraudRings st)))
           nodes (map edgeOf transactions))
  end.
End Lib.

(** ** The CSV reader of the API route *)

(** [parseCSV] of app/api/analyze/route.ts, for a text within ASCII.
    Strings are read character by character; [trim] removes the ASCII
    white space and line terminators (tab, line feed, vertical tab, form
    feed, carriage return, space) and [toLowerCase] maps [A-Z] to [a-z];
    what JavaScript does to characters beyond ASCII is not modelled.
    [parseFloat] is a platform function, here a parameter with [None] for
    NaN. *)
Module Csv.
Definition isSpace (c : ascii) : bool :=
  let n := nat_of_ascii c in
  ((9 <=? n) && (n <=? 13)) || (n =? 32).

Fixpoint trimStart (s : string) : string :=
  match s with
  | EmptyString => EmptyString
  | String c s' => if isSpace c then trimStart s' else s
  end.

Fixpoint trimEnd (s : string) : string :=
  match s with
  | EmptyString => EmptyString
  | String c s' =>
      match trimEnd s' with
      | EmptyString => if isSpace c then EmptyString else String c EmptyString
      | t => String c t
      end
  end.

(** [s.trim()] *)
Definition trim (s : string) : string := trimEnd (trimStart s).

Definition toLowerChar (c : ascii) : ascii :=
  let n := nat_of_ascii c in
  if (65 <=? n) && (n <=? 90) then ascii_of_nat (n + 32) else c.

Fixpoint toLowerCase (s : string) : string :=
  match s with
  | EmptyString => EmptyString
  | String c s' => String (toLowerChar c) (toLowerCase s')
  end.

(** [s.split(sep)] for a separator of one character: never empty. *)
Fixpoint splitOn (sep : ascii) (s : string) : list string :=
  match s with
  | EmptyString => [EmptyString]
  | String c s' =>
      if Ascii.eqb c sep then EmptyString :: splitOn sep s'
      else match splitOn sep s' with
           | piece :: rest => String c piece :: rest
           | [] => [String c EmptyString]
           end
  end.

Definition lineFeed : ascii := ascii_of_nat 10.
Definition comma : ascii := ascii_of_nat 44.

(** A parsed row: a field is [None] where [values[i]] is [undefined]. *)
Record Row := mkRow {
  row_transaction_id : option string;
  row_sender_id : option string;
  row_receiver_id : option string;
  row_amount : Q;
  row_timestamp : option string
}.

Definition requiredColumns : list string :=
  ["transaction_id"; "sender_id"; "receiver_id"; "amount"; "timestamp"].

Section Parse.
Variable parseFloat : string -> option Q.

(** The body of the loop over the data lines, for a header that has the
    five required columns ([parseCSV] has thrown otherwise); a field is
    [None] where the line has fewer values than the column index. *)
Definition parseLine (header : list string) (transactions : list Row)
    (rawLine : string) : list Row :=
  let line := trim rawLine in
  if String.eqb line "" then transactions
  else
    let values := map trim (splitOn comma line) in
    let amount :=
      match nth_error values (indexOf "amount" header) with
      | Some v => parseFloat v
      | None => None
      end in
    match amount with
    | None => transactions
    | Some amount =>
        transactions
        ++ [mkRow (nth_error values (indexOf "transaction_id" header))
              (nth_error values (indexOf "sender_id" header))
              (nth_error values (indexOf "receiver_id" header))
              amount
              (nth_error values (indexOf "timestamp" header))]
    end.

(** [inl message] is the thrown [Error(message)]. *)
Definition parseCSV (csvText : string) : string + list Row :=
  let lines := splitOn lineFeed (trim csvText) in
  if List.length lines <? 2
  then inl "CSV must have a header and at least one data row"
  else
    let header :=
      map (fun h => toLowerCase (trim h)) (splitOn comma (hd "" lines)) in
    match find (fun col => negb (existsb (String.eqb col) header))
            requiredColumns with
    | Some col => inl ("Missing required column: " ++ col)%string
    | None => inr (fold_left (parseLine header) (tl lines) [])
    end.
End Parse.
End Csv.

(** ** Display helpers of the result tables and of the graph *)

Module Ui.
(** [getPatternLabel] of the fraud ring table. *)
Definition getPatternLabel (type : string) : string :=
  if String.eqb type "cycle" then "Circular Routing"
  else if String.eqb type "fan_in" then "Fan-In (Smurfing)"
  else if String.eqb type "fan_out" then "Fan-Out (Smurfing)"
  else if String.eqb type "shell_network" then "Shell Network"
  else type.

Definition getRiskColor (score : Q) : string :=
  if Qgeb score 80 then "text-destructive"
  else if Qgeb score 60 then "text-warning"
  else "text-foreground".

Definition getRiskBadge (score : Q) : string :=
  if Qgeb score 80 then "bg-destructive/15 text-destructive"
  else if Qgeb score 60 then "bg-warning/15 text-warning"
  else "bg-muted text-muted-foreground".

(** [getScoreColor] of the suspicious accounts table. *)
Definition getScoreColor (score : Q) : string :=
  if Qgeb score 70 then "bg-destructive/15 text-destructive"
  else if Qgeb score 40 then "bg-warning/15 text-warning"
  else "bg-muted text-muted-foreground".

(** The score badges of the rows of the suspicious accounts table:
    [accounts.slice(0, 50).map(...)]. *)
Definition scoreBadges (accounts : list SuspiciousAccount) : list string :=
  map (fun account => getScoreColor (suspicion_score account))
    (firstn 50 accounts).

Definition RING_COLORS : list string :=
  ["#22d3ee"; "#ef4444"; "#f97316"; "#a3e635"; "#facc15"; "#ec4899";
   "#8b5cf6"; "#14b8a6"].

(** [getRingColor(ringId, ringMap)]: the colour, [None] for [undefined],
    and the map after the call. *)
Definition getRingColor (ringId : string) (ringMap : StrMap.t nat)
  : option string * StrMap.t nat :=
  let ringMap :=
    if negb (StrMap.has ringId ringMap)
    then StrMap.set ringId
           (List.length ringMap mod List.length RING_COLORS) ringMap
    else ringMap in
  (match StrMap.get ringId ringMap with
   | Some i => nth_error RING_COLORS i
   | None => None
   end,
   ringMap).

(** Successive calls on one map, as the drawing loop makes them. *)
Definition ringColors (ringIds : list string) (ringMap : StrMap.t nat)
  : list (option string) * StrMap.t nat :=
  fold_left
    (fun '(colors, ringMap) ringId =>
       let '(color, ringMap) := getRingColor ringId ringMap in
       (colors ++ [color], ringMap))
    ringIds ([], ringMap).

(** The colour index of every ring identifier in the map is its position
    in the map, modulo the size of the palette. *)
Definition paletteMap (m : StrMap.t nat) : Prop :=
  NoDup (StrMap.keys m)
  /\ forall ringId, In ringId (StrMap.keys m) ->
       StrMap.get ringId m
       = Some (indexOf ringId (StrMap.keys m) mod List.length RING_COLORS).
End Ui.

(** ** Sample CSV input *)

(** A stand-in for [parseFloat] in the examples: a non-empty string of
    decimal digits is read as that integer, anything else is NaN. *)
Definition sampleParseFloat (s : string) : option Q :=
  option_map inject_Z (sampleGetTime s).

Definition sampleCsv : string :=
  ("Transaction_ID, sender_id,receiver_id,AMOUNT,timestamp"
   ++ String Csv.lineFeed "T1, A ,B,100,0"
   ++ String Csv.lineFeed ""
   ++ String Csv.lineFeed "T2,B,C,n/a,1"
   ++ String Csv.lineFeed "T3,C,A,50"
   ++ String Csv.lineFeed "")%string.

(** * Properties *)

(** ** Folding with an invariant *)

(** Membership in a list extended by one element at its end. *)
Ltac in_snoc H := apply in_app_iff in H; destruct H as [H|[<-|[]]].

Lemma fold_left_inv {A B : Type} (P : B -> Prop) (f : B -> A -> B)
    (l : list A) (b : B) :
  P b -> (forall b x, In x l -> P b -> P (f b x)) -> P (fold_left f l b).
Proof.
  revert b. induction l as [|x l IH]; intros b Hb Hstep; simpl; auto.
  apply IH.
  - apply Hstep; simpl; auto.
  - intros b' y Hy. apply Hstep. simpl; auto.
Qed.

Lemma foldM_inv {A B : Type} (P : B -> Prop) (f : B -> A -> option B)
    (l : list A) (b r : B) :
  P b -> (forall b x b', In x l -> P b -> f b x = Some b' -> P b') ->
  foldM f l b = Some r -> P r.
Proof.
  revert b. induction l as [|x l IH]; intros b Hb Hstep; simpl.
  - intros [= <-]. exact Hb.
  - destruct (f b x) as [b'|] eqn:E; [|discriminate].
    apply IH.
    + eapply Hstep; eauto. simpl; auto.
    + intros b0 y b1 Hy. apply Hstep. simpl; auto.
Qed.

(** ** Sets *)

Module StrSetFacts.
Import StrSet.

Lemma set_has_In x s : has x s = true <-> In x s.
Proof.
  unfold has. rewrite existsb_exists. split.
  - intros [y [Hy E]]. apply String.eqb_eq in E. now subst.
  - intros H. exists x. split; auto. apply String.eqb_refl.
Qed.

Lemma has_false x s : has x s = false <-> ~ In x s.
Proof.
  rewrite <- set_has_In. destruct (has x s); split; congruence.
Qed.

Lemma add_In x y s : In y (add x s) <-> y = x \/ In y s.
Proof.
  unfold add. destruct (has x s) eqn:E.
  - apply set_has_In in E. split; auto. intros [->|H]; auto.
  - rewrite in_app_iff. simpl. intuition.
Qed.

Lemma add_NoDup x s : NoDup s -> NoDup (add x s).
Proof.
  unfold add. destruct (has x s) eqn:E; auto.
  apply has_false in E. intros H.
  apply NoDup_rev in H.
  rewrite <- (rev_involutive (s ++ [x])). apply NoDup_rev.
  rewrite rev_app_distr. simpl. constructor; auto.
  now rewrite <- in_rev.
Qed.

Lemma add_not_nil x s : add x s <> [].
Proof.
  intros E. assert (H : In x (add x s)) by (apply add_In; auto).
  rewrite E in H. destruct H.
Qed.

Lemma ofList_acc_In l : forall s x,
  In x (fold_left (fun s x => add x s) l s) <-> In x s \/ In x l.
Proof.
  induction l as [|y l IH]; intros s x; simpl.
  - intuition.
  - rewrite IH, add_In. intuition.
Qed.

Lemma ofList_In l x : In x (ofList l) <-> In x l.
Proof. unfold ofList. rewrite ofList_acc_In. simpl. intuition. Qed.

Lemma ofList_NoDup l : NoDup (ofList l).
Proof.
  unfold ofList. apply fold_left_inv.
  - constructor.
  - intros. now apply add_NoDup.
Qed.
End StrSetFacts.

(** ** Maps *)

Module StrMapFacts.
Import StrMap.

Section Facts.
Context {V : Type}.
Implicit Types (m : StrMap.t V) (k : string) (v : V).

Lemma get_set k k' v m :
  get k (set k' v m) = if String.eqb k k' then Some v else get k m.
Proof.
  induction m as [|[k0 v0] m IH]; simpl.
  - reflexivity.
  - destruct (String.eqb k' k0) eqn:E0; simpl.
    + apply String.eqb_eq in E0. subst k0.
      destruct (String.eqb k k'); reflexivity.
    + destruct (String.eqb k k0) eqn:E1.
      * apply String.eqb_eq in E1. subst k0.
        rewrite String.eqb_sym, E0. reflexivity.
      * exact IH.
Qed.

Lemma get_update k k' d (f : V -> V) m :
  get k (update k' d f m) =
  if String.eqb k k'
  then Some (f (match get k' m with Some v => v | None => d end))
  else get k m.
Proof.
  unfold update. destruct (get k' m); apply get_set.
Qed.

Lemma get_In k v m : get k m = Some v -> In (k, v) m.
Proof.
  induction m as [|[k0 v0] m IH]; simpl; [discriminate|].
  destruct (String.eqb k k0) eqn:E.
  - apply String.eqb_eq in E. intros [= ->]. subst. auto.
  - auto.
Qed.

Lemma get_None k m : get k m = None <-> ~ In k (keys m).
Proof.
  unfold keys.
  induction m as [|[k0 v0] m IH]; simpl; [intuition|].
  destruct (String.eqb k k0) eqn:E.
  - apply String.eqb_eq in E. subst. split; [discriminate|].
    intros H. exfalso. auto.
  - apply String.eqb_neq in E. rewrite IH. intuition.
Qed.

Lemma get_Some_key k v m : get k m = Some v -> In k (keys m).
Proof.
  intros H. apply get_In in H. unfold keys.
  change k with (fst (k, v)). now apply in_map.
Qed.


Lemma In_get k v m : NoDup (keys m) -> In (k, v) m -> get k m = Some v.
Proof.
  unfold keys.
  induction m as [|[k0 v0] m IH]; simpl; [intros _ []|].
  intros Hnd [E|H].
  - injection E as -> ->. now rewrite String.eqb_refl.
  - inversion Hnd; subst.
    destruct (String.eqb k k0) eqn:E.
    + apply String.eqb_eq in E. subst. exfalso. apply H2.
      change k0 with (fst (k0, v)). now apply in_map.
    + auto.
Qed.

Lemma keys_set k v m :
  keys (set k v m) = if has k m then keys m else keys m ++ [k].
Proof.
  unfold has, keys.
  induction m as [|[k0 v0] m IH]; simpl; [reflexivity|].
  destruct (String.eqb k k0) eqn:E; simpl; [reflexivity|].
  rewrite IH. destruct (get k m); reflexivity.
Qed.

Lemma map_has_In k m : has k m = true <-> In k (keys m).
Proof.
  unfold has. destruct (get k m) eqn:E.
  - split; auto. intros _. eapply get_Some_key; eauto.
  - apply get_None in E. split; [discriminate|contradiction].
Qed.

Lemma keys_set_In k k' v m :
  In k (keys (set k' v m)) <-> k = k' \/ In k (keys m).
Proof.
  rewrite keys_set. destruct (has k' m) eqn:E.
  - apply map_has_In in E. split; auto. intros [->|]; auto.
  - rewrite in_app_iff. simpl. intuition.
Qed.

Lemma keys_update_In k k' d (f : V -> V) m :
  In k (keys (update k' d f m)) <-> k = k' \/ In k (keys m).
Proof. unfold update. destruct (get k' m); apply keys_set_In. Qed.

Lemma keys_set_NoDup k v m : NoDup (keys m) -> NoDup (keys (set k v m)).
Proof.
  rewrite keys_set. destruct (has k m) eqn:E; auto.
  intros H. assert (Hk : ~ In k (keys m)).
  { rewrite <- map_has_In. congruence. }
  apply NoDup_rev in H.
  rewrite <- (rev_involutive (keys m ++ [k])). apply NoDup_rev.
  rewrite rev_app_distr. simpl. constructor; auto.
  now rewrite <- in_rev.
Qed.

Lemma keys_update_NoDup k d (f : V -> V) m :
  NoDup (keys m) -> NoDup (keys (update k d f m)).
Proof. unfold update. destruct (get k m); apply keys_set_NoDup. Qed.
End Facts.
End StrMapFacts.

(** ** Ring assembly: what the member loops change *)

Lemma Extends_refl st : Extends st st.
Proof. constructor; auto. Qed.

Lemma Extends_trans st1 st2 st3 :
  Extends st1 st2 -> Extends st2 st3 -> Extends st1 st3.
Proof.
  intros [] []. constructor; try congruence; auto.
Qed.

Lemma update_add_nonempty (a k x : string) (m : StrMap.t StrSet.t) :
  (exists s, StrMap.get a m = Some s /\ s <> []) ->
  exists s, StrMap.get a (StrMap.update k [] (StrSet.add x) m) = Some s
            /\ s <> [].
Proof.
  intros [s [Hs Hne]]. rewrite StrMapFacts.get_update.
  destruct (String.eqb a k) eqn:E.
  - eexists. split; [reflexivity|]. apply StrSetFacts.add_not_nil.
  - eauto.
Qed.

Lemma update_add_self (k x : string) (m : StrMap.t StrSet.t) :
  exists s, StrMap.get k (StrMap.update k [] (StrSet.add x) m) = Some s
            /\ In x s.
Proof.
  rewrite StrMapFacts.get_update, String.eqb_refl.
  eexists. split; [reflexivity|]. apply StrSetFacts.add_In. auto.
Qed.

Lemma addPattern_Extends a p st : Extends st (addPattern a p st).
Proof.
  constructor; simpl; auto.
  - intros b [Hr Hp]. split; simpl; auto.
    now apply update_add_nonempty.
  - apply StrMapFacts.keys_update_NoDup.
Qed.

Lemma addRing_Extends a r st : Extends st (addRing a r st).
Proof.
  constructor; simpl; auto.
  intros b [Hr Hp]. split; simpl; auto.
  now apply update_add_nonempty.
Qed.

Lemma countCycleMember_Extends a st : Extends st (countCycleMember a st).
Proof.
  constructor; simpl; auto.
  intros b Hb. apply StrSetFacts.add_In. auto.
Qed.

Lemma tagged_hasEntry a p r st : hasEntry a (addRing a r (addPattern a p st)).
Proof.
  split; simpl.
  - destruct (update_add_self a r (accountRings st)) as [s [Hs Hin]].
    exists s. split; auto. intros ->. destruct Hin.
  - destruct (update_add_self a p (accountPatterns st)) as [s [Hs Hin]].
    exists s. split; auto. intros ->. destruct Hin.
Qed.

(** A member loop whose body tags the account with a pattern and a ring and
    then does [extra] leaves every member with an entry. *)
Lemma member_loop (p r : string) (extra : string -> RingState -> RingState)
    (Hextra : forall a st, Extends st (extra a st)) (l : list string) :
  forall st,
    let st' :=
      fold_left (fun st a => extra a (addRing a r (addPattern a p st))) l st in
    Extends st st' /\ forall a, In a l -> hasEntry a st'.
Proof.
  induction l as [|x l IH]; intros st; simpl.
  - split; [apply Extends_refl|intros a []].
  - specialize (IH (extra x (addRing x r (addPattern x p st)))).
    simpl in IH. destruct IH as [Hext Hmem].
    assert (Hstep : Extends st (extra x (addRing x r (addPattern x p st)))).
    { eapply Extends_trans; [apply addPattern_Extends|].
      eapply Extends_trans; [apply addRing_Extends|]. apply Hextra. }
    split.
    + eapply Extends_trans; eauto.
    + intros a [<-|Ha]; auto.
      apply (ext_entry _ _ Hext).
      apply (ext_entry _ _ (Hextra _ _)). apply tagged_hasEntry.
Qed.

Lemma cycle_member_loop_nodes (p r : string) (l : list string) :
  forall st a, In a l ->
    In a (cycleNodes
            (fold_left
               (fun st a => countCycleMember a (addRing a r (addPattern a p st)))
               l st)).
Proof.
  induction l as [|x l IH]; intros st a; simpl; [intros []|].
  intros [<-|Ha]; auto.
  pose proof (member_loop p r countCycleMember countCycleMember_Extends l
                (countCycleMember x (addRing x r (addPattern x p st)))) as H.
  simpl in H. destruct H as [Hext _].
  apply (ext_cycleNodes _ _ Hext). simpl. apply StrSetFacts.add_In. auto.
Qed.

(** ** Ring assembly: one accepted or rejected candidate *)

Lemma acceptCycle_eq st cycle :
  acceptCycle st cycle =
  acceptCandidate cycle "cycle"
    ("cycle_length_" ++ stringOfNat (List.length cycle))%string
    countCycleMember
    (round1 (Qmin (70 + QofNat (List.length cycle) * 5)%Q 100)) st.
Proof. reflexivity. Qed.

Lemma acceptHub_eq patternType st hubId data :
  acceptHub patternType st (hubId, data) =
  acceptCandidate (hubId :: counterparties data) patternType patternType
    (fun _ st => st)
    (round1
       (Qmin (60 + (if temporal data then 25 else 10)
              + QofNat (List.length (counterparties data)) * (1 # 2))%Q 100))
    st.
Proof. reflexivity. Qed.

Lemma acceptChain_eq st chain :
  acceptChain st chain =
  acceptCandidate chain "shell_network" "shell_network" (fun _ st => st)
    (round1 (Qmin (50 + QofNat (List.length chain) * 8)%Q 100)) st.
Proof. reflexivity. Qed.

Section RingInvariant.
(** Where an emitted ring may come from. *)
Variable Origin : list string -> string -> Q -> Prop.

Local Abbreviation RingInv := (RingInv Origin).

Lemma RingInv_initial : RingInv initialRingState.
Proof.
  constructor; simpl; auto; try (intros; contradiction); constructor.
Qed.

Lemma acceptCandidate_inv members patternType label extra risk st :
  (forall a st, Extends st (extra a st)) ->
  (patternType = "cycle" -> extra = countCycleMember) ->
  Origin members patternType risk ->
  RingInv st ->
  RingInv (acceptCandidate members patternType label extra risk st).
Proof.
  intros Hextra Hcyc Horigin Hinv. unfold acceptCandidate.
  destruct (StrSet.has _ (ringDeduplicationSet st)) eqn:Eseen; auto.
  apply StrSetFacts.has_false in Eseen.
  set (key := makeRingDeduplicationKey members patternType) in *.
  set (rid := ringIdOf (ringCounter st)).
  set (st1 := snd (nextRingId (markSeen key st))).
  pose proof (member_loop label rid extra Hextra members st1) as Hloop.
  simpl in Hloop. destruct Hloop as [Hext Hmem].
  set (st2 := fold_left _ members st1) in *.
  assert (Hst1 : forall a, hasEntry a st -> hasEntry a st1) by auto.
  destruct Hinv as [Hc Hids Hor Hm Hcy Hk Hs Hd].
  destruct Hext as [Er Ec Es Ee En Ek].
  change (fraudRings st1) with (fraudRings st) in Er.
  change (ringCounter st1) with (S (ringCounter st)) in Ec.
  change (ringDeduplicationSet st1)
    with (StrSet.add key (ringDeduplicationSet st)) in Es.
  change (cycleNodes st1) with (cycleNodes st) in En.
  change (accountPatterns st1) with (accountPatterns st) in Ek.
  constructor; simpl; rewrite ?Er, ?Ec, ?Es.
  - rewrite length_app. simpl. rewrite Hc. lia.
  - rewrite length_app, map_app, Hids. simpl.
    rewrite Nat.add_1_r, seq_S, map_app. simpl.
    unfold rid. now rewrite Hc.
  - intros ring Hin. in_snoc Hin; simpl; auto.
  - intros ring a Hin Ha. in_snoc Hin.
    + specialize (Hm ring a Hin Ha).
      destruct (Ee a (Hst1 a Hm)). split; auto.
    + simpl in Ha. destruct (Hmem a Ha). split; auto.
  - intros ring a Hin Hpt Ha. in_snoc Hin.
    + apply En. eauto.
    + simpl in Hpt, Ha. unfold st2. rewrite (Hcyc Hpt).
      now apply cycle_member_loop_nodes.
  - apply Ek. exact Hk.
  - intros ring Hin. apply StrSetFacts.add_In.
    in_snoc Hin; auto.
  - rewrite map_app. simpl.
    apply NoDup_rev in Hd.
    rewrite <- (rev_involutive (_ ++ _)). apply NoDup_rev.
    rewrite rev_app_distr. simpl. constructor; auto.
    rewrite <- in_rev. intros Hin. apply in_map_iff in Hin.
    destruct Hin as [ring [Ekey Hin]]. apply Eseen.
    change key
      with (ringKey (mkFraudRing rid members patternType risk)).
    rewrite <- Ekey. auto.
Qed.
End RingInvariant.

(** ** Ring assembly: the whole sequence of loops *)

Lemma id_Extends : forall (a : string) st, Extends st ((fun _ st => st) a st).
Proof. intros. apply Extends_refl. Qed.

Section Assembly.
Variable cycles : list (list string).
Variable fanInAccounts fanOutAccounts : StrMap.t Hub.
Variable chains : list (list string).

Let Origin := RingOrigin cycles fanInAccounts fanOutAccounts chains.

Lemma acceptCycle_inv st cycle :
  In cycle cycles -> RingInv Origin st -> RingInv Origin (acceptCycle st cycle).
Proof.
  intros Hin Hinv. rewrite acceptCycle_eq.
  apply acceptCandidate_inv; auto.
  - apply countCycleMember_Extends.
  - now apply origin_cycle.
Qed.

Lemma acceptFanIn_inv st entry :
  In entry fanInAccounts -> RingInv Origin st ->
  RingInv Origin (acceptHub "fan_in" st entry).
Proof.
  destruct entry as [hubId data]. intros Hin Hinv. rewrite acceptHub_eq.
  apply acceptCandidate_inv; auto.
  - apply id_Extends.
  - discriminate.
  - now apply origin_fan_in.
Qed.

Lemma acceptFanOut_inv st entry :
  In entry fanOutAccounts -> RingInv Origin st ->
  RingInv Origin (acceptHub "fan_out" st entry).
Proof.
  destruct entry as [hubId data]. intros Hin Hinv. rewrite acceptHub_eq.
  apply acceptCandidate_inv; auto.
  - apply id_Extends.
  - discriminate.
  - now apply origin_fan_out.
Qed.

Lemma acceptChain_inv st chain :
  In chain chains -> RingInv Origin st -> RingInv Origin (acceptChain st chain).
Proof.
  intros Hin Hinv. rewrite acceptChain_eq.
  apply acceptCandidate_inv; auto.
  - apply id_Extends.
  - discriminate.
  - now apply origin_chain.
Qed.

Lemma assembleCyclesAndHubs_inv :
  RingInv Origin (assembleCyclesAndHubs cycles fanInAccounts fanOutAccounts).
Proof.
  unfold assembleCyclesAndHubs.
  apply fold_left_inv; [|intros; now apply acceptFanOut_inv].
  apply fold_left_inv; [|intros; now apply acceptFanIn_inv].
  apply fold_left_inv; [|intros; now apply acceptCycle_inv].
  apply RingInv_initial.
Qed.

Lemma assemble_inv :
  RingInv Origin
    (fold_left acceptChain chains
       (assembleCyclesAndHubs cycles fanInAccounts fanOutAccounts)).
Proof.
  apply fold_left_inv; [|intros; now apply acceptChain_inv].
  apply assembleCyclesAndHubs_inv.
Qed.
End Assembly.

(** The shell loop leaves the cycle nodes alone. *)
Lemma plain_member_loop_cycleNodes p r l : forall st,
  cycleNodes (fold_left (fun st a => addRing a r (addPattern a p st)) l st)
  = cycleNodes st.
Proof.
  induction l as [|x l IH]; intros st; simpl; auto.
  now rewrite IH.
Qed.

Lemma acceptChain_cycleNodes st chain :
  cycleNodes (acceptChain st chain) = cycleNodes st.
Proof.
  rewrite acceptChain_eq. unfold acceptCandidate.
  destruct (StrSet.has _ _); auto.
  simpl. now rewrite plain_member_loop_cycleNodes.
Qed.

Lemma acceptChains_cycleNodes chains : forall st,
  cycleNodes (fold_left acceptChain chains st) = cycleNodes st.
Proof.
  induction chains as [|c l IH]; intros st; simpl; auto.
  now rewrite IH, acceptChain_cycleNodes.
Qed.

(** ** Ring identifiers *)

Lemma uint_of_padded k s d :
  NilEmpty.uint_of_string s = Some d ->
  exists d', NilEmpty.uint_of_string (repeatString "0" k ++ s) = Some d'
             /\ Nat.of_uint d' = Nat.of_uint d.
Proof.
  intros Hs. induction k as [|k [d' [Hd' E]]]; simpl.
  - eauto.
  - rewrite Hd'. simpl. exists (Decimal.D0 d'). split; auto.
Qed.

Lemma ringSuffix_ringIdOf n : ringSuffix (ringIdOf n) = Some n.
Proof.
  change (ringSuffix (ringIdOf n))
    with (option_map Nat.of_uint
            (NilEmpty.uint_of_string (padStart0 3 (stringOfNat n)))).
  unfold padStart0, stringOfNat.
  destruct (uint_of_padded
              (3 - String.length (NilEmpty.string_of_uint (Nat.to_uint n)))
              _ _ (NilEmpty.usu (Nat.to_uint n))) as [d' [-> E]].
  simpl. now rewrite E, DecimalNat.Unsigned.of_to.
Qed.

Lemma ringIdOf_inj n m : ringIdOf n = ringIdOf m -> n = m.
Proof.
  intros E. apply (f_equal ringSuffix) in E.
  rewrite !ringSuffix_ringIdOf in E. congruence.
Qed.

(** A rejected candidate changes nothing. *)
Lemma acceptCandidate_rejected members patternType label extra risk st :
  StrSet.has (makeRingDeduplicationKey members patternType)
    (ringDeduplicationSet st) = true ->
  acceptCandidate members patternType label extra risk st = st.
Proof. unfold acceptCandidate. now intros ->. Qed.

(** An accepted candidate emits one ring, named after the counter, and
    advances the counter by one. *)
Lemma acceptCandidate_accepted members patternType label extra risk st :
  (forall a st, Extends st (extra a st)) ->
  StrSet.has (makeRingDeduplicationKey members patternType)
    (ringDeduplicationSet st) = false ->
  let st' := acceptCandidate members patternType label extra risk st in
  fraudRings st' =
    fraudRings st
    ++ [mkFraudRing (ringIdOf (ringCounter st)) members patternType risk]
  /\ ringCounter st' = S (ringCounter st).
Proof.
  intros Hextra Hseen. unfold acceptCandidate. rewrite Hseen. cbv zeta.
  destruct (member_loop label (ringIdOf (ringCounter st)) extra Hextra members
              (snd (nextRingId
                      (markSeen (makeRingDeduplicationKey members patternType)
                         st)))) as [[Er Ec _ _ _ _] _].
  unfold pushRing. cbn [fraudRings ringCounter]. rewrite Er, Ec. auto.
Qed.

(** ** The stages of one analysis *)

Section StagesFacts.
Variable getTime : string -> option Z.
Variable transactions : list Transaction.

Local Abbreviation filteredOf := (filteredOf transactions).
Local Abbreviation adjOf := (adjOf transactions).
Local Abbreviation statsOf := (statsOf getTime transactions).
Local Abbreviation cyclesOf := (cyclesOf transactions).
Local Abbreviation fanInOf := (fanInOf getTime transactions).
Local Abbreviation fanOutOf := (fanOutOf getTime transactions).
Local Abbreviation hubStateOf := (hubStateOf getTime transactions).
Local Abbreviation chainsOf := (chainsOf getTime transactions).
Local Abbreviation finalStateOf := (finalStateOf getTime transactions).
Local Abbreviation suspiciousOf := (suspiciousOf getTime transactions).

Lemma analyze_cases r :
  analyzeTransactions getTime transactions = Some r ->
  (filteredOf = []
   /\ r = emptyResult transactions (getAllAccounts transactions)
            (detectLegitimateAccounts transactions))
  \/ (filteredOf <> []
      /\ exists chains,
          chainsOf = Some chains
          /\ fraud_rings r = fraudRings (finalStateOf chains)
          /\ suspicious_accounts r = suspiciousOf chains
          /\ nodes r =
             map (buildNode (finalStateOf chains)
                    (computeAccountStats getTime transactions)
                    (suspiciousOf chains)
                    (detectLegitimateAccounts transactions))
               (getAllAccounts transactions)).
Proof.
  unfold analyzeTransactions. fold filteredOf.
  destruct filteredOf as [|t l] eqn:Ef.
  - simpl. intros [= <-]. left. auto.
  - cbn [List.length Nat.eqb]. unfold detectSmurfing.
    rewrite <- Ef.
    fold adjOf statsOf cyclesOf fanInOf fanOutOf hubStateOf chainsOf.
    destruct chainsOf as [chains|] eqn:Ec; [|discriminate].
    intros [= <-]. right. split; [rewrite Ef; discriminate|].
    exists chains. repeat split.
Qed.

Lemma finalState_inv chains :
  chainsOf = Some chains ->
  RingInv (RingOrigin cyclesOf fanInOf fanOutOf chains)
    (finalStateOf chains).
Proof. intros _. apply assemble_inv. Qed.
End StagesFacts.

Lemma ringIdOf_three_digits n :
  n < 1000 -> ringIdOf n = ("RING_" ++ threeDigits n)%string.
Proof.
  intros Hn.
  assert (H : forallb
                (fun i => String.eqb (ringIdOf i)
                            ("RING_" ++ threeDigits i)%string)
                (seq 0 1000) = true) by (vm_compute; reflexivity).
  rewrite forallb_forall in H. apply String.eqb_eq, H, in_seq. lia.
Qed.

(** C5: the emitted ring identifiers are [RING_001], [RING_002], ... in
    emission order, their integer suffixes are exactly 1 .. number of rings,
    up to 999 rings they are [RING_] followed by three digits, and a
    candidate whose deduplication key was seen leaves the state (ring list
    and counter included) unchanged in each of the four loops. *)
Theorem ring_ids_contiguous (getTime : string -> option Z)
    (transactions : list Transaction) (r : AnalysisResult) :
  analyzeTransactions getTime transactions = Some r ->
  let n := List.length (fraud_rings r) in
  map ring_id (fraud_rings r) = map ringIdOf (seq 1 n)
  /\ map ringSuffix (map ring_id (fraud_rings r)) = map Some (seq 1 n)
  /\ (n <= 999 ->
      map ring_id (fraud_rings r)
      = map (fun i => ("RING_" ++ threeDigits i)%string) (seq 1 n))
  /\ (forall st cycle,
        StrSet.has (makeRingDeduplicationKey cycle "cycle")
          (ringDeduplicationSet st) = true ->
        acceptCycle st cycle = st)
  /\ (forall patternType st hubId data,
        StrSet.has
          (makeRingDeduplicationKey (hubId :: counterparties data) patternType)
          (ringDeduplicationSet st) = true ->
        acceptHub patternType st (hubId, data) = st)
  /\ (forall st chain,
        StrSet.has (makeRingDeduplicationKey chain "shell_network")
          (ringDeduplicationSet st) = true ->
        acceptChain st chain = st).
Proof.
  intros Hr n.
  assert (Hids : map ring_id (fraud_rings r) = map ringIdOf (seq 1 n)).
  { destruct (analyze_cases _ _ _ Hr) as [[_ ->]|[_ [chains [Hc [Hf _]]]]].
    - reflexivity.
    - subst n. rewrite Hf.
      apply (inv_ids _ _ (finalState_inv getTime transactions chains Hc)). }
  split; [exact Hids|]. split; [|split; [|split; [|split]]].
  - rewrite Hids, map_map. apply map_ext. apply ringSuffix_ringIdOf.
  - intros Hn. rewrite Hids. apply map_ext_in.
    intros i Hi. apply in_seq in Hi. apply ringIdOf_three_digits. lia.
  - intros st cycle H. rewrite acceptCycle_eq.
    now apply acceptCandidate_rejected.
  - intros pt st hubId data H. rewrite acceptHub_eq.
    now apply acceptCandidate_rejected.
  - intros st chain H. rewrite acceptChain_eq.
    now apply acceptCandidate_rejected.
Qed.

(** ** Number facts *)

Lemma Qltb_lt x y : Qltb x y = true <-> (x < y)%Q.
Proof.
  unfold Qltb. rewrite negb_true_iff. split.
  - intros H. apply Qnot_le_lt. intros Hle.
    apply Qle_bool_iff in Hle. congruence.
  - intros H. destruct (Qle_bool y x) eqn:E; auto.
    apply Qle_bool_iff in E. exfalso. eapply Qlt_not_le; eauto.
Qed.

Lemma Qgtb_gt x y : Qgtb x y = true <-> (y < x)%Q.
Proof. apply Qltb_lt. Qed.

Lemma Qmin_spec x y :
  ((x <= y)%Q /\ Qmin x y = x) \/ ((y < x)%Q /\ Qmin x y = y).
Proof.
  unfold Qmin. destruct (Qle_bool x y) eqn:E.
  - left. split; auto. now apply Qle_bool_iff.
  - right. split; auto. apply Qltb_lt. unfold Qltb. now rewrite E.
Qed.

Lemma Qmax_spec x y :
  ((x <= y)%Q /\ Qmax x y = y) \/ ((y < x)%Q /\ Qmax x y = x).
Proof.
  unfold Qmax. destruct (Qle_bool x y) eqn:E.
  - left. split; auto. now apply Qle_bool_iff.
  - right. split; auto. apply Qltb_lt. unfold Qltb. now rewrite E.
Qed.

Lemma round1_nonneg x : (0 <= x)%Q -> (0 <= round1 x)%Q.
Proof.
  intros Hx. unfold round1, Math_round.
  assert (H : (0 <= Qfloor (x * 10 + (1 # 2)))%Z).
  { change 0%Z with (Qfloor (1 # 2)). apply Qfloor_resp_le. lra. }
  assert (H' : (0 <= inject_Z (Qfloor (x * 10 + (1 # 2))))%Q).
  { change 0%Q with (inject_Z 0). now rewrite <- Zle_Qle. }
  unfold Qdiv. apply Qmult_le_0_compat; auto. discriminate.
Qed.

Lemma round1_le_100 x : (x <= 100)%Q -> (round1 x <= 100)%Q.
Proof.
  intros Hx. unfold round1, Math_round.
  assert (H : (Qfloor (x * 10 + (1 # 2)) <= 1000)%Z).
  { change 1000%Z with (Qfloor (1000 + (1 # 2))). apply Qfloor_resp_le. lra. }
  assert (H' : (inject_Z (Qfloor (x * 10 + (1 # 2))) <= 1000)%Q).
  { change 1000%Q with (inject_Z 1000). now rewrite <- Zle_Qle. }
  apply Qle_shift_div_r; [reflexivity|]. lra.
Qed.

(** A number with one decimal is its own rounding. *)
Lemma round1_exact (z : Z) : (round1 (inject_Z z / 10) == inject_Z z / 10)%Q.
Proof.
  unfold round1, Math_round.
  assert (E : Qfloor (inject_Z z / 10 * 10 + (1 # 2)) = z).
  { assert (H1 : (inject_Z z / 10 * 10 + (1 # 2) == inject_Z z + (1 # 2))%Q)
      by (field).
    rewrite H1.
    pose proof (Qfloor_le (inject_Z z + (1 # 2))) as Hle.
    pose proof (Qlt_floor (inject_Z z + (1 # 2))) as Hlt.
    set (f := Qfloor (inject_Z z + (1 # 2))) in *.
    assert (Hz1 : (inject_Z f < inject_Z (z + 1))%Q).
    { rewrite inject_Z_plus. change (inject_Z 1) with 1%Q. lra. }
    assert (Hz2 : (inject_Z z < inject_Z (f + 1))%Q).
    { rewrite inject_Z_plus in *. change (inject_Z 1) with 1%Q in *. lra. }
    rewrite <- Zlt_Qlt in Hz1, Hz2. lia. }
  rewrite E. reflexivity.
Qed.

Lemma orZero_eq x : (orZero x == x)%Q.
Proof.
  unfold orZero. destruct (Qeq_bool x 0) eqn:E; [|reflexivity].
  apply Qeq_bool_iff in E. now rewrite E.
Qed.

Lemma QofNat_nonneg n : (0 <= QofNat n)%Q.
Proof.
  unfold QofNat. change 0%Q with (inject_Z 0). rewrite <- Zle_Qle. lia.
Qed.

(** ** Grouping and hub detection *)

Section Grouping.
Variable getTime : string -> option Z.
Variable hub party : Transaction -> string.

Local Abbreviation txsOf := (txsOf hub).
Local Abbreviation hubOf := (hubOf getTime party).

Lemma groupBy_acc transactions : forall (m : StrMap.t (list Transaction)) h,
  StrMap.get h
    (fold_left
       (fun m tx => StrMap.update (hub tx) [] (fun l => l ++ [tx]) m)
       transactions m)
  = match StrMap.get h m with
    | Some l => Some (l ++ txsOf h transactions)
    | None => match txsOf h transactions with
              | [] => None
              | l => Some l
              end
    end.
Proof.
  induction transactions as [|t l IH]; intros m h; simpl.
  - destruct (StrMap.get h m); [now rewrite app_nil_r|reflexivity].
  - rewrite IH, StrMapFacts.get_update.
    rewrite (String.eqb_sym (hub t) h).
    destruct (String.eqb h (hub t)) eqn:E.
    + apply String.eqb_eq in E. subst h.
      destruct (StrMap.get (hub t) m); simpl.
      * now rewrite <- app_assoc.
      * reflexivity.
    + destruct (StrMap.get h m); reflexivity.
Qed.

Lemma groupBy_get transactions h :
  StrMap.get h (groupBy hub transactions)
  = match txsOf h transactions with
    | [] => None
    | l => Some l
    end.
Proof. unfold groupBy. now rewrite groupBy_acc. Qed.

Lemma groupBy_NoDup transactions :
  NoDup (StrMap.keys (groupBy hub transactions)).
Proof.
  unfold groupBy. apply fold_left_inv.
  - constructor.
  - intros. now apply StrMapFacts.keys_update_NoDup.
Qed.

(** Filtering an insertion-ordered map into another one. *)
Lemma select_get {V W : Type} (c : V -> bool) (g : V -> W)
    (m : StrMap.t V) : forall (acc : StrMap.t W) h,
  NoDup (StrMap.keys m) ->
  StrMap.get h
    (fold_left
       (fun acc '(k, v) => if c v then StrMap.set k (g v) acc else acc)
       m acc)
  = match StrMap.get h m with
    | Some v => if c v then Some (g v) else StrMap.get h acc
    | None => StrMap.get h acc
    end.
Proof.
  induction m as [|[k v] m IH]; intros acc h Hnd; simpl; auto.
  inversion Hnd as [|? ? Hk Hnd']; subst.
  rewrite IH by exact Hnd'.
  destruct (String.eqb h k) eqn:E.
  - apply String.eqb_eq in E. subst h.
    apply StrMapFacts.get_None in Hk. unfold StrMap.keys in Hk.
    rewrite Hk. destruct (c v); auto.
    now rewrite StrMapFacts.get_set, String.eqb_refl.
  - destruct (StrMap.get h m) as [v'|]; auto;
      destruct (c v); auto;
      now rewrite StrMapFacts.get_set, E.
Qed.

Lemma select_NoDup {V W : Type} (c : V -> bool) (g : V -> W)
    (m : StrMap.t V) (acc : StrMap.t W) :
  NoDup (StrMap.keys acc) ->
  NoDup (StrMap.keys
           (fold_left
              (fun acc '(k, v) => if c v then StrMap.set k (g v) acc else acc)
              m acc)).
Proof.
  intros H. apply fold_left_inv; auto.
  intros b [k v] _ Hb. destruct (c v); auto.
  now apply StrMapFacts.keys_set_NoDup.
Qed.

Lemma detectFan_get transactions h :
  StrMap.get h (detectFan getTime hub party transactions)
  = if MIN_CONNECTIONS
         <=? StrSet.size (StrSet.ofList (map party (txsOf h transactions)))
    then Some (hubOf (txsOf h transactions))
    else None.
Proof.
  unfold detectFan.
  rewrite (select_get
             (fun txs => MIN_CONNECTIONS
                         <=? StrSet.size (StrSet.ofList (map party txs)))
             hubOf)
    by apply groupBy_NoDup.
  rewrite groupBy_get.
  destruct (txsOf h transactions) eqn:E; reflexivity.
Qed.

Lemma detectFan_NoDup transactions :
  NoDup (StrMap.keys (detectFan getTime hub party transactions)).
Proof.
  unfold detectFan.
  apply (select_NoDup
           (fun txs => MIN_CONNECTIONS
                       <=? StrSet.size (StrSet.ofList (map party txs)))
           hubOf).
  constructor.
Qed.

Lemma detectFan_In transactions h data :
  In (h, data) (detectFan getTime hub party transactions) <->
  (MIN_CONNECTIONS
     <= StrSet.size (StrSet.ofList (map party (txsOf h transactions)))
   /\ data = hubOf (txsOf h transactions)).
Proof.
  split.
  - intros Hin. apply StrMapFacts.In_get in Hin; [|apply detectFan_NoDup].
    rewrite detectFan_get in Hin.
    destruct (Nat.leb_spec MIN_CONNECTIONS
                (StrSet.size
                   (StrSet.ofList (map party (txsOf h transactions)))));
      [|discriminate].
    injection Hin as <-. auto.
  - intros [Hle ->]. apply StrMapFacts.get_In. rewrite detectFan_get.
    apply Nat.leb_le in Hle. now rewrite Hle.
Qed.
End Grouping.

(** ** Sorting facts *)

Section SortingFacts.
Context {A : Type} (le : A -> A -> bool).

Lemma insertSorted_perm x l : Permutation (insertSorted le x l) (x :: l).
Proof.
  induction l as [|y l IH]; simpl; auto.
  destruct (le x y); auto.
  eapply perm_trans; [apply perm_skip, IH|apply perm_swap].
Qed.

Lemma sortBy_perm l : Permutation (sortBy le l) l.
Proof.
  induction l as [|x l IH]; simpl; auto.
  eapply perm_trans; [apply insertSorted_perm|now apply perm_skip].
Qed.

Lemma sortBy_In l x : In x (sortBy le l) <-> In x l.
Proof.
  split; apply Permutation_in; [|apply Permutation_sym]; apply sortBy_perm.
Qed.
End SortingFacts.

(** ** Score ranges *)

Lemma Qmin_100_range x : (0 <= x)%Q -> (0 <= Qmin x 100 <= 100)%Q.
Proof. intros Hx. destruct (Qmin_spec x 100) as [[H ->]|[H ->]]; lra. Qed.

Lemma capped_round_range x :
  (0 <= x)%Q -> (0 <= round1 (Qmin x 100) <= 100)%Q.
Proof.
  intros Hx. destruct (Qmin_100_range x Hx).
  split; [now apply round1_nonneg|now apply round1_le_100].
Qed.

Lemma calculateSuspicionScore_range accountId patterns accountStats cycleCount
    isSmurfHub isShellNode temporalFlag :
  (0 <= calculateSuspicionScore accountId patterns accountStats cycleCount
          isSmurfHub isShellNode temporalFlag <= 100)%Q.
Proof.
  unfold calculateSuspicionScore. cbv zeta. apply capped_round_range.
  assert (Hc : (-1 <= Qmin (inject_Z (Z.of_nat cycleCount - 1)) 3)%Q).
  { assert (H : (inject_Z (-1) <= inject_Z (Z.of_nat cycleCount - 1))%Q)
      by (rewrite <- Zle_Qle; lia).
    change (inject_Z (-1)) with (-1)%Q in H.
    destruct (Qmin_spec (inject_Z (Z.of_nat cycleCount - 1)) 3)
      as [[_ ->]|[_ ->]]; lra. }
  destruct (existsb _ patterns), (StrSet.has "fan_in" patterns),
    (StrSet.has "fan_out" patterns), (StrSet.has "shell_network" patterns),
    temporalFlag, (flowBonus accountStats accountId); lra.
Qed.

Lemma cycleRisk_range members : (0 <= cycleRisk members <= 100)%Q.
Proof.
  apply capped_round_range. pose proof (QofNat_nonneg (List.length members)).
  lra.
Qed.

Lemma hubRisk_range data : (0 <= hubRisk data <= 100)%Q.
Proof.
  apply capped_round_range.
  pose proof (QofNat_nonneg (List.length (counterparties data))).
  destruct (temporal data); lra.
Qed.

Lemma chainRisk_range members : (0 <= chainRisk members <= 100)%Q.
Proof.
  apply capped_round_range. pose proof (QofNat_nonneg (List.length members)).
  lra.
Qed.

Lemma buildSuspiciousAccounts_In st accountStats fanInAccounts fanOutAccounts
    sa :
  In sa (buildSuspiciousAccounts st accountStats fanInAccounts fanOutAccounts)
  -> exists patterns rings cycleCount isSmurfHub isShellNode temporalFlag,
      In (account_id sa, patterns) (accountPatterns st)
      /\ StrMap.get (account_id sa) (accountRings st) = Some rings
      /\ rings <> []
      /\ detected_patterns sa = patterns
      /\ suspicion_score sa =
         calculateSuspicionScore (account_id sa) patterns accountStats
           cycleCount isSmurfHub isShellNode temporalFlag.
Proof.
  unfold buildSuspiciousAccounts.
  set (step := fun (suspiciousAccounts : list SuspiciousAccount)
                   '(accountId, patterns) => _).
  assert (G : forall l acc,
             (forall x, In x l -> In x (accountPatterns st)) ->
             In sa (fold_left step l acc) ->
             In sa acc \/
             exists patterns rings cycleCount isSmurfHub isShellNode
                    temporalFlag,
               In (account_id sa, patterns) (accountPatterns st)
               /\ StrMap.get (account_id sa) (accountRings st) = Some rings
               /\ rings <> []
               /\ detected_patterns sa = patterns
               /\ suspicion_score sa =
                  calculateSuspicionScore (account_id sa) patterns accountStats
                    cycleCount isSmurfHub isShellNode temporalFlag).
  { induction l as [|[a ps] l IH]; intros acc Hsub; simpl; auto.
    intros Hin. apply IH in Hin; [|intros; apply Hsub; simpl; auto].
    destruct Hin as [Hin|Hin]; auto.
    unfold step in Hin.
    destruct (StrMap.get a (accountRings st)) as [rings|] eqn:Er; auto.
    destruct (StrSet.size rings =? 0) eqn:Ez; auto.
    in_snoc Hin; auto.
    right. simpl. do 6 eexists. repeat split; eauto.
    - apply Hsub. simpl. auto.
    - intros ->. discriminate. }
  intros Hin. apply G in Hin; auto. destruct Hin as [[]|Hin]. exact Hin.
Qed.

Lemma Qmin_compat x x' y : (x == x')%Q -> (Qmin x y == Qmin x' y)%Q.
Proof.
  intros E. unfold Qmin. rewrite (Qleb_comp x x' E y y (Qeq_refl y)).
  destruct (Qle_bool x' y); [exact E|reflexivity].
Qed.

Lemma round1_compat x y : (x == y)%Q -> (round1 x == round1 y)%Q.
Proof.
  intros E. unfold round1, Math_round.
  assert (E' : (x * 10 + (1 # 2) == y * 10 + (1 # 2))%Q) by (rewrite E; reflexivity).
  now rewrite (Qfloor_comp _ _ E').
Qed.

Lemma capped_round_compat x y :
  (x == y)%Q -> (round1 (Qmin x 100) == round1 (Qmin y 100))%Q.
Proof. intros E. now apply round1_compat, Qmin_compat. Qed.

(** C7: every emitted ring carries the risk score of its pattern, capped at
    100 and rounded to one decimal -- 70 + 5 n for a cycle of n members,
    60 + (25 if the hub's temporal flag holds, else 10) + 0.5 k for a hub
    with k distinct counterparties, 50 + 8 n for a chain of n members -- and
    every risk score and suspicion score (of a suspicious account or of a
    node) lies between 0 and 100. *)
Theorem risk_scores_formula_and_range (getTime : string -> option Z)
    (transactions : list Transaction) (r : AnalysisResult) :
  analyzeTransactions getTime transactions = Some r ->
  (forall ring, In ring (fraud_rings r) ->
     let n := QofNat (List.length (member_accounts ring)) in
     (pattern_type ring = "cycle"
      /\ (risk_score ring == round1 (Qmin (70 + 5 * n) 100))%Q)
     \/ (pattern_type ring = "fan_in"
         /\ exists hubId,
             let incoming := txsOf receiver_id hubId transactions in
             let parties := StrSet.ofList (map sender_id incoming) in
             let flag := temporalCluster getTime sender_id incoming in
             member_accounts ring = hubId :: parties
             /\ (risk_score ring ==
                 round1 (Qmin (60 + (if flag then 25 else 10)
                               + (1 # 2) * QofNat (List.length parties)) 100))%Q)
     \/ (pattern_type ring = "fan_out"
         /\ exists hubId,
             let outgoing := txsOf sender_id hubId transactions in
             let parties := StrSet.ofList (map receiver_id outgoing) in
             let flag := temporalCluster getTime receiver_id outgoing in
             member_accounts ring = hubId :: parties
             /\ (risk_score ring ==
                 round1 (Qmin (60 + (if flag then 25 else 10)
                               + (1 # 2) * QofNat (List.length parties)) 100))%Q)
     \/ (pattern_type ring = "shell_network"
         /\ (risk_score ring == round1 (Qmin (50 + 8 * n) 100))%Q))
  /\ (forall ring, In ring (fraud_rings r) ->
        (0 <= risk_score ring <= 100)%Q)
  /\ (forall sa, In sa (suspicious_accounts r) ->
        (0 <= suspicion_score sa <= 100)%Q)
  /\ (forall node, In node (nodes r) ->
        (0 <= node_suspicion_score node <= 100)%Q).
Proof.
  intros Hr.
  destruct (analyze_cases _ _ _ Hr)
    as [[_ ->]|[_ [chains [Hc [Hf [Hs Hn]]]]]].
  { cbn [emptyResult fraud_rings suspicious_accounts nodes].
    split; [|split; [|split]]; try (intros ? []).
    intros node Hin. apply in_map_iff in Hin.
    destruct Hin as [a [<- _]]. simpl. lra. }
  pose proof (finalState_inv getTime transactions chains Hc) as Hinv.
  assert (Hsa : forall sa, In sa (suspiciousOf getTime transactions chains) ->
                  (0 <= suspicion_score sa <= 100)%Q).
  { intros sa Hin. unfold suspiciousOf, sortSuspicious in Hin.
    apply sortBy_In, buildSuspiciousAccounts_In in Hin.
    destruct Hin as (ps & rs & cc & b1 & b2 & b3 & _ & _ & _ & _ & ->).
    apply calculateSuspicionScore_range. }
  rewrite Hf, Hs, Hn. split; [|split; [|split]]; auto.
  - intros ring Hin n.
    destruct (inv_origin _ _ Hinv ring Hin) as [c _|h d Hd|h d Hd|c _].
    + left. split; auto. unfold cycleRisk. apply capped_round_compat.
      subst n. ring.
    + right; left. split; auto. exists h.
      apply detectFan_In in Hd. destruct Hd as [_ ->]. simpl.
      split; auto. unfold hubRisk. apply capped_round_compat. simpl. ring.
    + right; right; left. split; auto. exists h.
      apply detectFan_In in Hd. destruct Hd as [_ ->]. simpl.
      split; auto. unfold hubRisk. apply capped_round_compat. simpl. ring.
    + right; right; right. split; auto. unfold chainRisk.
      apply capped_round_compat. subst n. ring.
  - intros ring Hin.
    destruct (inv_origin _ _ Hinv ring Hin) as [c _|h d _|h d _|c _].
    + apply cycleRisk_range.
    + apply hubRisk_range.
    + apply hubRisk_range.
    + apply chainRisk_range.
  - intros node Hin. apply in_map_iff in Hin. destruct Hin as [a [<- _]].
    unfold buildNode. cbn [node_suspicion_score].
    destruct (find _ _) as [sa|] eqn:Efind; [|lra].
    apply find_some in Efind. destruct Efind as [Hin _].
    rewrite orZero_eq. auto.
Qed.

(** ** The adjacency index and the account universe *)

Lemma buildAdjacencyList_acc transactions : forall (adj : Adjacency) a,
  StrMap.get a
    (fold_left
       (fun adj tx =>
          StrMap.update (sender_id tx) []
            (fun senderMap =>
               StrMap.update (receiver_id tx) [] (fun l => l ++ [tx]) senderMap)
            adj)
       transactions adj)
  = let inner :=
      fold_left
        (fun m tx => StrMap.update (receiver_id tx) [] (fun l => l ++ [tx]) m)
        (txsOf sender_id a transactions) in
    match StrMap.get a adj with
    | Some senderMap => Some (inner senderMap)
    | None => match txsOf sender_id a transactions with
              | [] => None
              | _ => Some (inner [])
              end
    end.
Proof.
  induction transactions as [|t l IH]; intros adj a; simpl.
  - unfold StrMap.t.
    destruct (@StrMap.get (list (string * list Transaction)) a adj);
      reflexivity.
  - rewrite IH, StrMapFacts.get_update. simpl.
    rewrite (String.eqb_sym (sender_id t) a).
    unfold StrMap.t.
    destruct (String.eqb a (sender_id t)) eqn:E.
    + apply String.eqb_eq in E. subst a.
      destruct (@StrMap.get (list (string * list Transaction))
                  (sender_id t) adj); reflexivity.
    + destruct (@StrMap.get (list (string * list Transaction)) a adj);
        reflexivity.
Qed.

Lemma buildAdjacencyList_get transactions a :
  StrMap.get a (buildAdjacencyList transactions)
  = match txsOf sender_id a transactions with
    | [] => None
    | l => Some (groupBy receiver_id l)
    end.
Proof.
  unfold buildAdjacencyList. rewrite buildAdjacencyList_acc. simpl.
  destruct (txsOf sender_id a transactions); reflexivity.
Qed.

Lemma txsOf_In hub h transactions t :
  In t (txsOf hub h transactions) <-> In t transactions /\ hub t = h.
Proof.
  unfold txsOf. rewrite filter_In, String.eqb_eq. reflexivity.
Qed.

Lemma txsOf_nonempty hub h transactions :
  txsOf hub h transactions <> [] <-> exists t, In t transactions /\ hub t = h.
Proof.
  split.
  - destruct (txsOf hub h transactions) as [|t l] eqn:E; [congruence|].
    intros _. exists t. apply txsOf_In. rewrite E. simpl. auto.
  - intros [t Ht] E. apply txsOf_In in Ht. rewrite E in Ht. destruct Ht.
Qed.

Lemma adjacency_edge transactions a b :
  match StrMap.get a (buildAdjacencyList transactions) with
  | Some senderMap => StrMap.get b senderMap
  | None => None
  end
  = match edgeTxs a b transactions with
    | [] => None
    | l => Some l
    end.
Proof.
  rewrite buildAdjacencyList_get. unfold edgeTxs.
  destruct (txsOf sender_id a transactions) eqn:E.
  - reflexivity.
  - now rewrite groupBy_get.
Qed.

Lemma neighborsOf_In transactions a b :
  In b (neighborsOf (buildAdjacencyList transactions) a) <->
  exists t, In t transactions /\ sender_id t = a /\ receiver_id t = b.
Proof.
  unfold neighborsOf. pose proof (adjacency_edge transactions a b) as H.
  destruct (StrMap.get a (buildAdjacencyList transactions)) as [m|].
  - rewrite <- StrMapFacts.map_has_In. unfold StrMap.has. rewrite H.
    assert (Hne : edgeTxs a b transactions <> [] <->
                  exists t, In t transactions /\ sender_id t = a
                            /\ receiver_id t = b).
    { unfold edgeTxs. rewrite txsOf_nonempty. split.
      - intros [t [Ht Hb]]. apply txsOf_In in Ht. exists t. tauto.
      - intros [t [Ht [Ha Hb]]]. exists t. split; auto.
        apply txsOf_In. auto. }
    rewrite <- Hne. destruct (edgeTxs a b transactions); split;
      congruence.
  - split; [intros []|].
    intros [t [Ht [Ha Hb]]].
    assert (Hne : edgeTxs a b transactions <> []).
    { unfold edgeTxs. apply txsOf_nonempty. exists t. split; auto.
      apply txsOf_In. auto. }
    destruct (edgeTxs a b transactions); congruence.
Qed.

Lemma adjacency_keys_In transactions a :
  In a (StrMap.keys (buildAdjacencyList transactions)) <->
  exists t, In t transactions /\ sender_id t = a.
Proof.
  rewrite <- StrMapFacts.map_has_In, <- txsOf_nonempty. unfold StrMap.has.
  rewrite buildAdjacencyList_get.
  destruct (txsOf sender_id a transactions); split; congruence.
Qed.

Lemma getAllAccounts_In transactions a :
  In a (getAllAccounts transactions) <->
  exists t, In t transactions /\ (sender_id t = a \/ receiver_id t = a).
Proof.
  unfold getAllAccounts.
  assert (G : forall l acc,
             In a (fold_left
                     (fun accounts tx =>
                        StrSet.add (receiver_id tx)
                          (StrSet.add (sender_id tx) accounts)) l acc)
             <-> In a acc
                 \/ exists t, In t l /\ (sender_id t = a \/ receiver_id t = a)).
  { induction l as [|t l IH]; intros acc; simpl.
    - split; auto. intros [H|[t [[] _]]]; auto.
    - rewrite IH, !StrSetFacts.add_In. split.
      + intros [[->|[->|H]]|[t' [Ht' H]]]; eauto 6.
      + intros [H|[t' [[<-|Ht'] H]]]; eauto 6.
        destruct H as [<-|<-]; auto. }
  rewrite G. simpl. split; [intros [[]|H]; auto|auto].
Qed.

Lemma getAllAccounts_NoDup transactions : NoDup (getAllAccounts transactions).
Proof.
  unfold getAllAccounts. apply fold_left_inv.
  - constructor.
  - intros. now repeat apply StrSetFacts.add_NoDup.
Qed.

Lemma filteredOf_In transactions t :
  In t (filteredOf transactions) -> In t transactions.
Proof.
  unfold filteredOf, removeLegitimateTransactions.
  destruct (_ =? 0); auto. intros H. now apply filter_In in H.
Qed.

(** ** Shell chains *)

Lemma isPath_snoc adj l x :
  l <> [] -> isPath adj l -> In x (neighborsOf adj (last l "")) ->
  isPath adj (l ++ [x]).
Proof.
  induction l as [|a l IH]; [congruence|].
  intros _ Hp Hx. destruct l as [|b l].
  - simpl in *. auto.
  - change (isPath adj (a :: (b :: l) ++ [x])).
    simpl app. simpl in Hp. destruct Hp as [Hab Hp].
    split; auto. apply IH; auto. discriminate.
Qed.

Lemma last_snoc {A : Type} (l : list A) x d : last (l ++ [x]) d = x.
Proof. apply last_last. Qed.

Lemma interior_snoc l x : l <> [] -> interior (l ++ [x]) = tl l.
Proof.
  unfold interior. destruct l as [|a l]; [congruence|]. intros _. simpl.
  apply removelast_last.
Qed.

Lemma In_removelast {A : Type} (l : list A) x : In x (removelast l) -> In x l.
Proof.
  induction l as [|a l IH]; simpl; auto.
  destruct l; [intros []|]. intros [->|H]; auto.
Qed.

Section ShellSound.
Variable adj : Adjacency.
Variable accountStats : StatsTable.
Variable cycleNodes : StrSet.t.

Local Abbreviation ChainOK := (ChainOK adj accountStats cycleNodes).
Local Abbreviation PathOK := (PathOK adj accountStats cycleNodes).

Lemma PathOK_extend visited current path neighbor :
  PathOK visited current path ->
  In neighbor (neighborsOf adj current) ->
  ~ In neighbor visited -> ~ In neighbor cycleNodes ->
  lowActivity accountStats neighbor = true ->
  PathOK (StrSet.add neighbor visited) neighbor (path ++ [neighbor]).
Proof.
  intros [Hp Hl Hne Hc Ht Hnd Hv Hs] Hn Hnv Hnc Hlow. constructor.
  - apply isPath_snoc; auto. now rewrite Hl.
  - apply last_snoc.
  - intros E. now apply app_eq_nil in E as [_ [=]].
  - intros a Ha. in_snoc Ha; auto.
  - intros a Ha. destruct path as [|s l]; [congruence|]. simpl in Ha.
    in_snoc Ha; auto.
  - apply NoDup_rev in Hnd. rewrite <- (rev_involutive (path ++ _)).
    apply NoDup_rev. rewrite rev_app_distr. simpl. constructor; auto.
    rewrite <- in_rev. auto.
  - intros a Ha. apply StrSetFacts.add_In. in_snoc Ha; auto.
  - destruct Hs as [s [l [-> Hs]]]. exists s, (l ++ [neighbor]). auto.
Qed.

Lemma ChainOK_destination visited current path nn :
  PathOK visited current path -> 2 <= List.length path ->
  In nn (neighborsOf adj current) ->
  ~ In nn visited -> ~ In nn cycleNodes ->
  ChainOK (path ++ [nn]).
Proof.
  intros [Hp Hl Hne Hc Ht Hnd Hv Hs] Hlen Hn Hnv Hnc. constructor.
  - rewrite length_app. simpl. lia.
  - apply isPath_snoc; auto. now rewrite Hl.
  - intros a Ha. in_snoc Ha; auto.
  - rewrite interior_snoc by auto. exact Ht.
  - apply NoDup_rev in Hnd. rewrite <- (rev_involutive (path ++ _)).
    apply NoDup_rev. rewrite rev_app_distr. simpl. constructor; auto.
    rewrite <- in_rev. auto.
  - destruct Hs as [s [l [-> Hs]]]. exists s, (l ++ [nn]). auto.
Qed.

Lemma ChainOK_path visited current path :
  PathOK visited current path -> 3 <= List.length path -> ChainOK path.
Proof.
  intros [Hp Hl Hne Hc Ht Hnd Hv Hs] Hlen. constructor; auto.
  intros a Ha. apply Ht. unfold interior in Ha. now apply In_removelast.
Qed.

Lemma recordDestinations_sound path visited neighbor chains :
  PathOK visited neighbor path ->
  Forall ChainOK chains ->
  Forall ChainOK
    (recordDestinations adj accountStats cycleNodes path visited neighbor
       chains).
Proof.
  intros Hpath Hchains. unfold recordDestinations.
  apply fold_left_inv; auto.
  intros acc nn Hnn Hacc.
  destruct (StrSet.has nn visited) eqn:Ev; cbn [negb andb]; auto.
  destruct (StrSet.has nn cycleNodes) eqn:Ec; cbn [negb andb]; auto.
  destruct (lowActivity accountStats nn); auto.
  destruct (Nat.leb_spec 2 (List.length path)); auto.
  apply Forall_app. split; auto. constructor; auto.
  apply StrSetFacts.has_false in Ev, Ec.
  eapply ChainOK_destination; eauto.
Qed.

Lemma shellDfs_sound fuel : forall current path visited chains r,
  PathOK visited current path ->
  Forall ChainOK chains ->
  shellDfs adj accountStats cycleNodes fuel current path visited chains
  = Some r ->
  Forall ChainOK r.
Proof.
  induction fuel as [|fuel IH]; intros current path visited chains r
    Hpath Hchains; cbn [shellDfs]; [discriminate|].
  apply foldM_inv; auto.
  intros acc neighbor acc' Hn Hacc.
  destruct (StrSet.has neighbor visited) eqn:Ev; [now intros [= <-]|].
  destruct (StrSet.has neighbor cycleNodes) eqn:Ec; [now intros [= <-]|].
  destruct (lowActivity accountStats neighbor) eqn:El; [|now intros [= <-]].
  apply StrSetFacts.has_false in Ev, Ec.
  assert (Hpath' : PathOK (StrSet.add neighbor visited) neighbor
                     (path ++ [neighbor])).
  { apply (PathOK_extend visited current); auto. }
  apply IH; auto.
  pose proof (recordDestinations_sound _ _ _ _ Hpath' Hacc) as Hrec.
  destruct (Nat.leb_spec 3 (List.length (path ++ [neighbor]))); auto.
  apply Forall_app. split; auto. constructor; auto.
  eapply ChainOK_path; eauto.
Qed.

Lemma rawChains_sound chains :
  rawChains adj accountStats cycleNodes = Some chains ->
  Forall ChainOK chains.
Proof.
  unfold rawChains. apply foldM_inv; auto.
  intros acc startNode acc' Hs Hacc.
  destruct (StrSet.has startNode cycleNodes) eqn:Ec; [now intros [= <-]|].
  apply StrSetFacts.has_false in Ec.
  apply shellDfs_sound; auto.
  constructor; simpl; auto; try discriminate.
  - intros a [<-|[]]. exact Ec.
  - constructor; auto. constructor.
  - eauto.
Qed.
End ShellSound.

Lemma eliminateSubsets_In chains chain :
  In chain (eliminateSubsets chains) -> In chain chains.
Proof.
  unfold eliminateSubsets. intros H.
  apply (sortBy_In (fun a b => List.length b <=? List.length a)).
  revert H.
  set (sorted := sortBy _ chains).
  assert (G : forall l acc,
             In chain
               (fold_left
                  (fun uniqueChains c =>
                     if existsb (isSubsetOf c) uniqueChains then uniqueChains
                     else uniqueChains ++ [c]) l acc) ->
             In chain acc \/ In chain l).
  { induction l as [|c l IH]; intros acc; simpl; auto.
    intros H. apply IH in H. destruct H as [H|H]; auto.
    destruct (existsb _ acc); auto.
    in_snoc H; auto. }
  intros H. apply G in H. destruct H as [[]|H]. exact H.
Qed.

Lemma detectShellNetworks_sound adj accountStats cycleNodes chains :
  detectShellNetworks adj accountStats cycleNodes = Some chains ->
  Forall (ChainOK adj accountStats cycleNodes) chains.
Proof.
  unfold detectShellNetworks.
  destruct (rawChains adj accountStats cycleNodes) as [raw|] eqn:E;
    [|discriminate].
  intros [= <-]. apply rawChains_sound in E.
  rewrite Forall_forall in *. intros c Hc. apply E.
  now apply eliminateSubsets_In.
Qed.

(** ** Account statistics *)

Section StatsFacts.
Variable getTime : string -> option Z.

Local Abbreviation senderStep := (senderStep getTime).
Local Abbreviation receiverStep := (receiverStep getTime).
Local Abbreviation accountStep := (accountStep getTime).

Lemma statsStep_get a t (m : StatsTable) :
  StrMap.get a
    (StrMap.update (receiver_id t) emptyAccountStats (receiverStep t)
       (StrMap.update (sender_id t) emptyAccountStats (senderStep t) m))
  = if touches a t
    then Some (accountStep a
                 (match StrMap.get a m with
                  | Some s => s
                  | None => emptyAccountStats
                  end) t)
    else StrMap.get a m.
Proof.
  rewrite !StrMapFacts.get_update. unfold touches, accountStep.
  rewrite (String.eqb_sym a (receiver_id t)), (String.eqb_sym a (sender_id t)).
  destruct (String.eqb_spec (receiver_id t) a) as [Er|Er],
    (String.eqb_spec (sender_id t) a) as [Es|Es]; cbn [orb].
  - rewrite Er, <- Es, String.eqb_refl. reflexivity.
  - rewrite Er. apply String.eqb_neq in Es.
    rewrite String.eqb_sym, Es. reflexivity.
  - now rewrite Es.
  - reflexivity.
Qed.

Lemma accountStep_untouched a t s :
  touches a t = false -> accountStep a s t = s.
Proof.
  unfold touches, accountStep.
  destruct (String.eqb (sender_id t) a), (String.eqb (receiver_id t) a);
    simpl; congruence.
Qed.

Lemma computeAccountStats_acc transactions : forall (m : StatsTable) a,
  StrMap.get a
    (fold_left
       (fun stats tx =>
          StrMap.update (receiver_id tx) emptyAccountStats (receiverStep tx)
            (StrMap.update (sender_id tx) emptyAccountStats (senderStep tx)
               stats))
       transactions m)
  = match StrMap.get a m with
    | Some s => Some (fold_left (accountStep a) transactions s)
    | None =>
        if existsb (touches a) transactions
        then Some (fold_left (accountStep a) transactions emptyAccountStats)
        else None
    end.
Proof.
  induction transactions as [|t l IH]; intros m a.
  - simpl. destruct (StrMap.get a m); reflexivity.
  - cbn [fold_left existsb]. rewrite IH, statsStep_get.
    destruct (touches a t) eqn:Et; cbn [orb].
    + destruct (StrMap.get a m); reflexivity.
    + destruct (StrMap.get a m);
        now rewrite (accountStep_untouched a t _ Et).
Qed.

Lemma computeAccountStats_get transactions a :
  StrMap.get a (computeAccountStats getTime transactions)
  = if existsb (touches a) transactions
    then Some (fold_left (accountStep a) transactions emptyAccountStats)
    else None.
Proof. apply (computeAccountStats_acc transactions []). Qed.

Lemma accountStep_totalSent a transactions : forall s,
  totalSent (fold_left (accountStep a) transactions s)
  = fold_left Qplus (map amount (txsOf sender_id a transactions))
      (totalSent s).
Proof.
  induction transactions as [|t l IH]; intros s; simpl; auto.
  rewrite IH. unfold accountStep.
  destruct (String.eqb (sender_id t) a), (String.eqb (receiver_id t) a);
    reflexivity.
Qed.

Lemma accountStep_totalReceived a transactions : forall s,
  totalReceived (fold_left (accountStep a) transactions s)
  = fold_left Qplus (map amount (txsOf receiver_id a transactions))
      (totalReceived s).
Proof.
  induction transactions as [|t l IH]; intros s; simpl; auto.
  rewrite IH. unfold accountStep.
  destruct (String.eqb (sender_id t) a), (String.eqb (receiver_id t) a);
    reflexivity.
Qed.

Lemma accountStep_totalTransactions a transactions : forall s,
  totalTransactions (fold_left (accountStep a) transactions s)
  = totalTransactions s
    + List.length (txsOf sender_id a transactions)
    + List.length (txsOf receiver_id a transactions).
Proof.
  induction transactions as [|t l IH]; intros s; simpl; [lia|].
  rewrite IH. unfold accountStep.
  destruct (String.eqb (sender_id t) a), (String.eqb (receiver_id t) a);
    simpl; lia.
Qed.

Lemma accountStep_counts a transactions : forall s,
  sendCount (fold_left (accountStep a) transactions s)
  = sendCount s + List.length (txsOf sender_id a transactions)
  /\ receiveCount (fold_left (accountStep a) transactions s)
     = receiveCount s + List.length (txsOf receiver_id a transactions).
Proof.
  induction transactions as [|t l IH]; intros s; simpl; [lia|].
  destruct (IH (accountStep a s t)) as [-> ->]. unfold accountStep.
  destruct (String.eqb (sender_id t) a), (String.eqb (receiver_id t) a);
    simpl; lia.
Qed.

Lemma accountStep_parties a transactions : forall s,
  senders (fold_left (accountStep a) transactions s)
  = fold_left (fun acc x => StrSet.add x acc)
      (map sender_id (txsOf receiver_id a transactions)) (senders s)
  /\ receivers (fold_left (accountStep a) transactions s)
     = fold_left (fun acc x => StrSet.add x acc)
         (map receiver_id (txsOf sender_id a transactions)) (receivers s).
Proof.
  induction transactions as [|t l IH]; intros s; simpl; auto.
  destruct (IH (accountStep a s t)) as [-> ->]. unfold accountStep.
  destruct (String.eqb (sender_id t) a), (String.eqb (receiver_id t) a);
    simpl; auto.
Qed.

Lemma touches_txsOf a transactions :
  existsb (touches a) transactions = false ->
  txsOf sender_id a transactions = [] /\ txsOf receiver_id a transactions = [].
Proof.
  induction transactions as [|t l IH]; simpl; auto.
  unfold touches at 1.
  destruct (String.eqb (sender_id t) a), (String.eqb (receiver_id t) a);
    simpl; try discriminate. exact IH.
Qed.

(** The total transaction count of an account: its number of transaction
    endpoints in the batch; 0 for an account without an entry. *)
Lemma totalTxOf_count transactions a :
  totalTxOf (computeAccountStats getTime transactions) a
  = List.length (txsOf sender_id a transactions)
    + List.length (txsOf receiver_id a transactions).
Proof.
  unfold totalTxOf. rewrite computeAccountStats_get.
  destruct (existsb (touches a) transactions) eqn:E.
  - now rewrite accountStep_totalTransactions.
  - apply touches_txsOf in E. destruct E as [-> ->]. reflexivity.
Qed.
End StatsFacts.

Lemma isPath_nth adj l : forall i,
  isPath adj l -> S i < List.length l ->
  In (nth (S i) l "") (neighborsOf adj (nth i l "")).
Proof.
  induction l as [|a l IH]; intros i Hp Hi; simpl in Hi; [lia|].
  destruct l as [|b l]; [simpl in Hi; lia|].
  destruct Hp as [Hab Hp]. destruct i as [|i]; [exact Hab|].
  change (In (nth (S i) (b :: l) "") (neighborsOf adj (nth i (b :: l) ""))).
  apply IH; auto. simpl in *. lia.
Qed.

Lemma lowActivity_range accountStats a :
  lowActivity accountStats a = true ->
  totalTxOf accountStats a = 2 \/ totalTxOf accountStats a = 3.
Proof.
  unfold lowActivity. rewrite andb_true_iff, !Nat.leb_le. lia.
Qed.

(** C4: an emitted shell ring has at least 3 members; consecutive members
    are joined by a transaction of the filtered batch, in path order; every
    member other than the first and the last has 2 or 3 transaction endpoints
    in the filtered statistics; and no member belongs to a cycle ring. *)
Theorem shell_rings_wellformed (getTime : string -> option Z)
    (transactions : list Transaction) (r : AnalysisResult) :
  analyzeTransactions getTime transactions = Some r ->
  forall ring, In ring (fraud_rings r) ->
    pattern_type ring = "shell_network" ->
    let chain := member_accounts ring in
    let filtered := filteredOf transactions in
    let stats := computeAccountStats getTime filtered in
    3 <= List.length chain
    /\ (forall i, S i < List.length chain ->
          exists t, In t filtered
                    /\ sender_id t = nth i chain ""
                    /\ receiver_id t = nth (S i) chain "")
    /\ (forall a, In a (interior chain) ->
          (totalTxOf stats a = 2 \/ totalTxOf stats a = 3)
          /\ totalTxOf stats a
             = List.length (txsOf sender_id a filtered)
               + List.length (txsOf receiver_id a filtered))
    /\ (forall a ring', In a chain -> In ring' (fraud_rings r) ->
          pattern_type ring' = "cycle" -> ~ In a (member_accounts ring')).
Proof.
  intros Hr ring Hin Hpt chain filtered stats.
  destruct (analyze_cases _ _ _ Hr)
    as [[_ ->]|[_ [chains [Hc [Hf _]]]]]; [destruct Hin|].
  pose proof (finalState_inv getTime transactions chains Hc) as Hinv.
  rewrite Hf in *.
  assert (Hchain : In chain chains).
  { destruct (inv_origin _ _ Hinv ring Hin) as [c _|h d _|h d _|c Hc'];
      try discriminate. exact Hc'. }
  pose proof (detectShellNetworks_sound _ _ _ _ Hc) as Hok.
  rewrite Forall_forall in Hok.
  destruct (Hok chain Hchain) as [Hlen Hpath Hnc Hint _ _].
  split; [exact Hlen|]. split; [|split].
  - intros i Hi. apply neighborsOf_In. now apply isPath_nth.
  - intros a Ha. split.
    + apply lowActivity_range. now apply Hint.
    + apply totalTxOf_count.
  - intros a ring' Ha Hin' Hpt' Hmem.
    apply (Hnc a Ha).
    rewrite <- (acceptChains_cycleNodes chains).
    apply (inv_cycle _ _ Hinv ring' a); auto.
Qed.

(** ** Cycles: what the search records *)

Section CycleSound.
Variable adj : Adjacency.

Local Abbreviation SimpleCycle := (SimpleCycle adj).

Lemma NoDup_snoc {A : Type} (l : list A) x :
  NoDup l -> ~ In x l -> NoDup (l ++ [x]).
Proof.
  intros Hnd Hx. apply NoDup_rev in Hnd.
  rewrite <- (rev_involutive (l ++ [x])). apply NoDup_rev.
  rewrite rev_app_distr. simpl. constructor; auto. now rewrite <- in_rev.
Qed.

Lemma hd_snoc (l : list string) x y :
  l <> [] -> hd "" ((l ++ [x]) ++ [y]) = hd "" (l ++ [x]).
Proof. destruct l; [congruence|reflexivity]. Qed.

Lemma cycleDfs_sound startNode budget :
  forall current path visited cycles,
    isPath adj (path ++ [current]) ->
    NoDup (path ++ [current]) ->
    List.length path + budget = 5 ->
    hd "" (path ++ [current]) = startNode ->
    (forall a, In a path -> In a visited) ->
    Forall SimpleCycle cycles ->
    Forall SimpleCycle
      (cycleDfs adj startNode budget current path visited cycles).
Proof.
  induction budget as [|budget IH];
    intros current path visited cycles Hp Hnd Hlen Hhd Hvis Hc;
    cbn [cycleDfs]; auto.
  apply fold_left_inv; auto.
  intros acc neighbor Hn Hacc.
  destruct (String.eqb_spec neighbor startNode) as [->|Hne]; cbn [andb].
  - destruct (Nat.leb_spec 3 (6 - S budget)) as [Hd|Hd].
    + apply Forall_app. split; auto. constructor; auto.
      constructor; auto.
      * rewrite length_app. simpl. lia.
      * rewrite length_app. simpl. lia.
      * now rewrite Hhd, last_snoc.
    + destruct (StrSet.has startNode (StrSet.add current visited)) eqn:Ev;
        cbn [negb andb]; auto.
      apply StrSetFacts.has_false in Ev. exfalso. apply Ev.
      apply StrSetFacts.add_In.
      destruct path as [|s l]; simpl in Hhd; auto.
      right. apply Hvis. subst. simpl. auto.
  - destruct (StrSet.has neighbor (StrSet.add current visited)) eqn:Ev;
      cbn [negb andb]; auto.
    destruct (Nat.ltb_spec (6 - S budget) 5) as [Hd|Hd]; auto.
    apply StrSetFacts.has_false in Ev.
    assert (Hnin : ~ In neighbor (path ++ [current])).
    { intros Hin. apply Ev. apply StrSetFacts.add_In.
      in_snoc Hin; auto. }
    apply IH; auto.
    + apply isPath_snoc; auto.
      * intros E. now apply app_eq_nil in E as [_ [=]].
      * now rewrite last_snoc.
    + now apply NoDup_snoc.
    + rewrite length_app. simpl. lia.
    + destruct path; auto.
    + intros a Ha. apply StrSetFacts.add_In.
      in_snoc Ha; auto.
Qed.

Lemma rawCycles_sound allAccounts :
  Forall SimpleCycle (rawCycles adj allAccounts).
Proof.
  unfold rawCycles. apply fold_left_inv; auto.
  intros acc startNode _ Hacc.
  apply cycleDfs_sound; simpl; auto.
  constructor; auto. constructor.
Qed.
End CycleSound.

Lemma isPath_members adj s l :
  isPath adj (s :: l) -> forall a, In a l -> exists b, In a (neighborsOf adj b).
Proof.
  revert s. induction l as [|b l IH]; intros s Hp a Ha; [destruct Ha|].
  destruct Hp as [Hsb Hp]. destruct Ha as [<-|Ha]; eauto.
Qed.

Lemma SimpleCycle_members adj c :
  SimpleCycle adj c -> forall a, In a c -> exists b, In a (neighborsOf adj b).
Proof.
  intros [Hp _ Hmin _ Hclose] a Ha.
  destruct c as [|s l]; [destruct Ha|].
  destruct Ha as [<-|Ha]; [eauto|]. eapply isPath_members; eauto.
Qed.

Lemma normalizeCycle_In cycle a : In a (normalizeCycle cycle) <-> In a cycle.
Proof.
  unfold normalizeCycle. set (n := indexOf (minMember cycle) cycle).
  rewrite in_app_iff.
  assert (H : In a cycle <-> In a (firstn n cycle) \/ In a (skipn n cycle)).
  { rewrite <- in_app_iff, firstn_skipn. reflexivity. }
  tauto.
Qed.

Lemma dedupCycles_In cycles u :
  In u (dedupCycles cycles) ->
  exists c, In c cycles /\ u = normalizeCycle c.
Proof.
  unfold dedupCycles.
  assert (G : forall l acc,
             In u (fst (fold_left
                          (fun '(uniqueCycles, seen) cycle =>
                             let normalized := normalizeCycle cycle in
                             let key := cycleKey normalized in
                             if negb (StrSet.has key seen)
                             then (uniqueCycles ++ [normalized],
                                   StrSet.add key seen)
                             else (uniqueCycles, seen)) l acc)) ->
             In u (fst acc) \/ exists c, In c l /\ u = normalizeCycle c).
  { induction l as [|c l IH]; intros [uc seen]; simpl; auto.
    intros H. apply IH in H. destruct H as [H|[c' [Hc' E]]]; eauto.
    destruct (StrSet.has _ seen); simpl in H; auto.
    in_snoc H; eauto. }
  intros H. apply G in H. destruct H as [[]|H]. exact H.
Qed.

(** ** Ring members belong to the batch *)

Lemma neighbor_in_universe transactions a b :
  In a (neighborsOf (adjOf transactions) b) ->
  In a (getAllAccounts transactions).
Proof.
  intros H. apply neighborsOf_In in H. destruct H as [t [Ht [_ Hr]]].
  apply getAllAccounts_In. exists t. split; auto.
  now apply filteredOf_In.
Qed.

Lemma cycle_members_in_universe transactions c a :
  In c (cyclesOf transactions) -> In a c -> In a (getAllAccounts transactions).
Proof.
  intros Hc Ha. unfold cyclesOf, detectCycles in Hc.
  apply dedupCycles_In in Hc. destruct Hc as [c' [Hc' ->]].
  rewrite normalizeCycle_In in Ha.
  pose proof (rawCycles_sound (adjOf transactions)
                (getAllAccounts (filteredOf transactions))) as Hs.
  rewrite Forall_forall in Hs.
  destruct (SimpleCycle_members _ _ (Hs c' Hc') a Ha) as [b Hb].
  eapply neighbor_in_universe; eauto.
Qed.

Lemma hub_members_in_universe getTime hub party transactions h data a :
  (forall t, In t transactions ->
     In (hub t) (getAllAccounts transactions)
     /\ In (party t) (getAllAccounts transactions)) ->
  In (h, data) (detectFan getTime hub party transactions) ->
  In a (h :: counterparties data) ->
  In a (getAllAccounts transactions).
Proof.
  intros Hu Hd Ha. apply detectFan_In in Hd. destruct Hd as [Hle ->].
  unfold hubOf in *. cbn [counterparties] in Ha.
  destruct Ha as [<-|Ha].
  - destruct (txsOf hub h transactions) as [|t l] eqn:E.
    + simpl in Hle. unfold MIN_CONNECTIONS in Hle. lia.
    + assert (Ht : In t (txsOf hub h transactions)) by (rewrite E; simpl; auto).
      apply txsOf_In in Ht. destruct Ht as [Ht <-]. now apply Hu.
  - apply StrSetFacts.ofList_In, in_map_iff in Ha.
    destruct Ha as [t [<- Ht]]. apply txsOf_In in Ht. now apply Hu.
Qed.

Lemma endpoints_in_universe transactions t :
  In t transactions ->
  In (sender_id t) (getAllAccounts transactions)
  /\ In (receiver_id t) (getAllAccounts transactions).
Proof.
  intros Ht. split; apply getAllAccounts_In; exists t; auto.
Qed.

Lemma chain_members_in_universe transactions accountStats cycleNodes chain a :
  ChainOK (adjOf transactions) accountStats cycleNodes chain ->
  In a chain -> In a (getAllAccounts transactions).
Proof.
  intros [_ Hp _ _ _ [s [l [-> Hs]]]] Ha.
  destruct Ha as [<-|Ha].
  - apply adjacency_keys_In in Hs. destruct Hs as [t [Ht <-]].
    apply endpoints_in_universe. now apply filteredOf_In.
  - destruct (isPath_members _ _ _ Hp a Ha) as [b Hb].
    eapply neighbor_in_universe; eauto.
Qed.

Lemma ring_members_in_universe getTime transactions chains ring a :
  chainsOf getTime transactions = Some chains ->
  In ring (fraudRings (finalStateOf getTime transactions chains)) ->
  In a (member_accounts ring) ->
  In a (getAllAccounts transactions).
Proof.
  intros Hc Hin Ha.
  pose proof (finalState_inv getTime transactions chains Hc) as Hinv.
  destruct (inv_origin _ _ Hinv ring Hin) as [c Hc'|h d Hd|h d Hd|c Hc'].
  - eapply cycle_members_in_universe; eauto.
  - eapply hub_members_in_universe; eauto.
    intros t Ht. destruct (endpoints_in_universe _ _ Ht). auto.
  - eapply hub_members_in_universe; eauto.
    intros t Ht. destruct (endpoints_in_universe _ _ Ht). auto.
  - pose proof (detectShellNetworks_sound _ _ _ _ Hc) as Hok.
    rewrite Forall_forall in Hok.
    eapply chain_members_in_universe; eauto.
Qed.

(** ** Suspicious accounts and node records *)

Lemma buildSuspiciousAccounts_ids st accountStats fanInAccounts fanOutAccounts :
  map account_id
    (buildSuspiciousAccounts st accountStats fanInAccounts fanOutAccounts)
  = filter (hasRings st) (StrMap.keys (accountPatterns st)).
Proof.
  unfold buildSuspiciousAccounts.
  set (step := fun (suspiciousAccounts : list SuspiciousAccount)
                   '(accountId, patterns) => _).
  assert (G : forall (l : StrMap.t StrSet.t) acc,
             map account_id (fold_left step l acc)
             = map account_id acc ++ filter (hasRings st) (StrMap.keys l)).
  { induction l as [|[a ps] l IH]; intros acc; simpl.
    - now rewrite app_nil_r.
    - rewrite IH. unfold hasRings at 2.
      destruct (StrMap.get a (accountRings st)) as [rings|]; auto.
      destruct (StrSet.size rings =? 0); simpl; auto.
      now rewrite map_app, <- app_assoc. }
  apply G.
Qed.

Lemma hasEntry_hasRings a st : hasEntry a st -> hasRings st a = true.
Proof.
  intros [[rs [Hrs Hne]] _]. unfold hasRings. rewrite Hrs.
  destruct rs; [congruence|reflexivity].
Qed.

Lemma suspicious_count getTime transactions chains a :
  chainsOf getTime transactions = Some chains ->
  hasEntry a (finalStateOf getTime transactions chains) ->
  count_occ string_dec
    (map account_id (suspiciousOf getTime transactions chains)) a = 1.
Proof.
  intros Hc Hentry.
  pose proof (finalState_inv getTime transactions chains Hc) as Hinv.
  unfold suspiciousOf, sortSuspicious.
  rewrite (proj1 (Permutation_count_occ string_dec _ _)
             (Permutation_map account_id (sortBy_perm _ _)) a).
  rewrite buildSuspiciousAccounts_ids.
  apply NoDup_count_occ'.
  - apply NoDup_filter, (inv_keys _ _ Hinv).
  - apply filter_In. split.
    + destruct Hentry as [_ [ps [Hps _]]]. eapply StrMapFacts.get_Some_key; eauto.
    + now apply hasEntry_hasRings.
Qed.

(** C10: every member of an emitted ring has exactly one entry in
    [suspicious_accounts], that entry lists at least one pattern, and the
    account has exactly one node record, which is marked suspicious. *)
Theorem ring_members_are_suspicious (getTime : string -> option Z)
    (transactions : list Transaction) (r : AnalysisResult) :
  analyzeTransactions getTime transactions = Some r ->
  forall ring a, In ring (fraud_rings r) -> In a (member_accounts ring) ->
    count_occ string_dec (map account_id (suspicious_accounts r)) a = 1
    /\ (forall sa, In sa (suspicious_accounts r) -> account_id sa = a ->
          detected_patterns sa <> [])
    /\ count_occ string_dec (map id (nodes r)) a = 1
    /\ (forall node, In node (nodes r) -> id node = a ->
          suspicious node = true).
Proof.
  intros Hr ring a Hin Ha.
  destruct (analyze_cases _ _ _ Hr)
    as [[_ ->]|[_ [chains [Hc [Hf [Hs Hn]]]]]]; [destruct Hin|].
  pose proof (finalState_inv getTime transactions chains Hc) as Hinv.
  rewrite Hf in Hin. rewrite Hs, Hn.
  pose proof (inv_members _ _ Hinv ring a Hin Ha) as Hentry.
  pose proof (suspicious_count getTime transactions chains a Hc Hentry) as Hcount.
  split; [exact Hcount|]. split; [|split].
  - intros sa Hsa Hid. unfold suspiciousOf, sortSuspicious in Hsa.
    apply sortBy_In, buildSuspiciousAccounts_In in Hsa.
    destruct Hsa as (ps & rs & cc & b1 & b2 & b3 & Hps & _ & _ & -> & _).
    rewrite Hid in Hps.
    apply StrMapFacts.In_get in Hps; [|apply (inv_keys _ _ Hinv)].
    destruct Hentry as [_ [ps' [Hps' Hne]]]. congruence.
  - rewrite map_map. cbn [buildNode id]. rewrite map_id.
    apply NoDup_count_occ'; [apply getAllAccounts_NoDup|].
    eapply ring_members_in_universe; eauto.
  - intros node Hnode Hid. apply in_map_iff in Hnode.
    destruct Hnode as [b [<- _]]. cbn [buildNode id suspicious] in *.
    subst b. apply StrSetFacts.set_has_In, StrSetFacts.ofList_In.
    apply (count_occ_In string_dec). rewrite Hcount. lia.
Qed.

(** ** The pass-through bonus *)

Lemma ratio_positive_min a b :
  (0 < b)%Q -> (7 # 10 < a / b)%Q -> (0 < a)%Q.
Proof.
  intros Hb Hr.
  assert (E : (a == b * (a / b))%Q).
  { rewrite Qmult_div_r; [reflexivity|]. intros E. rewrite E in Hb.
    now apply Qlt_irrefl in Hb. }
  rewrite E. apply Qmult_lt_0_compat; auto.
  eapply Qlt_trans; [|exact Hr]. reflexivity.
Qed.

Lemma flowBonus_spec accountStats accountId :
  flowBonus accountStats accountId = true <->
  exists stats, StrMap.get accountId accountStats = Some stats
                /\ passThrough stats.
Proof.
  unfold flowBonus.
  destruct (StrMap.get accountId accountStats) as [stats|].
  2: { split; [discriminate|]. intros [s [[=] _]]. }
  assert (Hex : (exists s, Some stats = Some s /\ passThrough s)
                <-> passThrough stats).
  { split; [intros [s [[= <-] H]]; exact H|eauto]. }
  rewrite Hex. clear Hex. unfold passThrough, flowRatioOf. cbv zeta.
  set (sent := totalSent stats). set (recv := totalReceived stats).
  set (ratio := (Qmin sent recv / Qmax sent recv)%Q).
  pose proof (Qmin_spec sent recv) as Hmin.
  pose proof (Qmax_spec sent recv) as Hmax.
  split.
  - destruct (Qgtb (sent + recv) 0) eqn:E1; [|discriminate].
    destruct (Qgtb (Qmax sent recv) 0) eqn:E2; [|discriminate].
    rewrite andb_true_iff, Qgtb_gt, Qltb_lt. intros [H1 H2].
    apply Qgtb_gt in E2.
    pose proof (ratio_positive_min _ _ E2 H1) as Hpos.
    destruct Hmin as [[? Emin]|[? Emin]]; rewrite Emin in Hpos;
      repeat split; auto; lra.
  - intros (Hs & Hr & H1 & H2).
    assert (E1 : Qgtb (sent + recv) 0 = true) by (apply Qgtb_gt; lra).
    assert (E2 : Qgtb (Qmax sent recv) 0 = true).
    { apply Qgtb_gt. destruct Hmax as [[? ->]|[? ->]]; lra. }
    rewrite E1, E2, andb_true_iff, Qgtb_gt, Qltb_lt. auto.
Qed.

(** Equal totals give the ratio 1 (or no ratio at all): no bonus. *)
Lemma flowBonus_balanced accountStats accountId stats :
  StrMap.get accountId accountStats = Some stats ->
  (totalSent stats == totalReceived stats)%Q ->
  flowBonus accountStats accountId = false.
Proof.
  intros Hget Heq. destruct (flowBonus accountStats accountId) eqn:E; auto.
  apply flowBonus_spec in E. destruct E as [s [Hs (H1 & H2 & _ & H4)]].
  rewrite Hget in Hs. injection Hs as <-. exfalso.
  unfold flowRatioOf in H4.
  destruct (Qmin_spec (totalSent stats) (totalReceived stats)) as [[_ E1]|[C _]];
    [|lra].
  destruct (Qmax_spec (totalSent stats) (totalReceived stats)) as [[_ E2]|[C _]];
    [|lra].
  rewrite E1, E2, Heq in H4.
  assert (E : (totalReceived stats / totalReceived stats == 1)%Q).
  { field. intros C. rewrite C in H2. now apply Qlt_irrefl in H2. }
  rewrite E in H4. now apply Qlt_irrefl in H4.
Qed.

Lemma calculateSuspicionScore_eq accountId patterns accountStats cycleCount
    isSmurfHub isShellNode temporalFlag :
  (calculateSuspicionScore accountId patterns accountStats cycleCount
     isSmurfHub isShellNode temporalFlag
   == round1
        (Qmin (patternScore patterns cycleCount temporalFlag
               + (if flowBonus accountStats accountId then 10 else 0)) 100))%Q.
Proof.
  unfold calculateSuspicionScore, patternScore. cbv zeta.
  apply capped_round_compat.
  destruct (existsb _ patterns), (StrSet.has "fan_in" patterns),
    (StrSet.has "fan_out" patterns), (StrSet.has "shell_network" patterns),
    temporalFlag, (flowBonus accountStats accountId); ring.
Qed.

(** C8: the suspicion score is the pattern score plus 10 exactly when the
    account has statistics with both totals positive and a flow ratio
    strictly between 0.7 and 1 (capped at 100, rounded to one decimal);
    with equal totals the ratio is 1 and no bonus is added, so a member of
    one 3-cycle and of no other pattern scores 35, as each account of the
    pure 3-cycle of scenario A does. *)
Theorem pass_through_bonus_strict :
  (forall accountId patterns accountStats cycleCount isSmurfHub isShellNode
          temporalFlag,
      (flowBonus accountStats accountId = true <->
       exists stats, StrMap.get accountId accountStats = Some stats
                     /\ passThrough stats)
      /\ (calculateSuspicionScore accountId patterns accountStats cycleCount
            isSmurfHub isShellNode temporalFlag
          == round1
               (Qmin (patternScore patterns cycleCount temporalFlag
                      + (if flowBonus accountStats accountId then 10 else 0))
                  100))%Q)
  /\ (forall accountId accountStats stats isSmurfHub isShellNode,
        StrMap.get accountId accountStats = Some stats ->
        (totalSent stats == totalReceived stats)%Q ->
        flowBonus accountStats accountId = false
        /\ (calculateSuspicionScore accountId ["cycle_length_3"] accountStats 1
              isSmurfHub isShellNode false == 35)%Q)
  /\ (exists r,
        analyzeTransactions sampleGetTime scenarioA = Some r
        /\ map account_id (suspicious_accounts r) = ["A"; "B"; "C"]
        /\ Forall (fun sa => (suspicion_score sa == 35)%Q)
             (suspicious_accounts r)).
Proof.
  split; [|split].
  - intros. split.
    + apply flowBonus_spec.
    + apply calculateSuspicionScore_eq.
  - intros accountId accountStats stats b1 b2 Hget Heq.
    pose proof (flowBonus_balanced _ _ _ Hget Heq) as Hb. split; auto.
    rewrite calculateSuspicionScore_eq, Hb. reflexivity.
  - eexists. split; [vm_compute; reflexivity|]. split; [reflexivity|].
    repeat constructor.
Qed.

(** The balanced case of [pass_through_bonus_strict] at the statistics of
    account A in scenario A. *)
Lemma pass_through_bonus_strict_witness :
  flowBonus (computeAccountStats sampleGetTime scenarioA) "A" = false
  /\ (calculateSuspicionScore "A" ["cycle_length_3"]
        (computeAccountStats sampleGetTime scenarioA) 1 false false false
      == 35)%Q.
Proof.
  destruct pass_through_bonus_strict as [_ [H _]].
  apply (H "A" (computeAccountStats sampleGetTime scenarioA)
           (mkAccountStats 100 100 1 1 ["C"] ["B"] [Some 0%Z; Some 7200000%Z] 2)).
  - vm_compute. reflexivity.
  - reflexivity.
Defined.

(** ** Timestamps that do not parse *)

Lemma existsb_perm {A : Type} (f : A -> bool) l l' :
  Permutation l l' -> existsb f l = existsb f l'.
Proof.
  induction 1; simpl; auto.
  - now rewrite IHPermutation.
  - destruct (f x), (f y); reflexivity.
  - congruence.
Qed.

Section Windowing.
Variable getTime : string -> option Z.
Variable party : Transaction -> string.

Local Abbreviation windowFull := (windowFull getTime party).

Lemma temporalCluster_eq txs :
  temporalCluster getTime party txs
  = existsb (fun t => windowFull txs (getTime (timestamp t))) txs.
Proof.
  unfold temporalCluster.
  rewrite (existsb_perm _ _ _ (sortBy_perm timeLe _)).
  fold (windowFull txs). generalize (windowFull txs). intros f.
  induction txs as [|t l IH]; simpl; auto. now rewrite IH.
Qed.

Lemma window_filter_parses txs start :
  filter (fun t => inWindow start (getTime (timestamp t)))
    (filter (parses getTime) txs)
  = filter (fun t => inWindow start (getTime (timestamp t))) txs.
Proof.
  induction txs as [|t l IH]; simpl; auto.
  unfold parses at 1.
  destruct (getTime (timestamp t)) eqn:E; simpl; rewrite ?E, IH; auto.
  destruct start; reflexivity.
Qed.

Lemma windowFull_parses txs start :
  windowFull (filter (parses getTime) txs) start = windowFull txs start.
Proof. unfold windowFull. now rewrite window_filter_parses. Qed.

Lemma windowFull_NaN txs : windowFull txs None = false.
Proof.
  unfold windowFull.
  assert (E : filter (fun t => inWindow None (getTime (timestamp t))) txs = []).
  { induction txs; simpl; auto. }
  rewrite E. reflexivity.
Qed.

Lemma temporalCluster_parses txs :
  temporalCluster getTime party txs
  = temporalCluster getTime party (filter (parses getTime) txs).
Proof.
  rewrite !temporalCluster_eq.
  assert (G : forall f,
             (f None = false) ->
             existsb (fun t => f (getTime (timestamp t))) txs
             = existsb (fun t => f (getTime (timestamp t)))
                 (filter (parses getTime) txs)).
  { intros f Hf. induction txs as [|t l IH]; simpl; auto.
    unfold parses at 1.
    destruct (getTime (timestamp t)) eqn:E; simpl; rewrite ?E, ?Hf, IH; auto. }
  rewrite (G (windowFull txs) (windowFull_NaN txs)).
  generalize (filter (parses getTime) txs) at 1 3. intros l.
  induction l as [|t l IH]; simpl; auto.
  now rewrite IH, windowFull_parses.
Qed.
End Windowing.

(** C9: whatever its timestamp parses to, a transaction is stored in the
    adjacency index under its sender and receiver; the statistics of an
    account (amount sums, send and receive counts, distinct counterparties,
    total count) range over all its transactions; a hub's counterparties are
    counted over all its transactions; but the temporal-cluster flag of any
    transaction list is the flag of the transactions whose timestamp
    parses. *)
Theorem unparsable_timestamp_skips_only_windowing
    (getTime : string -> option Z) (transactions : list Transaction) :
  (forall t, In t transactions ->
     exists senderMap l,
       StrMap.get (sender_id t) (buildAdjacencyList transactions)
       = Some senderMap
       /\ StrMap.get (receiver_id t) senderMap = Some l
       /\ l = edgeTxs (sender_id t) (receiver_id t) transactions
       /\ In t l)
  /\ (forall t a, In t transactions ->
        a = sender_id t \/ a = receiver_id t ->
        exists stats,
          StrMap.get a (computeAccountStats getTime transactions) = Some stats
          /\ totalSent stats
             = fold_left Qplus
                 (map amount (txsOf sender_id a transactions)) 0%Q
          /\ totalReceived stats
             = fold_left Qplus
                 (map amount (txsOf receiver_id a transactions)) 0%Q
          /\ sendCount stats = List.length (txsOf sender_id a transactions)
          /\ receiveCount stats
             = List.length (txsOf receiver_id a transactions)
          /\ senders stats
             = StrSet.ofList (map sender_id (txsOf receiver_id a transactions))
          /\ receivers stats
             = StrSet.ofList (map receiver_id (txsOf sender_id a transactions))
          /\ totalTransactions stats
             = List.length (txsOf sender_id a transactions)
               + List.length (txsOf receiver_id a transactions))
  /\ (forall hub party h,
        StrMap.get h (detectFan getTime hub party transactions)
        = if MIN_CONNECTIONS
             <=? StrSet.size
                   (StrSet.ofList (map party (txsOf hub h transactions)))
          then Some (mkHub
                       (StrSet.ofList (map party (txsOf hub h transactions)))
                       (temporalCluster getTime party
                          (filter (parses getTime)
                             (txsOf hub h transactions))))
          else None)
  /\ (forall party txs,
        temporalCluster getTime party txs
        = temporalCluster getTime party (filter (parses getTime) txs)).
Proof.
  split; [|split; [|split]].
  - intros t Ht.
    pose proof (adjacency_edge transactions (sender_id t) (receiver_id t)) as H.
    assert (Hin : In t (edgeTxs (sender_id t) (receiver_id t) transactions)).
    { unfold edgeTxs. apply txsOf_In. split; auto. apply txsOf_In. auto. }
    destruct (StrMap.get (sender_id t) (buildAdjacencyList transactions))
      as [m|].
    + destruct (edgeTxs (sender_id t) (receiver_id t) transactions) eqn:E;
        [destruct Hin|].
      exists m. eexists. repeat split; eauto.
    + destruct (edgeTxs (sender_id t) (receiver_id t) transactions);
        [destruct Hin|discriminate].
  - intros t a Ht Ha. rewrite computeAccountStats_get.
    assert (Htouch : existsb (touches a) transactions = true).
    { apply existsb_exists. exists t. split; auto. unfold touches.
      destruct Ha as [->| ->]; rewrite String.eqb_refl; auto using orb_true_r. }
    rewrite Htouch. eexists. split; [reflexivity|].
    rewrite accountStep_totalSent, accountStep_totalReceived,
      accountStep_totalTransactions.
    destruct (accountStep_counts getTime a transactions emptyAccountStats)
      as [-> ->].
    destruct (accountStep_parties getTime a transactions emptyAccountStats)
      as [-> ->].
    repeat split; reflexivity.
  - intros hub party h. rewrite detectFan_get. unfold hubOf.
    now rewrite <- temporalCluster_parses.
  - intros party txs. apply temporalCluster_parses.
Qed.

(** ** The analysis always returns *)


Section ShellTotal.
Variable adj : Adjacency.
Variable accountStats : StatsTable.
Variable cycleNodes : StrSet.t.





End ShellTotal.


(** ** The filter and the hubs *)

(** C1 fails on the engine: smurfing detection reads the unfiltered batch,
    so the legitimate account [BANK] (a keyword name) with ten distinct
    senders is the hub, and first member, of an emitted fan-in ring; its
    node record still carries the single label [legitimate_business]. *)
Theorem legitimate_hub_in_fan_in_ring :
  exists r ring node,
    analyzeTransactions sampleGetTime bankBatch = Some r
    /\ StrSet.has "BANK" (detectLegitimateAccounts bankBatch) = true
    /\ In ring (fraud_rings r)
    /\ pattern_type ring = "fan_in"
    /\ In "BANK" (member_accounts ring)
    /\ In node (nodes r)
    /\ id node = "BANK"
    /\ patterns node = ["legitimate_business"]
    /\ suspicious node = true.
Proof.
  do 3 eexists. split; [vm_compute; reflexivity|].
  split; [vm_compute; reflexivity|].
  split; [left; reflexivity|].
  split; [reflexivity|]. split; [left; reflexivity|].
  split; [right; left; reflexivity|].
  repeat split.
Qed.

(** C2 fails on the engine: when the filter removes every transaction the
    early return writes zero totals, although [ACME_CORP_PAYROLL] sent
    ten transfers of 2000 in the unfiltered batch. *)
Theorem empty_filter_zeroes_node_totals :
  exists r node,
    analyzeTransactions sampleGetTime payrollBatch = Some r
    /\ filteredOf payrollBatch = []
    /\ In node (nodes r)
    /\ id node = "ACME_CORP_PAYROLL"
    /\ total_sent node = 0%Q
    /\ transaction_count node = 0
    /\ (Qsum (map amount (txsOf sender_id "ACME_CORP_PAYROLL" payrollBatch))
        == 20000)%Q
    /\ List.length (txsOf sender_id "ACME_CORP_PAYROLL" payrollBatch) = 10.
Proof.
  do 2 eexists. split; [vm_compute; reflexivity|].
  split; [vm_compute; reflexivity|].
  split; [left; reflexivity|].
  repeat split.
Qed.

(** C3 fails on the engine: the cycle key joins the members with [|], so
    the distinct simple 3-cycles [A -> B|C -> D -> A] and
    [A -> B -> C|D -> A] share the key [A|B|C|D] and only the first one is
    emitted. *)
Theorem cycle_key_collision_drops_cycle :
  let adj := buildAdjacencyList pipeBatch in
  SimpleCycle adj ["A"; "B|C"; "D"]
  /\ SimpleCycle adj ["A"; "B"; "C|D"]
  /\ cycleKey (normalizeCycle ["A"; "B|C"; "D"])
     = cycleKey (normalizeCycle ["A"; "B"; "C|D"])
  /\ detectCycles adj (getAllAccounts pipeBatch) = [["A"; "B|C"; "D"]]
  /\ (exists r, analyzeTransactions sampleGetTime pipeBatch = Some r
                /\ map member_accounts (fraud_rings r) = [["A"; "B|C"; "D"]]).
Proof.
  assert (Hnd : forall a b c : string,
             a <> b -> a <> c -> b <> c -> NoDup [a; b; c]).
  { intros a b c Hab Hac Hbc. repeat constructor; simpl; intuition. }
  split; [|split; [|split; [|split]]].
  - constructor; [vm_compute; auto 10|apply Hnd; discriminate
                 |simpl; lia|simpl; lia|vm_compute; auto 10].
  - constructor; [vm_compute; auto 10|apply Hnd; discriminate
                 |simpl; lia|simpl; lia|vm_compute; auto 10].
  - reflexivity.
  - vm_compute. reflexivity.
  - eexists. split; vm_compute; reflexivity.
Qed.

(** C6 fails on the engine: a hub that also sends to itself is listed twice
    in its own ring, and the deduplication key keeps the repetition, so the
    fan-in rings of [A] and [B] are both emitted although they have the
    same pattern type and the same set of members. *)
Theorem duplicate_member_set_rings :
  exists r ring1 ring2,
    analyzeTransactions sampleGetTime selfTransferBatch = Some r
    /\ fraud_rings r = [ring1; ring2]
    /\ ring_id ring1 <> ring_id ring2
    /\ pattern_type ring1 = pattern_type ring2
    /\ (forall a, In a (member_accounts ring1) <-> In a (member_accounts ring2))
    /\ ringKey ring1 <> ringKey ring2.
Proof.
  do 3 eexists. split; [vm_compute; reflexivity|].
  split; [reflexivity|]. split; [discriminate|]. split; [reflexivity|].
  split; [|vm_compute; discriminate].
  intros a. simpl. intuition.
Qed.

(** ** The theorems at the mixed batch *)

Lemma mixedBatch_analysis :
  analyzeTransactions sampleGetTime mixedBatch = Some mixedResult.
Proof. vm_compute. reflexivity. Qed.

(** Three rings are emitted; the reversed cycle is rejected and leaves no
    gap. *)
Lemma ring_ids_contiguous_witness :
  map ring_id (fraud_rings mixedResult) = ["RING_001"; "RING_002"; "RING_003"]
  /\ map ringSuffix (map ring_id (fraud_rings mixedResult))
     = [Some 1; Some 2; Some 3].
Proof.
  destruct (ring_ids_contiguous sampleGetTime mixedBatch mixedResult)
    as [H1 [H2 _]].
  - vm_compute. reflexivity.
  - split; [exact H1|exact H2].
Defined.

Lemma risk_scores_formula_and_range_witness :
  (0 <= risk_score mixedShellRing <= 100)%Q.
Proof.
  destruct (risk_scores_formula_and_range sampleGetTime mixedBatch mixedResult)
    as [_ [H _]].
  - vm_compute. reflexivity.
  - apply (H mixedShellRing). vm_compute. auto.
Defined.

Lemma shell_rings_wellformed_witness :
  3 <= List.length (member_accounts mixedShellRing)
  /\ forall a, In a (member_accounts mixedShellRing) ->
       ~ In a (member_accounts mixedCycleRing).
Proof.
  destruct (shell_rings_wellformed sampleGetTime mixedBatch mixedResult)
    with (ring := mixedShellRing) as [H1 [_ [_ H4]]].
  - vm_compute. reflexivity.
  - vm_compute. auto.
  - reflexivity.
  - split; [exact H1|]. intros a Ha.
    apply (H4 a mixedCycleRing Ha); [vm_compute; auto|reflexivity].
Defined.

Lemma ring_members_are_suspicious_witness :
  count_occ string_dec (map account_id (suspicious_accounts mixedResult)) "HUB"
  = 1.
Proof.
  destruct (ring_members_are_suspicious sampleGetTime mixedBatch mixedResult
              mixedBatch_analysis mixedFanInRing "HUB") as [H _].
  - vm_compute. auto.
  - vm_compute. auto.
  - exact H.
Defined.

(** The transfer [T07] carries a timestamp that does not parse; it is in the
    adjacency index and in the statistics of [HUB]. *)
Lemma unparsable_timestamp_skips_only_windowing_witness :
  parses sampleGetTime (tx "T07" "P01" "HUB" 10 "not-a-date") = false
  /\ exists stats,
       StrMap.get "HUB" (computeAccountStats sampleGetTime mixedBatch)
       = Some stats
       /\ receiveCount stats = 11.
Proof.
  split; [reflexivity|].
  destruct (unparsable_timestamp_skips_only_windowing sampleGetTime mixedBatch)
    as [_ [H _]].
  destruct (H (tx "T07" "P01" "HUB" 10 "not-a-date") "HUB")
    as [stats (Hs & _ & _ & _ & Hr & _)].
  - vm_compute. auto 20.
  - right. reflexivity.
  - exists stats. split; [exact Hs|]. rewrite Hr. reflexivity.
Defined.

(** ** Node totals on the main path *)

(** When the filter leaves at least one transaction, every node record
    carries the unfiltered totals of its account. *)
Theorem node_totals_unfiltered_main_path (getTime : string -> option Z)
    (transactions : list Transaction) (r : AnalysisResult) :
  analyzeTransactions getTime transactions = Some r ->
  filteredOf transactions <> [] ->
  map id (nodes r) = getAllAccounts transactions
  /\ forall node, In node (nodes r) ->
       (total_sent node
        == Qsum (map amount (txsOf sender_id (id node) transactions)))%Q
       /\ (total_received node
           == Qsum (map amount (txsOf receiver_id (id node) transactions)))%Q
       /\ transaction_count node
          = List.length (txsOf sender_id (id node) transactions)
            + List.length (txsOf receiver_id (id node) transactions).
Proof.
  intros Hr Hne.
  destruct (analyze_cases _ _ _ Hr) as [[E _]|[_ [chains [_ [_ [_ Hn]]]]]];
    [contradiction|].
  rewrite Hn. split.
  - rewrite map_map. cbn [buildNode id]. apply map_id.
  - intros node Hin. apply in_map_iff in Hin. destruct Hin as [a [<- Ha]].
    cbn [buildNode id total_sent total_received transaction_count].
    rewrite computeAccountStats_get.
    assert (Ht : existsb (touches a) transactions = true).
    { apply getAllAccounts_In in Ha. destruct Ha as [t [Ht Ha]].
      apply existsb_exists. exists t. split; auto. unfold touches.
      destruct Ha as [->| ->]; rewrite String.eqb_refl; auto using orb_true_r. }
    rewrite Ht, !orZero_eq, accountStep_totalSent, accountStep_totalReceived,
      accountStep_totalTransactions.
    repeat split; reflexivity.
Qed.

Lemma node_totals_unfiltered_main_path_witness :
  map id (nodes mixedResult) = getAllAccounts mixedBatch.
Proof.
  destruct (node_totals_unfiltered_main_path sampleGetTime mixedBatch
              mixedResult mixedBatch_analysis) as [H _].
  - vm_compute. discriminate.
  - exact H.
Defined.

(** ** Legitimate accounts outside the hubs *)

Lemma legitimate_not_filtered transactions a t :
  StrSet.has a (detectLegitimateAccounts transactions) = true ->
  In t (filteredOf transactions) ->
  sender_id t <> a /\ receiver_id t <> a.
Proof.
  unfold filteredOf, removeLegitimateTransactions. intros Ha.
  destruct (StrSet.size (detectLegitimateAccounts transactions) =? 0) eqn:Ez.
  - apply Nat.eqb_eq in Ez. unfold StrSet.size in Ez.
    apply length_zero_iff_nil in Ez. rewrite Ez in Ha. discriminate.
  - intros Ht. apply filter_In in Ht. destruct Ht as [_ Hb].
    apply andb_true_iff in Hb. rewrite !negb_true_iff in Hb.
    destruct Hb as [Hs Hr]. split; intros E; congruence.
Qed.

(** A legitimate account is in no cycle ring and in no shell ring, and its
    node record carries the single label [legitimate_business]. *)
Theorem legitimate_outside_cycles_and_chains (getTime : string -> option Z)
    (transactions : list Transaction) (r : AnalysisResult) (a : string) :
  analyzeTransactions getTime transactions = Some r ->
  StrSet.has a (detectLegitimateAccounts transactions) = true ->
  (forall ring, In ring (fraud_rings r) ->
     pattern_type ring = "cycle" \/ pattern_type ring = "shell_network" ->
     ~ In a (member_accounts ring))
  /\ (forall node, In node (nodes r) -> id node = a ->
        patterns node = ["legitimate_business"]).
Proof.
  intros Hr Hlegit.
  assert (Hnb : forall b, ~ In a (neighborsOf (adjOf transactions) b)).
  { intros b Hb. apply neighborsOf_In in Hb. destruct Hb as [t [Ht [_ E]]].
    destruct (legitimate_not_filtered _ _ _ Hlegit Ht). contradiction. }
  destruct (analyze_cases _ _ _ Hr)
    as [[_ ->]|[_ [chains [Hc [Hf [_ Hn]]]]]].
  { split; [intros ? []|].
    intros node Hin Hid. cbn [emptyResult nodes] in Hin.
    apply in_map_iff in Hin. destruct Hin as [b [<- _]]. simpl in *.
    subst b. now rewrite Hlegit. }
  pose proof (finalState_inv getTime transactions chains Hc) as Hinv.
  rewrite Hf, Hn. split.
  - intros ring Hin Hpt Ha.
    destruct (inv_origin _ _ Hinv ring Hin) as [c Hc'|h d _|h d _|c Hc'].
    + unfold cyclesOf, detectCycles in Hc'. apply dedupCycles_In in Hc'.
      destruct Hc' as [c' [Hc' ->]]. rewrite normalizeCycle_In in Ha.
      pose proof (rawCycles_sound (adjOf transactions)
                    (getAllAccounts (filteredOf transactions))) as Hs.
      rewrite Forall_forall in Hs.
      destruct (SimpleCycle_members _ _ (Hs c' Hc') a Ha) as [b Hb].
      exact (Hnb b Hb).
    + destruct Hpt; discriminate.
    + destruct Hpt; discriminate.
    + pose proof (detectShellNetworks_sound _ _ _ _ Hc) as Hok.
      rewrite Forall_forall in Hok.
      destruct (Hok c Hc') as [_ Hp _ _ _ [s [l [-> Hs]]]].
      destruct Ha as [<-|Ha].
      * apply adjacency_keys_In in Hs. destruct Hs as [t [Ht E]].
        destruct (legitimate_not_filtered _ _ _ Hlegit Ht). contradiction.
      * destruct (isPath_members _ _ _ Hp a Ha) as [b Hb]. exact (Hnb b Hb).
  - intros node Hin Hid. apply in_map_iff in Hin.
    destruct Hin as [b [<- _]]. cbn [buildNode id patterns] in *.
    subst b. now rewrite Hlegit.
Qed.

Lemma bankBatch_analysis :
  analyzeTransactions sampleGetTime bankBatch = Some bankResult.
Proof. vm_compute. reflexivity. Qed.

Lemma legitimate_outside_cycles_and_chains_witness :
  Forall
    (fun node => id node = "BANK" -> patterns node = ["legitimate_business"])
    (nodes bankResult).
Proof.
  destruct (legitimate_outside_cycles_and_chains sampleGetTime bankBatch
              bankResult "BANK" bankBatch_analysis) as [_ H].
  - vm_compute. reflexivity.
  - exact (proj2 (Forall_forall _ _) H).
Defined.

(** ** The string order and sorted member lists *)

Lemma ascii_compare_lt_trans a b c :
  Ascii.compare a b = Lt -> Ascii.compare b c = Lt -> Ascii.compare a c = Lt.
Proof.
  unfold Ascii.compare. rewrite !N.compare_lt_iff. apply N.lt_trans.
Qed.

Lemma string_compare_lt_trans : forall a b c,
  String.compare a b = Lt -> String.compare b c = Lt ->
  String.compare a c = Lt.
Proof.
  induction a as [|x a IH]; intros [|y b] [|z c]; simpl; try congruence.
  intros H1 H2.
  destruct (Ascii.compare x y) eqn:Exy; try discriminate;
    destruct (Ascii.compare y z) eqn:Eyz; try discriminate.
  - apply Ascii.compare_eq_iff in Exy, Eyz. subst.
    unfold Ascii.compare. rewrite N.compare_refl. eauto.
  - apply Ascii.compare_eq_iff in Exy. subst. now rewrite Eyz.
  - apply Ascii.compare_eq_iff in Eyz. subst. now rewrite Exy.
  - now rewrite (ascii_compare_lt_trans _ _ _ Exy Eyz).
Qed.

Lemma string_compare_refl a : String.compare a a = Eq.
Proof.
  induction a as [|x a IH]; simpl; auto.
  unfold Ascii.compare. now rewrite N.compare_refl.
Qed.

Lemma string_leb_cases a b :
  String.leb a b = true <-> String.compare a b = Lt \/ a = b.
Proof.
  unfold String.leb. destruct (String.compare a b) eqn:E.
  - apply String.compare_eq_iff in E. tauto.
  - tauto.
  - split; [discriminate|]. intros [C|C]; [discriminate C|].
    subst. rewrite string_compare_refl in E. discriminate E.
Qed.

Lemma string_leb_trans a b c :
  String.leb a b = true -> String.leb b c = true -> String.leb a c = true.
Proof.
  rewrite !string_leb_cases. intros [H1| ->] [H2| ->]; auto.
  left. eapply string_compare_lt_trans; eauto.
Qed.

Lemma insertSorted_sorted x l :
  StronglySorted leS l -> StronglySorted leS (insertSorted String.leb x l).
Proof.
  induction 1 as [|y l Hs IH Hy]; simpl.
  - constructor; constructor.
  - destruct (String.leb x y) eqn:E.
    + constructor; [constructor; auto|].
      constructor; [exact E|].
      rewrite Forall_forall in *. intros z Hz.
      eapply string_leb_trans; [exact E|]. now apply Hy.
    + constructor; auto.
      assert (Hyx : leS y x).
      { destruct (String.leb_total x y) as [C|C]; [congruence|exact C]. }
      rewrite Forall_forall in *. intros z Hz.
      apply (Permutation_in _ (insertSorted_perm String.leb x l)) in Hz.
      destruct Hz as [<-|Hz]; auto.
Qed.

Lemma sortStrings_sorted l : StronglySorted leS (sortStrings l).
Proof.
  unfold sortStrings. induction l as [|x l IH]; simpl.
  - constructor.
  - now apply insertSorted_sorted.
Qed.

Lemma sorted_perm_eq : forall l l',
  StronglySorted leS l -> StronglySorted leS l' -> Permutation l l' -> l = l'.
Proof.
  induction l as [|a l IH]; intros l' Hs Hs' Hp.
  - apply Permutation_nil in Hp. now subst.
  - destruct l' as [|b l'].
    + apply Permutation_sym, Permutation_nil in Hp. discriminate.
    + inversion Hs as [|? ? Hsl Ha]; subst.
      inversion Hs' as [|? ? Hsl' Hb]; subst.
      rewrite Forall_forall in Ha, Hb.
      assert (E : a = b).
      { assert (Hab : In a (b :: l')) by (eapply Permutation_in; eauto; simpl; auto).
        assert (Hba : In b (a :: l)).
        { eapply Permutation_in; [apply Permutation_sym; eauto|simpl; auto]. }
        destruct Hab as [->|Hab]; auto. destruct Hba as [->|Hba]; auto.
        apply String.leb_antisym; [now apply Ha|now apply Hb]. }
      subst b. f_equal. apply IH; auto.
      eapply Permutation_cons_inv; eauto.
Qed.

Lemma sortStrings_perm l l' :
  Permutation l l' -> sortStrings l = sortStrings l'.
Proof.
  intros Hp. apply sorted_perm_eq; try apply sortStrings_sorted.
  unfold sortStrings.
  eapply perm_trans; [apply sortBy_perm|].
  eapply perm_trans; [exact Hp|]. apply Permutation_sym, sortBy_perm.
Qed.

(** Two duplicate-free member lists with the same elements have the same
    deduplication key. *)
Lemma ringKey_same_set members members' patternType :
  NoDup members -> NoDup members' ->
  (forall a, In a members <-> In a members') ->
  makeRingDeduplicationKey members patternType
  = makeRingDeduplicationKey members' patternType.
Proof.
  intros Hn Hn' Hset. unfold makeRingDeduplicationKey. cbv zeta.
  now rewrite (sortStrings_perm members members')
    by (apply NoDup_Permutation; auto).
Qed.

(** ** Distinct rings *)

Lemma normalizeCycle_NoDup cycle : NoDup cycle -> NoDup (normalizeCycle cycle).
Proof.
  intros H. unfold normalizeCycle.
  eapply Permutation_NoDup; [|exact H].
  rewrite <- (firstn_skipn (indexOf (minMember cycle) cycle) cycle) at 1.
  apply Permutation_app_comm.
Qed.

Lemma ring_members_NoDup getTime transactions chains ring :
  chainsOf getTime transactions = Some chains ->
  (forall t, In t transactions -> sender_id t <> receiver_id t) ->
  In ring (fraudRings (finalStateOf getTime transactions chains)) ->
  NoDup (member_accounts ring).
Proof.
  intros Hc Hself Hin.
  pose proof (finalState_inv getTime transactions chains Hc) as Hinv.
  assert (Hhub : forall hub party h data,
             (forall t, In t transactions -> hub t <> party t) ->
             In (h, data) (detectFan getTime hub party transactions) ->
             NoDup (h :: counterparties data)).
  { intros hub party h data Hne Hd. apply detectFan_In in Hd.
    destruct Hd as [_ ->]. cbn [hubOf counterparties].
    constructor; [|apply StrSetFacts.ofList_NoDup].
    intros Hh. apply StrSetFacts.ofList_In, in_map_iff in Hh.
    destruct Hh as [t [E Ht]]. apply txsOf_In in Ht. destruct Ht as [Ht Eh].
    apply (Hne t Ht). congruence. }
  destruct (inv_origin _ _ Hinv ring Hin) as [c Hc'|h d Hd|h d Hd|c Hc'].
  - unfold cyclesOf, detectCycles in Hc'. apply dedupCycles_In in Hc'.
    destruct Hc' as [c' [Hc' ->]]. apply normalizeCycle_NoDup.
    pose proof (rawCycles_sound (adjOf transactions)
                  (getAllAccounts (filteredOf transactions))) as Hs.
    rewrite Forall_forall in Hs. apply (Hs c' Hc').
  - apply (Hhub receiver_id sender_id h d); auto.
    intros t Ht E. apply (Hself t Ht). now symmetry.
  - apply (Hhub sender_id receiver_id h d); auto.
  - pose proof (detectShellNetworks_sound _ _ _ _ Hc) as Hok.
    rewrite Forall_forall in Hok. apply (Hok c Hc').
Qed.

Lemma ring_keys_NoDup (getTime : string -> option Z)
    (transactions : list Transaction) (r : AnalysisResult) :
  analyzeTransactions getTime transactions = Some r ->
  NoDup (map ringKey (fraud_rings r)).
Proof.
  intros Hr.
  destruct (analyze_cases _ _ _ Hr) as [[_ ->]|[_ [chains [Hc [Hf _]]]]].
  - constructor.
  - rewrite Hf.
    apply (inv_distinct _ _ (finalState_inv getTime transactions chains Hc)).
Qed.

(** No two emitted rings have the same deduplication key. *)
Theorem emitted_rings_distinct_keys (getTime : string -> option Z)
    (transactions : list Transaction) (r : AnalysisResult) :
  analyzeTransactions getTime transactions = Some r ->
  NoDup (map ringKey (fraud_rings r)).
Proof. apply ring_keys_NoDup. Qed.

Lemma emitted_rings_distinct_keys_witness :
  NoDup (map ringKey (fraud_rings mixedResult)).
Proof.
  apply (emitted_rings_distinct_keys sampleGetTime mixedBatch mixedResult).
  vm_compute. reflexivity.
Defined.

(** In a batch without self-transfers every member list is duplicate-free
    and two rings at different positions differ in their pattern type or
    in their set of members. *)
Theorem distinct_member_sets_without_self_transfers
    (getTime : string -> option Z) (transactions : list Transaction)
    (r : AnalysisResult) :
  analyzeTransactions getTime transactions = Some r ->
  (forall t, In t transactions -> sender_id t <> receiver_id t) ->
  (forall ring, In ring (fraud_rings r) -> NoDup (member_accounts ring))
  /\ forall i j ring1 ring2,
       i <> j ->
       nth_error (fraud_rings r) i = Some ring1 ->
       nth_error (fraud_rings r) j = Some ring2 ->
       pattern_type ring1 = pattern_type ring2 ->
       ~ (forall a, In a (member_accounts ring1)
                    <-> In a (member_accounts ring2)).
Proof.
  intros Hr Hself.
  pose proof (ring_keys_NoDup _ _ _ Hr) as Hkeys.
  destruct (analyze_cases _ _ _ Hr) as [[_ ->]|[_ [chains [Hc [Hf _]]]]].
  { split; [intros ? []|]. intros [|i] j ? ? _ H; discriminate H. }
  rewrite Hf in *.
  assert (Hnd : forall ring,
             In ring (fraudRings (finalStateOf getTime transactions chains)) ->
             NoDup (member_accounts ring)).
  { intros ring Hin. eapply ring_members_NoDup; eauto. }
  split; [exact Hnd|].
  intros i j ring1 ring2 Hij H1 H2 Hpt Hset.
  apply Hij.
  apply (proj1 (NoDup_nth_error _) Hkeys).
  - rewrite length_map. apply nth_error_Some. congruence.
  - rewrite !nth_error_map, H1, H2. simpl. f_equal.
    unfold ringKey. rewrite Hpt.
    apply ringKey_same_set; auto; apply Hnd; eapply nth_error_In; eauto.
Qed.

Lemma distinct_member_sets_without_self_transfers_witness :
  Forall (fun ring => NoDup (member_accounts ring)) (fraud_rings mixedResult).
Proof.
  destruct (distinct_member_sets_without_self_transfers sampleGetTime
              mixedBatch mixedResult mixedBatch_analysis) as [H _].
  - intros t Ht. vm_compute in Ht.
    repeat (destruct Ht as [<-|Ht]; [discriminate|]). destruct Ht.
  - exact (proj2 (Forall_forall _ _) H).
Defined.

(** ** Canonical rotations *)

Lemma leS_refl a : leS a a.
Proof. apply string_leb_cases. auto. Qed.

Lemma ltb_leS a b : String.ltb a b = true -> leS a b.
Proof.
  unfold String.ltb. intros H. apply string_leb_cases.
  destruct (String.compare a b); try discriminate. auto.
Qed.

Lemma not_ltb_leS a b : String.ltb a b = false -> leS b a.
Proof.
  unfold String.ltb, leS, String.leb. rewrite (String.compare_antisym b a).
  destruct (String.compare a b); simpl; congruence.
Qed.

Lemma pick_least l : forall x,
  let r := fold_left (fun a b => if String.ltb a b then a else b) l x in
  In r (x :: l) /\ forall y, In y (x :: l) -> leS r y.
Proof.
  induction l as [|b l IH]; intros x; simpl.
  - split; auto. intros y [<-|[]]. apply leS_refl.
  - destruct (IH (if String.ltb x b then x else b)) as [Hin Hle].
    simpl in Hin, Hle. split.
    + destruct Hin as [Hin|Hin]; auto.
      destruct (String.ltb x b); auto.
    + intros y Hy.
      assert (Hp : leS (fold_left
                          (fun a b => if String.ltb a b then a else b) l
                          (if String.ltb x b then x else b))
                     (if String.ltb x b then x else b)) by auto.
      destruct Hy as [<-|[<-|Hy]]; auto.
      * eapply string_leb_trans; [exact Hp|].
        destruct (String.ltb x b) eqn:E;
          [apply leS_refl|now apply not_ltb_leS].
      * eapply string_leb_trans; [exact Hp|].
        destruct (String.ltb x b) eqn:E;
          [now apply ltb_leS|apply leS_refl].
Qed.

Lemma minMember_least l :
  l <> [] -> In (minMember l) l /\ forall y, In y l -> leS (minMember l) y.
Proof.
  destruct l as [|x l]; [congruence|]. intros _. apply pick_least.
Qed.

Lemma least_unique l m :
  In m l -> (forall y, In y l -> leS m y) -> m = minMember l.
Proof.
  intros Hin Hle. destruct l as [|x l]; [destruct Hin|].
  destruct (minMember_least (x :: l)) as [Hin' Hle']; [discriminate|].
  apply String.leb_antisym; [now apply Hle|now apply Hle'].
Qed.

Lemma indexOf_split p m q : ~ In m p -> indexOf m (p ++ m :: q) = List.length p.
Proof.
  induction p as [|a p IH]; simpl; intros Hm.
  - now rewrite String.eqb_refl.
  - destruct (String.eqb_spec a m) as [->|_]; [exfalso; auto|].
    f_equal. apply IH. auto.
Qed.

Lemma normalizeCycle_split p m q :
  NoDup (p ++ m :: q) -> (forall y, In y (p ++ m :: q) -> leS m y) ->
  normalizeCycle (p ++ m :: q) = m :: q ++ p.
Proof.
  intros Hnd Hle. unfold normalizeCycle.
  rewrite <- (least_unique (p ++ m :: q) m); auto.
  2: { apply in_app_iff. simpl. auto. }
  rewrite indexOf_split.
  - rewrite skipn_app, firstn_app, Nat.sub_diag, skipn_all, firstn_all.
    simpl. now rewrite app_nil_r.
  - apply NoDup_remove_2 in Hnd. intros H. apply Hnd, in_app_iff. auto.
Qed.

Lemma rotate_perm n l : Permutation (rotate n l) l.
Proof.
  unfold rotate. rewrite <- (firstn_skipn n l) at 3.
  apply Permutation_app_comm.
Qed.

Lemma normalizeCycle_rotate n l :
  NoDup l -> normalizeCycle (rotate n l) = normalizeCycle l.
Proof.
  intros Hnd. destruct l as [|x l'] eqn:El.
  { unfold rotate. now rewrite skipn_nil, firstn_nil. }
  rewrite <- El in *. assert (Hne : l <> []) by (subst; discriminate).
  clear El x l'.
  destruct (minMember_least l Hne) as [Hin Hle].
  set (m := minMember l) in *.
  apply in_split in Hin. destruct Hin as [p [q E]].
  assert (Hrot : exists p' q',
             rotate n l = p' ++ m :: q' /\ q' ++ p' = q ++ p).
  { unfold rotate. rewrite E.
    destruct (Nat.le_gt_cases n (List.length p)) as [Hn|Hn].
    - exists (skipn n p), (q ++ firstn n p).
      rewrite skipn_app, firstn_app.
      replace (n - List.length p) with 0 by lia. simpl.
      rewrite <- !app_assoc, firstn_skipn, app_nil_r. simpl. auto.
    - exists (skipn (n - S (List.length p)) q ++ p),
        (firstn (n - S (List.length p)) q).
      rewrite skipn_app, firstn_app.
      rewrite (skipn_all2 (n:=n) p) by lia.
      rewrite (firstn_all2 (n:=n) p) by lia.
      replace (n - List.length p) with (S (n - S (List.length p))) by lia.
      simpl. rewrite <- !app_assoc. simpl.
      split; auto. now rewrite app_assoc, firstn_skipn. }
  destruct Hrot as [p' [q' [Er Eq]]].
  rewrite Er, E.
  rewrite !normalizeCycle_split; try congruence.
  - intros y Hy. apply Hle. now rewrite E.
  - rewrite <- Er. eapply Permutation_NoDup; [|exact Hnd].
    apply Permutation_sym, rotate_perm.
  - intros y Hy. apply Hle. rewrite <- Er in Hy.
    eapply Permutation_in; [apply rotate_perm|exact Hy].
Qed.

Lemma normalizeCycle_is_rotate l :
  normalizeCycle l = rotate (indexOf (minMember l) l) l.
Proof. reflexivity. Qed.

Lemma normalizeCycle_idem l :
  NoDup l -> normalizeCycle (normalizeCycle l) = normalizeCycle l.
Proof.
  intros H. rewrite (normalizeCycle_is_rotate l) at 1.
  now apply normalizeCycle_rotate.
Qed.

(** The canonical form starts with the least member. *)
Lemma normalizeCycle_hd l :
  NoDup l -> l <> [] -> hd "" (normalizeCycle l) = minMember l.
Proof.
  intros Hnd Hne. destruct (minMember_least l Hne) as [Hin Hle].
  apply in_split in Hin. destruct Hin as [p [q E]].
  rewrite E at 1. rewrite normalizeCycle_split.
  - reflexivity.
  - now rewrite <- E.
  - intros y Hy. apply Hle. now rewrite E.
Qed.

(** ** Rotations of a cycle *)

Lemma isPath_app adj l1 l2 :
  l1 <> [] -> l2 <> [] ->
  (isPath adj (l1 ++ l2) <->
   isPath adj l1 /\ isPath adj l2
   /\ In (hd "" l2) (neighborsOf adj (last l1 ""))).
Proof.
  intros H1 H2. induction l1 as [|a l1 IH]; [congruence|].
  destruct l1 as [|a' l1].
  - destruct l2 as [|b l2]; [congruence|]. simpl. tauto.
  - change (isPath adj ((a :: a' :: l1) ++ l2))
      with (In a' (neighborsOf adj a) /\ isPath adj ((a' :: l1) ++ l2)).
    change (isPath adj (a :: a' :: l1))
      with (In a' (neighborsOf adj a) /\ isPath adj (a' :: l1)).
    change (last (a :: a' :: l1) "") with (last (a' :: l1) "").
    rewrite IH by discriminate. tauto.
Qed.

Lemma last_app_r (l1 l2 : list string) :
  l2 <> [] -> last (l1 ++ l2) "" = last l2 "".
Proof.
  intros H. destruct (exists_last H) as [l [x ->]].
  now rewrite app_assoc, !last_last.
Qed.

Lemma hd_app_l (l1 l2 : list string) :
  l1 <> [] -> hd "" (l1 ++ l2) = hd "" l1.
Proof. destruct l1; [congruence|reflexivity]. Qed.

Lemma SimpleCycle_rotate adj n c :
  SimpleCycle adj c -> SimpleCycle adj (rotate n c).
Proof.
  intros [Hp Hnd Hmin Hmax Hclose]. unfold rotate.
  pose proof (firstn_skipn n c) as E.
  destruct (firstn n c) as [|a p] eqn:Ep.
  { simpl in E. rewrite E, app_nil_r. now constructor. }
  destruct (skipn n c) as [|b q] eqn:Eq.
  { rewrite app_nil_r in E. simpl. rewrite E. now constructor. }
  rewrite <- E in Hp, Hnd, Hmin, Hmax, Hclose.
  apply isPath_app in Hp; try discriminate. destruct Hp as (Hp1 & Hp2 & Hmid).
  rewrite last_app_r, hd_app_l in Hclose by discriminate.
  constructor.
  - apply isPath_app; try discriminate. auto.
  - eapply Permutation_NoDup; [apply Permutation_app_comm|exact Hnd].
  - rewrite length_app, Nat.add_comm, <- length_app. exact Hmin.
  - rewrite length_app, Nat.add_comm, <- length_app. exact Hmax.
  - rewrite last_app_r, hd_app_l by discriminate. exact Hmid.
Qed.

Lemma SimpleCycle_normalize adj c :
  SimpleCycle adj c -> SimpleCycle adj (normalizeCycle c).
Proof. rewrite normalizeCycle_is_rotate. apply SimpleCycle_rotate. Qed.

(** ** The cycle key on identifiers without the separator *)

Lemma hasPipe_app a b : hasPipe (a ++ b) = hasPipe a || hasPipe b.
Proof.
  induction a as [|c a IH]; simpl; auto. now rewrite IH, orb_assoc.
Qed.

Lemma append_pipe_inj : forall x x' r r',
  hasPipe x = false -> hasPipe x' = false ->
  (x ++ String "|" r)%string = (x' ++ String "|" r')%string ->
  x = x' /\ r = r'.
Proof.
  induction x as [|c x IH]; intros [|c' x'] r r' Hx Hx'; simpl in *.
  - intros [= ->]. auto.
  - intros [= <- _]. discriminate.
  - intros [= -> _]. discriminate.
  - intros [= -> E]. apply orb_false_iff in Hx, Hx'.
    destruct (IH x' r r') as [-> ->]; tauto.
Qed.

Lemma join_cons2 x y l :
  join "|" (x :: y :: l) = (x ++ String "|" (join "|" (y :: l)))%string.
Proof. reflexivity. Qed.

Lemma join_pipe_inj : forall l l',
  l <> [] -> l' <> [] ->
  Forall (fun s => hasPipe s = false) l ->
  Forall (fun s => hasPipe s = false) l' ->
  join "|" l = join "|" l' -> l = l'.
Proof.
  induction l as [|x l IH]; intros [|x' l'] Hl Hl' Hf Hf' E; try congruence.
  inversion Hf as [|? ? Hx Hfl]; subst.
  inversion Hf' as [|? ? Hx' Hfl']; subst.
  destruct l as [|y l], l' as [|y' l'].
  - simpl in E. now subst.
  - rewrite join_cons2 in E. simpl in E. subst x.
    rewrite hasPipe_app in Hx. simpl in Hx.
    rewrite orb_true_r in Hx. discriminate.
  - rewrite join_cons2 in E. simpl in E. subst x'.
    rewrite hasPipe_app in Hx'. simpl in Hx'.
    rewrite orb_true_r in Hx'. discriminate.
  - rewrite !join_cons2 in E.
    destruct (append_pipe_inj _ _ _ _ Hx Hx' E) as [-> E'].
    f_equal. apply IH; auto; discriminate.
Qed.

(** ** The cycle search finds every simple cycle *)

Lemma fold_left_incl {A : Type} (f : list (list string) -> A -> list (list string))
    (l : list A) :
  (forall acc x, incl acc (f acc x)) ->
  forall acc, incl acc (fold_left f l acc).
Proof.
  intros Hf. induction l as [|x l IH]; intros acc; simpl.
  - apply incl_refl.
  - eapply incl_tran; [apply Hf|apply IH].
Qed.

Lemma fold_left_reach {A : Type}
    (f : list (list string) -> A -> list (list string)) (l : list A) n p :
  (forall acc x, incl acc (f acc x)) ->
  In n l -> (forall acc, In p (f acc n)) ->
  forall acc, In p (fold_left f l acc).
Proof.
  intros Hf Hn Hp. induction l as [|x l IH]; intros acc; [destruct Hn|].
  simpl. destruct Hn as [->|Hn].
  - apply (fold_left_incl f l Hf). apply Hp.
  - now apply IH.
Qed.

Section CycleComplete.
Variable adj : Adjacency.

Lemma cycleDfs_incl startNode budget : forall current path visited cycles,
  incl cycles (cycleDfs adj startNode budget current path visited cycles).
Proof.
  induction budget as [|budget IH]; intros current path visited cycles;
    cbn [cycleDfs]; [apply incl_refl|].
  apply fold_left_incl. intros acc neighbor.
  destruct (_ && _); [apply incl_appl, incl_refl|].
  destruct (_ && _); [apply IH|apply incl_refl].
Qed.

Lemma cycleDfs_complete startNode ext : forall budget current path visited
    cycles,
  isPath adj (current :: ext) ->
  NoDup ext ->
  (forall x, In x ext -> ~ In x (StrSet.add current visited)) ->
  In startNode (StrSet.add current visited) ->
  In startNode (neighborsOf adj (last (current :: ext) "")) ->
  3 <= (6 - budget) + List.length ext ->
  (6 - budget) + List.length ext <= 5 ->
  1 <= budget <= 5 ->
  In (path ++ current :: ext)
    (cycleDfs adj startNode budget current path visited cycles).
Proof.
  induction ext as [|x ext IH];
    intros budget current path visited cycles Hp Hnd Hfresh Hstart Hclose
      Hmin Hmax Hb;
    (destruct budget as [|budget]; [lia|]); cbn [cycleDfs].
  - (* the path closes here *)
    simpl in Hclose.
    apply (fold_left_reach _ _ startNode); auto.
    + intros acc neighbor.
      destruct (_ && _); [apply incl_appl, incl_refl|].
      destruct (_ && _); [apply cycleDfs_incl|apply incl_refl].
    + intros acc. rewrite String.eqb_refl.
      cbn [List.length] in Hmin.
      assert (Hd : (3 <=? 6 - S budget) = true) by (apply Nat.leb_le; lia).
      rewrite Hd. cbn [andb].
      apply in_app_iff. right. simpl. auto.
  - (* one more step, through [x] *)
    destruct Hp as [Hx Hp].
    assert (Hxs : x <> startNode).
    { intros ->. apply (Hfresh startNode); simpl; auto. }
    apply (fold_left_reach _ _ x); auto.
    + intros acc neighbor.
      destruct (_ && _); [apply incl_appl, incl_refl|].
      destruct (_ && _); [apply cycleDfs_incl|apply incl_refl].
    + intros acc. apply String.eqb_neq in Hxs. rewrite Hxs. cbn [andb].
      assert (Hv : StrSet.has x (StrSet.add current visited) = false).
      { apply StrSetFacts.has_false. apply Hfresh. simpl. auto. }
      rewrite Hv. cbn [negb andb].
      cbn [List.length] in Hmax, Hmin.
      assert (Hd : (6 - S budget <? 5) = true) by (apply Nat.ltb_lt; lia).
      rewrite Hd.
      replace (path ++ current :: x :: ext)
        with ((path ++ [current]) ++ x :: ext)
        by (now rewrite <- app_assoc).
      inversion Hnd as [|? ? Hxe Hnd']; subst.
      apply IH; auto.
      * intros y Hy Hin. apply StrSetFacts.add_In in Hin.
        destruct Hin as [->|Hin]; [contradiction|].
        apply (Hfresh y); simpl; auto.
      * apply StrSetFacts.add_In. auto.
      * lia.
      * lia.
      * lia.
Qed.

Lemma rawCycles_complete allAccounts c :
  SimpleCycle adj c -> In (hd "" c) allAccounts ->
  In c (rawCycles adj allAccounts).
Proof.
  intros [Hp Hnd Hmin Hmax Hclose] Hhd. unfold rawCycles.
  destruct c as [|s ext]; [simpl in Hmin; lia|]. simpl in Hhd.
  apply (fold_left_reach _ _ s); auto.
  - intros acc x. apply cycleDfs_incl.
  - intros acc. change (s :: ext) with ([] ++ s :: ext).
    inversion Hnd as [|? ? Hs Hnd']; subst.
    cbn [List.length] in Hmin, Hmax.
    apply cycleDfs_complete; auto; try lia.
    + intros x Hx Hin. apply StrSetFacts.add_In in Hin.
      destruct Hin as [->|[]]. contradiction.
    + apply StrSetFacts.add_In. auto.
Qed.
End CycleComplete.

(** ** Deduplication of the recorded cycles *)

Lemma dedupCycles_eq cycles :
  dedupCycles cycles = fst (fold_left dedupStep cycles ([], [])).
Proof.
  unfold dedupCycles. f_equal. generalize (@nil (list string), @nil string).
  induction cycles as [|c l IH]; intros [uc seen]; simpl; auto.
Qed.

Lemma dedup_fold cycles : forall uc seen,
  seen = map cycleKey uc -> NoDup seen ->
  let st := fold_left dedupStep cycles (uc, seen) in
  snd st = map cycleKey (fst st)
  /\ NoDup (snd st)
  /\ incl seen (snd st)
  /\ forall c, In c cycles -> In (cycleKey (normalizeCycle c)) (snd st).
Proof.
  induction cycles as [|c l IH]; intros uc seen Hs Hnd; simpl.
  - repeat split; auto using incl_refl. intros c [].
  - destruct (StrSet.has (cycleKey (normalizeCycle c)) seen) eqn:E; simpl.
    + destruct (IH uc seen Hs Hnd) as (H1 & H2 & H3 & H4).
      repeat split; auto. intros c' [<-|Hc']; auto.
      apply H3. now apply StrSetFacts.set_has_In.
    + assert (Hadd : StrSet.add (cycleKey (normalizeCycle c)) seen
                     = seen ++ [cycleKey (normalizeCycle c)]).
      { unfold StrSet.add. now rewrite E. }
      destruct (IH (uc ++ [normalizeCycle c])
                  (StrSet.add (cycleKey (normalizeCycle c)) seen))
        as (H1 & H2 & H3 & H4).
      * rewrite Hadd, map_app, Hs. reflexivity.
      * now apply StrSetFacts.add_NoDup.
      * repeat split; auto.
        -- intros k Hk. apply H3, StrSetFacts.add_In. auto.
        -- intros c' [<-|Hc']; auto.
           apply H3, StrSetFacts.add_In. auto.
Qed.

Lemma dedupCycles_keys_NoDup cycles :
  NoDup (map cycleKey (dedupCycles cycles)).
Proof.
  rewrite dedupCycles_eq.
  destruct (dedup_fold cycles [] [] eq_refl (NoDup_nil _)) as (H1 & H2 & _).
  now rewrite <- H1.
Qed.

Lemma dedupCycles_covers cycles c :
  In c cycles ->
  exists u, In u (dedupCycles cycles)
            /\ cycleKey u = cycleKey (normalizeCycle c).
Proof.
  intros Hc. rewrite dedupCycles_eq.
  destruct (dedup_fold cycles [] [] eq_refl (NoDup_nil _)) as (H1 & _ & _ & H4).
  specialize (H4 c Hc). rewrite H1 in H4. apply in_map_iff in H4.
  destruct H4 as [u [E Hu]]. eauto.
Qed.

(** ** Cycle detection: sound, and exact without the separator *)

Lemma reversal_differs c :
  NoDup c -> 3 <= List.length c ->
  normalizeCycle c <> normalizeCycle (rev c).
Proof.
  intros Hnd Hlen.
  assert (Hne : c <> []) by (intros ->; simpl in Hlen; lia).
  destruct (minMember_least c Hne) as [Hin Hle].
  set (m := minMember c) in *.
  apply in_split in Hin. destruct Hin as [p [q E]].
  assert (Erev : rev c = rev q ++ m :: rev p).
  { rewrite E, rev_app_distr. simpl. now rewrite <- app_assoc. }
  rewrite E at 1. rewrite Erev.
  rewrite !normalizeCycle_split.
  - intros [= Eq]. rewrite <- rev_app_distr in Eq.
    assert (Hnd' : NoDup (q ++ p)).
    { rewrite E in Hnd. apply NoDup_remove_1 in Hnd.
      eapply Permutation_NoDup; [apply Permutation_app_comm|exact Hnd]. }
    assert (Hlen' : 2 <= List.length (q ++ p)).
    { rewrite E, length_app in Hlen. simpl in Hlen.
      rewrite length_app. lia. }
    destruct (q ++ p) as [|a t]; [simpl in Hlen'; lia|].
    destruct (rev t) as [|b r] eqn:Et.
    { apply (f_equal (@List.length string)) in Et.
      rewrite length_rev in Et. simpl in *. lia. }
    simpl in Eq. rewrite Et in Eq. simpl in Eq. injection Eq as <- _.
    apply NoDup_cons_iff in Hnd'. destruct Hnd' as [Ha _]. apply Ha.
    apply in_rev. rewrite Et. simpl. auto.
  - rewrite <- Erev. eapply Permutation_NoDup; [|exact Hnd].
    apply Permutation_rev.
  - intros y Hy. apply Hle. rewrite <- Erev in Hy. now apply in_rev.
  - now rewrite <- E.
  - intros y Hy. apply Hle. now rewrite E.
Qed.

Lemma detectCycles_In (adj : Adjacency) (allAccounts : StrSet.t)
    (u : list string) :
  In u (detectCycles adj allAccounts) ->
  SimpleCycle adj u
  /\ (exists c, In c (rawCycles adj allAccounts) /\ u = normalizeCycle c)
  /\ normalizeCycle u = u
  /\ hd "" u = minMember u.
Proof.
  intros Hu. unfold detectCycles in Hu. apply dedupCycles_In in Hu.
  destruct Hu as [c [Hc ->]].
  pose proof (rawCycles_sound adj allAccounts) as Hs.
  rewrite Forall_forall in Hs. specialize (Hs c Hc).
  assert (Hnd : NoDup c) by apply Hs.
  split; [now apply SimpleCycle_normalize|]. split; [eauto|].
  split; [now apply normalizeCycle_idem|].
  rewrite <- (normalizeCycle_idem c Hnd) at 1.
  rewrite normalizeCycle_hd.
  - reflexivity.
  - now apply normalizeCycle_NoDup.
  - intros E. apply (f_equal (@List.length string)) in E.
    pose proof (cyc_min _ _ (SimpleCycle_normalize adj c Hs)) as Hmin.
    rewrite E in Hmin. simpl in Hmin. lia.
Qed.

(** Every emitted cycle is a simple directed cycle of 3 to 5 nodes of the
    graph, listed from its least member. *)
Theorem detectCycles_sound (adj : Adjacency) (allAccounts : StrSet.t)
    (u : list string) :
  In u (detectCycles adj allAccounts) ->
  SimpleCycle adj u
  /\ (exists c, In c (rawCycles adj allAccounts) /\ u = normalizeCycle c)
  /\ normalizeCycle u = u
  /\ hd "" u = minMember u.
Proof. apply detectCycles_In. Qed.

Lemma detectCycles_sound_witness :
  SimpleCycle (buildAdjacencyList scenarioA) ["A"; "B"; "C"].
Proof.
  apply (detectCycles_sound (buildAdjacencyList scenarioA)
           (getAllAccounts scenarioA) ["A"; "B"; "C"]).
  vm_compute. auto.
Defined.

(** On a batch whose account identifiers do not contain the character [|],
    the detector emits the canonical form of every simple directed cycle of
    3 to 5 nodes, emits no list twice, and tells a cycle from its
    reversal. *)
Theorem detectCycles_exact_without_separator
    (transactions : list Transaction) :
  let adj := buildAdjacencyList transactions in
  let allAccounts := getAllAccounts transactions in
  (forall a, In a allAccounts -> hasPipe a = false) ->
  (forall c, SimpleCycle adj c ->
     In (normalizeCycle c) (detectCycles adj allAccounts))
  /\ NoDup (detectCycles adj allAccounts)
  /\ (forall c n, SimpleCycle adj c ->
        normalizeCycle (rotate n c) = normalizeCycle c)
  /\ (forall c, SimpleCycle adj c -> SimpleCycle adj (rev c) ->
        normalizeCycle c <> normalizeCycle (rev c)
        /\ In (normalizeCycle c) (detectCycles adj allAccounts)
        /\ In (normalizeCycle (rev c)) (detectCycles adj allAccounts)).
Proof.
  intros adj allAccounts Hpipe.
  assert (Hnode : forall c, SimpleCycle adj c ->
                    forall a, In a c -> In a allAccounts).
  { intros c Hc a Ha. destruct (SimpleCycle_members _ _ Hc a Ha) as [b Hb].
    apply neighborsOf_In in Hb. destruct Hb as [t [Ht [_ <-]]].
    now apply endpoints_in_universe. }
  assert (Hfree : forall c, SimpleCycle adj c ->
                    Forall (fun s => hasPipe s = false) c).
  { intros c Hc. apply Forall_forall. intros a Ha.
    apply Hpipe. eapply Hnode; eauto. }
  assert (Hne : forall c, SimpleCycle adj c -> c <> []).
  { intros c Hc ->. pose proof (cyc_min _ _ Hc) as H. simpl in H. lia. }
  assert (Hcomplete : forall c, SimpleCycle adj c ->
                        In (normalizeCycle c) (detectCycles adj allAccounts)).
  { intros c Hc.
    assert (Hraw : In c (rawCycles adj allAccounts)).
    { apply rawCycles_complete; auto. apply (Hnode c Hc).
      destruct c; [exfalso; now apply (Hne [])|simpl; auto]. }
    destruct (dedupCycles_covers _ _ Hraw) as [u [Hu Ekey]].
    assert (Hsu : SimpleCycle adj u) by (now apply detectCycles_In in Hu).
    replace (normalizeCycle c) with u; auto.
    apply join_pipe_inj; auto.
    - apply Hne, SimpleCycle_normalize, Hc.
    - apply Hfree, SimpleCycle_normalize, Hc. }
  split; [exact Hcomplete|]. split; [|split].
  - eapply NoDup_map_inv. apply dedupCycles_keys_NoDup.
  - intros c n Hc. apply normalizeCycle_rotate. apply Hc.
  - intros c Hc Hrev. split; [|split]; auto.
    apply reversal_differs; [apply Hc|apply (cyc_min _ _ Hc)].
Qed.

Lemma detectCycles_exact_without_separator_witness :
  In ["A"; "B"; "C"]
    (detectCycles (buildAdjacencyList mixedBatch) (getAllAccounts mixedBatch))
  /\ In ["A"; "C"; "B"]
       (detectCycles (buildAdjacencyList mixedBatch)
          (getAllAccounts mixedBatch)).
Proof.
  destruct (detectCycles_exact_without_separator mixedBatch) as [H _].
  - intros a Ha. vm_compute in Ha.
    repeat (destruct Ha as [<-|Ha]; [reflexivity|]). destruct Ha.
  - split.
    + apply (H ["A"; "B"; "C"]).
      constructor; [vm_compute; auto 10| |simpl; lia|simpl; lia
                   |vm_compute; auto 10].
      repeat constructor; simpl; intuition discriminate.
    + apply (H ["A"; "C"; "B"]).
      constructor; [vm_compute; auto 10| |simpl; lia|simpl; lia
                   |vm_compute; auto 10].
      repeat constructor; simpl; intuition discriminate.
Defined.

(** Every emitted cycle ring lists a simple directed cycle of the filtered
    graph, of 3 to 5 members, from its least member. *)
Theorem cycle_rings_are_simple_cycles (getTime : string -> option Z)
    (transactions : list Transaction) (r : AnalysisResult) :
  analyzeTransactions getTime transactions = Some r ->
  forall ring, In ring (fraud_rings r) -> pattern_type ring = "cycle" ->
    SimpleCycle (adjOf transactions) (member_accounts ring)
    /\ 3 <= List.length (member_accounts ring) <= 5
    /\ hd "" (member_accounts ring) = minMember (member_accounts ring).
Proof.
  intros Hr ring Hin Hpt.
  destruct (analyze_cases _ _ _ Hr)
    as [[_ ->]|[_ [chains [Hc [Hf _]]]]]; [destruct Hin|].
  pose proof (finalState_inv getTime transactions chains Hc) as Hinv.
  rewrite Hf in Hin.
  destruct (inv_origin _ _ Hinv ring Hin) as [c Hc'|h d _|h d _|c _];
    try discriminate.
  destruct (detectCycles_In _ _ _ Hc') as (Hs & _ & _ & Hhd).
  split; [exact Hs|]. split; [|exact Hhd].
  split; [apply (cyc_min _ _ Hs)|apply (cyc_max _ _ Hs)].
Qed.

Lemma cycle_rings_are_simple_cycles_witness :
  3 <= List.length (member_accounts mixedCycleRing) <= 5.
Proof.
  destruct (cycle_rings_are_simple_cycles sampleGetTime mixedBatch mixedResult
              mixedBatch_analysis mixedCycleRing) as (_ & H & _).
  - vm_compute. auto.
  - reflexivity.
  - exact H.
Defined.

(** ** The ledger of ring memberships *)

Lemma add_idem x s : StrSet.add x (StrSet.add x s) = StrSet.add x s.
Proof.
  unfold StrSet.add at 1.
  assert (H : StrSet.has x (StrSet.add x s) = true).
  { apply StrSetFacts.set_has_In, StrSetFacts.add_In. auto. }
  now rewrite H.
Qed.

Lemma ofList_snoc l x : StrSet.ofList (l ++ [x]) = StrSet.add x (StrSet.ofList l).
Proof. unfold StrSet.ofList. now rewrite fold_left_app. Qed.

(** A loop that adds [x] to the set of every listed account. *)
Lemma tag_loop_get (x : string) (l : list string) :
  forall (m : StrMap.t StrSet.t) b,
    StrMap.get b
      (fold_left (fun m a => StrMap.update a [] (StrSet.add x) m) l m)
    = if StrSet.has b l
      then Some (StrSet.add x (orEmpty (StrMap.get b m)))
      else StrMap.get b m.
Proof.
  induction l as [|a l IH]; intros m b; [reflexivity|].
  cbn [fold_left]. rewrite IH, StrMapFacts.get_update.
  unfold StrSet.has. cbn [existsb]. fold (StrSet.has b l).
  destruct (String.eqb b a) eqn:E.
  - apply String.eqb_eq in E. subst a. cbn [orb orEmpty].
    fold (orEmpty (StrMap.get b m)).
    destruct (StrSet.has b l); [now rewrite add_idem|reflexivity].
  - reflexivity.
Qed.

Section MemberLoop.
Variables (p r : string) (extra : string -> RingState -> RingState).
Hypothesis extra_rings : forall a st, accountRings (extra a st) = accountRings st.
Hypothesis extra_patterns :
  forall a st, accountPatterns (extra a st) = accountPatterns st.

Local Abbreviation body :=
  (fun st a => extra a (addRing a r (addPattern a p st))).

Lemma member_loop_rings l : forall st,
  accountRings (fold_left body l st)
  = fold_left (fun m a => StrMap.update a [] (StrSet.add r) m) l
      (accountRings st).
Proof.
  induction l as [|a l IH]; intros st; [reflexivity|].
  cbn [fold_left]. rewrite IH, extra_rings. reflexivity.
Qed.

Lemma member_loop_patterns l : forall st,
  accountPatterns (fold_left body l st)
  = fold_left (fun m a => StrMap.update a [] (StrSet.add p) m) l
      (accountPatterns st).
Proof.
  induction l as [|a l IH]; intros st; [reflexivity|].
  cbn [fold_left]. rewrite IH, extra_patterns. reflexivity.
Qed.
End MemberLoop.

Lemma cycle_loop_counts p r l b : forall st,
  cycleCountAt
    (fold_left
       (fun st a => countCycleMember a (addRing a r (addPattern a p st))) l st)
    b
  = cycleCountAt st b + count_occ string_dec l b.
Proof.
  induction l as [|a l IH]; intros st; [simpl; lia|].
  cbn [fold_left]. rewrite IH. unfold cycleCountAt at 1.
  cbn [countCycleMember accountCycleCounts addRing addPattern].
  rewrite StrMapFacts.get_set. cbn [count_occ].
  destruct (string_dec a b) as [->|Hne].
  - rewrite String.eqb_refl. unfold cycleCountAt. lia.
  - destruct (String.eqb b a) eqn:E.
    + apply String.eqb_eq in E. congruence.
    + unfold cycleCountAt. lia.
Qed.

Lemma plain_loop_counts p r l b : forall st,
  cycleCountAt
    (fold_left (fun st a => (fun _ st => st) a (addRing a r (addPattern a p st)))
       l st) b
  = cycleCountAt st b.
Proof.
  induction l as [|a l IH]; intros st; [reflexivity|].
  cbn [fold_left]. now rewrite IH.
Qed.

Lemma ringsOf_snoc a rings ring :
  ringsOf a (rings ++ [ring])
  = ringsOf a rings
    ++ (if StrSet.has a (member_accounts ring) then [ring] else []).
Proof. unfold ringsOf. rewrite filter_app. reflexivity. Qed.

Lemma ledgerOf_snoc f a rings ring :
  ledgerOf f a (rings ++ [ring])
  = if StrSet.has a (member_accounts ring)
    then Some (StrSet.add (f ring) (orEmpty (ledgerOf f a rings)))
    else ledgerOf f a rings.
Proof.
  unfold ledgerOf. rewrite ringsOf_snoc.
  destruct (StrSet.has a (member_accounts ring)).
  - destruct (ringsOf a rings) as [|x l]; [reflexivity|].
    cbn [orEmpty]. rewrite <- ofList_snoc, <- map_last. reflexivity.
  - now rewrite app_nil_r.
Qed.

Lemma cycleCountOf_snoc a rings ring :
  cycleCountOf a (rings ++ [ring])
  = cycleCountOf a rings
    + (if isCycleRing ring
       then count_occ string_dec (member_accounts ring) a else 0).
Proof.
  unfold cycleCountOf. rewrite filter_app, map_app, list_sum_app.
  cbn [filter]. destruct (isCycleRing ring); simpl; lia.
Qed.

Lemma Ledger_initial : Ledger initialRingState.
Proof. constructor; reflexivity. Qed.

Lemma acceptCandidate_ledger members patternType label extra risk st :
  (extra = countCycleMember /\ patternType = "cycle"
   \/ extra = (fun _ st => st) /\ patternType <> "cycle") ->
  (forall rid, label = ringLabel (mkFraudRing rid members patternType risk)) ->
  Ledger st ->
  Ledger (acceptCandidate members patternType label extra risk st).
Proof.
  intros Hextra Hlabel [Hr Hp Hc]. unfold acceptCandidate.
  destruct (StrSet.has _ (ringDeduplicationSet st)); [now constructor|].
  set (rid := ringIdOf (ringCounter st)).
  set (st1 := snd (nextRingId (markSeen _ st))).
  assert (Hframe : (forall a st, accountRings (extra a st) = accountRings st)
                   /\ (forall a st,
                         accountPatterns (extra a st) = accountPatterns st)
                   /\ forall a st, Extends st (extra a st)).
  { destruct Hextra as [[-> _]|[-> _]]; (split; [|split]); try reflexivity;
      intros; first [apply countCycleMember_Extends|apply Extends_refl]. }
  destruct Hframe as (Hfr & Hfp & Hext).
  pose proof (member_loop label rid extra Hext members st1) as Hloop.
  cbv zeta in Hloop. destruct Hloop as [[Er _ _ _ _ _] _].
  change (fraudRings st1) with (fraudRings st) in Er.
  pose proof (member_loop_rings label rid extra Hfr members st1) as Erings.
  pose proof (member_loop_patterns label rid extra Hfp members st1) as Epats.
  change (accountRings st1) with (accountRings st) in Erings.
  change (accountPatterns st1) with (accountPatterns st) in Epats.
  assert (Ecount : forall a,
             cycleCountAt
               (fold_left
                  (fun st a => extra a (addRing a rid (addPattern a label st)))
                  members st1) a
             = cycleCountAt st a
               + if String.eqb patternType "cycle"
                 then count_occ string_dec members a else 0).
  { intros a. destruct Hextra as [[-> ->]|[-> Hne]].
    - rewrite cycle_loop_counts. reflexivity.
    - rewrite plain_loop_counts.
      apply String.eqb_neq in Hne. rewrite Hne.
      change (cycleCountAt st1 a) with (cycleCountAt st a). lia. }
  set (st2 := fold_left _ members st1) in *.
  constructor; intros a;
    cbn [pushRing accountRings accountPatterns fraudRings]; rewrite Er.
  - rewrite Erings, tag_loop_get, ledgerOf_snoc.
    cbn [member_accounts ring_id]. now rewrite Hr.
  - rewrite Epats, tag_loop_get, ledgerOf_snoc.
    cbn [member_accounts]. rewrite Hp, <- (Hlabel rid). reflexivity.
  - rewrite cycleCountOf_snoc. unfold isCycleRing.
    cbn [pattern_type member_accounts]. rewrite <- Hc, <- Ecount.
    reflexivity.
Qed.

Lemma acceptCycle_ledger st cycle : Ledger st -> Ledger (acceptCycle st cycle).
Proof.
  rewrite acceptCycle_eq. apply acceptCandidate_ledger; auto.
Qed.

Lemma acceptHub_ledger patternType st entry :
  patternType <> "cycle" -> Ledger st -> Ledger (acceptHub patternType st entry).
Proof.
  intros Hne. destruct entry as [hubId data]. rewrite acceptHub_eq.
  apply acceptCandidate_ledger; auto.
  intros rid. unfold ringLabel. cbn [pattern_type].
  apply String.eqb_neq in Hne. now rewrite Hne.
Qed.

Lemma acceptChain_ledger st chain : Ledger st -> Ledger (acceptChain st chain).
Proof.
  rewrite acceptChain_eq. apply acceptCandidate_ledger; auto.
  right. split; [reflexivity|discriminate].
Qed.

Lemma finalState_ledger getTime transactions chains :
  Ledger (finalStateOf getTime transactions chains).
Proof.
  unfold finalStateOf, hubStateOf, assembleCyclesAndHubs.
  apply fold_left_inv; [|intros; now apply acceptChain_ledger].
  apply fold_left_inv;
    [|intros; apply acceptHub_ledger; [discriminate|assumption]].
  apply fold_left_inv;
    [|intros; apply acceptHub_ledger; [discriminate|assumption]].
  apply fold_left_inv; [|intros; now apply acceptCycle_ledger].
  apply Ledger_initial.
Qed.

Lemma ringsOf_In a rings ring :
  In ring (ringsOf a rings) <-> In ring rings /\ In a (member_accounts ring).
Proof.
  unfold ringsOf. rewrite filter_In, StrSetFacts.set_has_In. reflexivity.
Qed.

Lemma ledgerOf_Some f a rings s :
  ledgerOf f a rings = Some s ->
  ringsOf a rings <> [] /\ s = StrSet.ofList (map f (ringsOf a rings)).
Proof.
  unfold ledgerOf. destruct (ringsOf a rings); [discriminate|].
  intros [= <-]. split; [discriminate|reflexivity].
Qed.

Lemma ledgerOf_None f a rings :
  ledgerOf f a rings = None -> ringsOf a rings = [].
Proof. unfold ledgerOf. destruct (ringsOf a rings); [auto|discriminate]. Qed.

Lemma ofList_nonempty l : l <> [] -> StrSet.ofList l <> [].
Proof.
  destruct l as [|x l] using rev_ind; [congruence|].
  intros _. rewrite ofList_snoc. apply StrSetFacts.add_not_nil.
Qed.

Lemma ofList_NoDup_id l : NoDup l -> StrSet.ofList l = l.
Proof.
  induction l as [|x l IH] using rev_ind; intros Hnd; [reflexivity|].
  rewrite ofList_snoc.
  apply NoDup_remove in Hnd. rewrite app_nil_r in Hnd.
  destruct Hnd as [Hnd Hx]. rewrite IH by assumption.
  unfold StrSet.add.
  destruct (StrSet.has x l) eqn:E; [|reflexivity].
  apply StrSetFacts.set_has_In in E. contradiction.
Qed.

(** What [buildSuspiciousAccounts] writes into an entry. *)
Lemma buildSuspiciousAccounts_entry st accountStats fanInAccounts
    fanOutAccounts sa :
  In sa (buildSuspiciousAccounts st accountStats fanInAccounts fanOutAccounts)
  -> exists patterns rings,
      In (account_id sa, patterns) (accountPatterns st)
      /\ StrMap.get (account_id sa) (accountRings st) = Some rings
      /\ rings <> []
      /\ detected_patterns sa = patterns
      /\ sa_ring_id sa = hd "" rings
      /\ suspicion_score sa =
         calculateSuspicionScore (account_id sa) patterns accountStats
           (cycleCountAt st (account_id sa))
           (StrMap.has (account_id sa) fanInAccounts
            || StrMap.has (account_id sa) fanOutAccounts)
           (StrSet.has "shell_network" patterns)
           (temporalFlagOf fanInAccounts fanOutAccounts (account_id sa)).
Proof.
  unfold buildSuspiciousAccounts.
  set (step := fun (suspiciousAccounts : list SuspiciousAccount)
                   '(accountId, patterns) => _).
  match goal with
  | |- _ -> ?C =>
      assert (G : forall l acc,
                 (forall x, In x l -> In x (accountPatterns st)) ->
                 In sa (fold_left step l acc) -> In sa acc \/ C)
  end.
  { induction l as [|[a ps] l IH]; intros acc Hsub; simpl; auto.
    intros Hin. apply IH in Hin; [|intros; apply Hsub; simpl; auto].
    destruct Hin as [Hin|Hin]; auto.
    unfold step in Hin.
    destruct (StrMap.get a (accountRings st)) as [rings|] eqn:Er; auto.
    destruct (StrSet.size rings =? 0) eqn:Ez; auto.
    in_snoc Hin; auto.
    right. exists ps, rings. cbn [account_id detected_patterns sa_ring_id
                                   suspicion_score].
    repeat split; auto.
    - apply Hsub. simpl. auto.
    - intros ->. discriminate. }
  intros Hin. apply G in Hin; auto. destruct Hin as [[]|Hin]. exact Hin.
Qed.

Lemma hasRings_ledger st a :
  Ledger st -> hasRings st a = negb (List.length (ringsOf a (fraudRings st)) =? 0).
Proof.
  intros [Hr _ _]. unfold hasRings. rewrite Hr.
  destruct (ledgerOf ring_id a (fraudRings st)) as [s|] eqn:E.
  - apply ledgerOf_Some in E. destruct E as [Hne ->].
    pose proof (ofList_nonempty (map ring_id (ringsOf a (fraudRings st)))) as H.
    destruct (ringsOf a (fraudRings st)); [congruence|].
    unfold StrSet.size.
    destruct (StrSet.ofList _); [exfalso; apply H; [discriminate|reflexivity]|].
    reflexivity.
  - apply ledgerOf_None in E. now rewrite E.
Qed.

Lemma suspicious_ids_iff getTime transactions chains a :
  In a (map account_id (suspiciousOf getTime transactions chains))
  <-> ringsOf a (fraudRings (finalStateOf getTime transactions chains)) <> [].
Proof.
  pose proof (finalState_ledger getTime transactions chains) as Hled.
  set (st := finalStateOf getTime transactions chains) in *.
  unfold suspiciousOf, sortSuspicious. fold st.
  assert (Hperm : Permutation
                    (map account_id
                       (sortBy
                          (fun a b =>
                             Qle_bool (suspicion_score b) (suspicion_score a))
                          (buildSuspiciousAccounts st
                             (statsOf getTime transactions)
                             (fanInOf getTime transactions)
                             (fanOutOf getTime transactions))))
                    (filter (hasRings st) (StrMap.keys (accountPatterns st)))).
  { rewrite <- buildSuspiciousAccounts_ids with
      (accountStats := statsOf getTime transactions)
      (fanInAccounts := fanInOf getTime transactions)
      (fanOutAccounts := fanOutOf getTime transactions).
    apply Permutation_map, sortBy_perm. }
  split.
  - intros Hin. apply (Permutation_in _ Hperm), filter_In in Hin.
    destruct Hin as [_ Hh]. rewrite (hasRings_ledger _ _ Hled) in Hh.
    intros E. rewrite E in Hh. discriminate.
  - intros Hne. apply (Permutation_in _ (Permutation_sym Hperm)), filter_In.
    split.
    + destruct (StrMap.get a (accountPatterns st)) as [ps|] eqn:E.
      * eapply StrMapFacts.get_Some_key; eauto.
      * rewrite (led_patterns _ Hled) in E. apply ledgerOf_None in E.
        contradiction.
    + rewrite (hasRings_ledger _ _ Hled).
      destruct (ringsOf a (fraudRings st)); [congruence|reflexivity].
Qed.

Lemma ringsOf_nonempty a rings :
  ringsOf a rings <> []
  <-> exists ring, In ring rings /\ In a (member_accounts ring).
Proof.
  split.
  - destruct (ringsOf a rings) as [|ring l] eqn:E; [congruence|].
    intros _. exists ring. apply ringsOf_In. rewrite E. simpl. auto.
  - intros [ring H] E. apply ringsOf_In in H. rewrite E in H. destruct H.
Qed.

Lemma suspicious_accounts_are_the_ring_members_aux
    (getTime : string -> option Z) (transactions : list Transaction)
    (r : AnalysisResult) :
  analyzeTransactions getTime transactions = Some r ->
  NoDup (map account_id (suspicious_accounts r))
  /\ (forall a,
        In a (map account_id (suspicious_accounts r))
        <-> exists ring, In ring (fraud_rings r) /\ In a (member_accounts ring))
  /\ (forall node, In node (nodes r) ->
        (suspicious node = true
         <-> exists ring,
               In ring (fraud_rings r) /\ In (id node) (member_accounts ring))).
Proof.
  intros Hr.
  destruct (analyze_cases _ _ _ Hr)
    as [[_ ->]|[_ [chains [Hc [Hf [Hs Hn]]]]]].
  { cbn [emptyResult suspicious_accounts fraud_rings nodes map].
    split; [constructor|]. split.
    - intros a. split; [intros []|intros [ring [[] _]]].
    - intros node Hin. apply in_map_iff in Hin. destruct Hin as [a [<- _]].
      cbn [suspicious]. split; [discriminate|intros [ring [[] _]]]. }
  pose proof (finalState_inv getTime transactions chains Hc) as Hinv.
  rewrite Hf, Hs, Hn. split; [|split].
  - unfold suspiciousOf, sortSuspicious.
    eapply Permutation_NoDup;
      [apply Permutation_sym, Permutation_map, sortBy_perm|].
    rewrite buildSuspiciousAccounts_ids.
    apply NoDup_filter, (inv_keys _ _ Hinv).
  - intros a. rewrite suspicious_ids_iff. apply ringsOf_nonempty.
  - intros node Hin. apply in_map_iff in Hin. destruct Hin as [a [<- _]].
    cbn [buildNode suspicious id].
    rewrite StrSetFacts.set_has_In, StrSetFacts.ofList_In, suspicious_ids_iff.
    apply ringsOf_nonempty.
Qed.

(** The suspicious accounts are exactly the members of the emitted rings,
    each listed once, and a node is marked suspicious exactly when its
    account is a member of an emitted ring. *)
Theorem suspicious_accounts_are_the_ring_members
    (getTime : string -> option Z) (transactions : list Transaction)
    (r : AnalysisResult) :
  analyzeTransactions getTime transactions = Some r ->
  NoDup (map account_id (suspicious_accounts r))
  /\ (forall a,
        In a (map account_id (suspicious_accounts r))
        <-> exists ring, In ring (fraud_rings r) /\ In a (member_accounts ring))
  /\ (forall node, In node (nodes r) ->
        (suspicious node = true
         <-> exists ring,
               In ring (fraud_rings r) /\ In (id node) (member_accounts ring))).
Proof. apply suspicious_accounts_are_the_ring_members_aux. Qed.

Lemma suspicious_accounts_are_the_ring_members_witness :
  NoDup (map account_id (suspicious_accounts mixedResult)).
Proof.
  destruct (suspicious_accounts_are_the_ring_members sampleGetTime mixedBatch
              mixedResult mixedBatch_analysis) as [H _].
  exact H.
Defined.

Lemma NoDup_map_filter {A B : Type} (f : A -> B) (p : A -> bool) l :
  NoDup (map f l) -> NoDup (map f (filter p l)).
Proof.
  induction l as [|x l IH]; simpl; intros Hnd; [constructor|].
  apply NoDup_cons_iff in Hnd. destruct Hnd as [Hx Hnd].
  destruct (p x); simpl; auto.
  constructor; auto. intros Hin. apply Hx.
  apply in_map_iff in Hin. destruct Hin as [y [E Hy]].
  apply filter_In in Hy. apply in_map_iff. exists y. tauto.
Qed.

Lemma ring_ids_NoDup Origin st :
  RingInv Origin st -> NoDup (map ring_id (fraudRings st)).
Proof.
  intros Hinv. rewrite (inv_ids _ _ Hinv).
  apply Finite.Injective_map_NoDup; [|apply seq_NoDup].
  intros n m. apply ringIdOf_inj.
Qed.

Lemma ledger_ring_ids Origin st a :
  RingInv Origin st -> Ledger st ->
  orEmpty (StrMap.get a (accountRings st))
  = map ring_id (ringsOf a (fraudRings st)).
Proof.
  intros Hinv Hled. rewrite (led_rings _ Hled).
  destruct (ledgerOf ring_id a (fraudRings st)) as [s|] eqn:E.
  - apply ledgerOf_Some in E. destruct E as [_ ->]. cbn [orEmpty].
    apply ofList_NoDup_id, NoDup_map_filter, (ring_ids_NoDup _ _ Hinv).
  - apply ledgerOf_None in E. now rewrite E.
Qed.

(** The ring of a suspicious account is the first emitted ring that lists
    the account, and a node carries the identifiers of all the emitted
    rings that list its account, in emission order. *)
Theorem primary_ring_is_first_ring (getTime : string -> option Z)
    (transactions : list Transaction) (r : AnalysisResult) :
  analyzeTransactions getTime transactions = Some r ->
  (forall sa, In sa (suspicious_accounts r) ->
     exists ring rest,
       ringsOf (account_id sa) (fraud_rings r) = ring :: rest
       /\ sa_ring_id sa = ring_id ring)
  /\ (forall node, In node (nodes r) ->
        ring_ids node = map ring_id (ringsOf (id node) (fraud_rings r))).
Proof.
  intros Hr.
  destruct (analyze_cases _ _ _ Hr)
    as [[_ ->]|[_ [chains [Hc [Hf [Hs Hn]]]]]].
  { cbn [emptyResult suspicious_accounts fraud_rings nodes].
    split; [intros sa []|].
    intros node Hin. apply in_map_iff in Hin. destruct Hin as [a [<- _]].
    reflexivity. }
  pose proof (finalState_inv getTime transactions chains Hc) as Hinv.
  pose proof (finalState_ledger getTime transactions chains) as Hled.
  rewrite Hf, Hs, Hn. split.
  - intros sa Hin. unfold suspiciousOf, sortSuspicious in Hin.
    apply sortBy_In, buildSuspiciousAccounts_entry in Hin.
    destruct Hin as (ps & rs & _ & Hrs & Hne & _ & Hid & _).
    pose proof (ledger_ring_ids _ _ (account_id sa) Hinv Hled) as E.
    rewrite Hrs in E. cbn [orEmpty] in E. rewrite Hid, E.
    destruct (ringsOf (account_id sa) _) as [|ring rest];
      [simpl in E; congruence|].
    exists ring, rest. split; reflexivity.
  - intros node Hin. apply in_map_iff in Hin. destruct Hin as [a [<- _]].
    cbn [buildNode ring_ids id].
    apply (ledger_ring_ids _ _ a Hinv Hled).
Qed.

Lemma primary_ring_is_first_ring_witness :
  Forall
    (fun node =>
       ring_ids node
       = map ring_id (ringsOf (id node) (fraud_rings mixedResult)))
    (nodes mixedResult).
Proof.
  destruct (primary_ring_is_first_ring sampleGetTime mixedBatch mixedResult
              mixedBatch_analysis) as [_ H].
  exact (proj2 (Forall_forall _ _) H).
Defined.

Lemma ledger_orEmpty f a rings :
  orEmpty (ledgerOf f a rings) = StrSet.ofList (map f (ringsOf a rings)).
Proof.
  destruct (ledgerOf f a rings) as [s|] eqn:E.
  - apply ledgerOf_Some in E. now destruct E as [_ ->].
  - apply ledgerOf_None in E. now rewrite E.
Qed.

Lemma origin_label cycles fanInAccounts fanOutAccounts chains adj allAccounts
    ring :
  cycles = detectCycles adj allAccounts ->
  RingOrigin cycles fanInAccounts fanOutAccounts chains
    (member_accounts ring) (pattern_type ring) (risk_score ring) ->
  In (ringLabel ring)
    ["cycle_length_3"; "cycle_length_4"; "cycle_length_5"; "fan_in";
     "fan_out"; "shell_network"].
Proof.
  intros -> Hor. unfold ringLabel.
  inversion Hor as [c Hc Em Ep|h d _ Em Ep|h d _ Em Ep|c _ Em Ep];
    try (simpl; now auto 10).
  apply detectCycles_In in Hc. destruct Hc as [Hs _].
  pose proof (cyc_min _ _ Hs) as Hmin. pose proof (cyc_max _ _ Hs) as Hmax.
  rewrite String.eqb_refl.
  destruct (List.length (member_accounts ring)) as [|[|[|[|[|[|n]]]]]];
    try lia; simpl; auto.
Qed.

Lemma detected_patterns_aux (getTime : string -> option Z)
    (transactions : list Transaction) (r : AnalysisResult) :
  analyzeTransactions getTime transactions = Some r ->
  (forall sa, In sa (suspicious_accounts r) ->
     detected_patterns sa
     = StrSet.ofList
         (map ringLabel (ringsOf (account_id sa) (fraud_rings r))))
  /\ (forall node, In node (nodes r) ->
        patterns node
        = if StrSet.has (id node) (detectLegitimateAccounts transactions)
          then ["legitimate_business"]
          else StrSet.ofList
                 (map ringLabel (ringsOf (id node) (fraud_rings r))))
  /\ (forall ring, In ring (fraud_rings r) ->
        In (ringLabel ring)
          ["cycle_length_3"; "cycle_length_4"; "cycle_length_5"; "fan_in";
           "fan_out"; "shell_network"]).
Proof.
  intros Hr.
  destruct (analyze_cases _ _ _ Hr)
    as [[_ ->]|[_ [chains [Hc [Hf [Hs Hn]]]]]].
  { cbn [emptyResult suspicious_accounts fraud_rings nodes].
    split; [intros sa []|]. split; [|intros ring []].
    intros node Hin. apply in_map_iff in Hin. destruct Hin as [a [<- _]].
    reflexivity. }
  pose proof (finalState_inv getTime transactions chains Hc) as Hinv.
  pose proof (finalState_ledger getTime transactions chains) as Hled.
  rewrite Hf, Hs, Hn. split; [|split].
  - intros sa Hin. unfold suspiciousOf, sortSuspicious in Hin.
    apply sortBy_In, buildSuspiciousAccounts_entry in Hin.
    destruct Hin as (ps & rs & Hps & _ & _ & -> & _).
    apply StrMapFacts.In_get in Hps; [|apply (inv_keys _ _ Hinv)].
    rewrite <- ledger_orEmpty, <- (led_patterns _ Hled), Hps. reflexivity.
  - intros node Hin. apply in_map_iff in Hin. destruct Hin as [a [<- _]].
    cbn [buildNode patterns id].
    rewrite <- ledger_orEmpty, <- (led_patterns _ Hled). reflexivity.
  - intros ring Hin.
    eapply origin_label; [reflexivity|].
    apply (inv_origin _ _ Hinv ring Hin).
Qed.

(** The patterns of a suspicious account are the labels of the emitted
    rings that list it, in emission order and without repetition; a node
    carries the same list unless its account is legitimate; and the labels
    are [cycle_length_3], [cycle_length_4], [cycle_length_5], [fan_in],
    [fan_out] and [shell_network]. *)
Theorem detected_patterns_are_ring_labels (getTime : string -> option Z)
    (transactions : list Transaction) (r : AnalysisResult) :
  analyzeTransactions getTime transactions = Some r ->
  (forall sa, In sa (suspicious_accounts r) ->
     detected_patterns sa
     = StrSet.ofList
         (map ringLabel (ringsOf (account_id sa) (fraud_rings r))))
  /\ (forall node, In node (nodes r) ->
        patterns node
        = if StrSet.has (id node) (detectLegitimateAccounts transactions)
          then ["legitimate_business"]
          else StrSet.ofList
                 (map ringLabel (ringsOf (id node) (fraud_rings r))))
  /\ (forall ring, In ring (fraud_rings r) ->
        In (ringLabel ring)
          ["cycle_length_3"; "cycle_length_4"; "cycle_length_5"; "fan_in";
           "fan_out"; "shell_network"]).
Proof. apply detected_patterns_aux. Qed.

Lemma detected_patterns_are_ring_labels_witness :
  In (ringLabel mixedCycleRing)
    ["cycle_length_3"; "cycle_length_4"; "cycle_length_5"; "fan_in";
     "fan_out"; "shell_network"].
Proof.
  destruct (detected_patterns_are_ring_labels sampleGetTime mixedBatch
              mixedResult mixedBatch_analysis) as (_ & _ & H).
  apply H. vm_compute. auto.
Defined.

(** ** Scores of ring members *)

Lemma round1_ge (z : Z) x : (inject_Z z <= x)%Q -> (inject_Z z <= round1 x)%Q.
Proof.
  intros Hx. unfold round1, Math_round.
  assert (H : (z * 10 <= Qfloor (x * 10 + (1 # 2)))%Z).
  { rewrite <- (Qfloor_Z (z * 10)). apply Qfloor_resp_le.
    rewrite inject_Z_mult. change (inject_Z 10) with 10%Q. lra. }
  rewrite Zle_Qle, inject_Z_mult in H.
  change (inject_Z 10) with 10%Q in H.
  apply Qle_shift_div_l; [reflexivity|exact H].
Qed.

Lemma cycleCountOf_cons a x l :
  cycleCountOf a (x :: l)
  = (if isCycleRing x then count_occ string_dec (member_accounts x) a else 0)
    + cycleCountOf a l.
Proof.
  unfold cycleCountOf. cbn [filter]. destruct (isCycleRing x); reflexivity.
Qed.

Lemma cycleCountOf_NoDup a rings :
  (forall ring, In ring rings -> isCycleRing ring = true ->
     NoDup (member_accounts ring)) ->
  cycleCountOf a rings = List.length (filter isCycleRing (ringsOf a rings)).
Proof.
  induction rings as [|x l IH]; intros Hnd; [reflexivity|].
  rewrite cycleCountOf_cons, IH by (intros; apply Hnd; simpl; auto).
  unfold ringsOf. cbn [filter]. fold (ringsOf a l).
  destruct (isCycleRing x) eqn:Ec.
  - destruct (StrSet.has a (member_accounts x)) eqn:Eh; cbn [filter];
      rewrite ?Ec; cbn [List.length].
    + apply StrSetFacts.set_has_In in Eh.
      rewrite (proj1 (NoDup_count_occ' string_dec _)
                 (Hnd x (or_introl eq_refl) Ec) a Eh).
      reflexivity.
    + apply StrSetFacts.has_false in Eh.
      apply (count_occ_not_In string_dec) in Eh. now rewrite Eh.
  - destruct (StrSet.has a (member_accounts x)); cbn [filter];
      rewrite ?Ec; reflexivity.
Qed.

Lemma NoDup_map_eq {A B : Type} (f : A -> B) l x y :
  NoDup (map f l) -> In x l -> In y l -> f x = f y -> x = y.
Proof.
  induction l as [|z l IH]; simpl; [intros _ []|].
  intros Hnd Hx Hy E. apply NoDup_cons_iff in Hnd. destruct Hnd as [Hz Hnd].
  destruct Hx as [->|Hx], Hy as [->|Hy]; auto.
  - exfalso. apply Hz. rewrite E. now apply in_map.
  - exfalso. apply Hz. rewrite <- E. now apply in_map.
Qed.

Lemma patternScore_ge_20 ps k flag :
  ps <> [] ->
  (forall p, In p ps ->
     In p ["cycle_length_3"; "cycle_length_4"; "cycle_length_5"; "fan_in";
           "fan_out"; "shell_network"]) ->
  (20 <= patternScore ps k flag)%Q.
Proof.
  intros Hne Hvoc. unfold patternScore.
  assert (Hc : (-1 <= Qmin (inject_Z (Z.of_nat k - 1)) 3)%Q).
  { assert (H : (inject_Z (-1) <= inject_Z (Z.of_nat k - 1))%Q)
      by (rewrite <- Zle_Qle; lia).
    change (inject_Z (-1)) with (-1)%Q in H.
    destruct (Qmin_spec (inject_Z (Z.of_nat k - 1)) 3) as [[_ ->]|[_ ->]]; lra. }
  assert (Hone : existsb (fun p => startsWith p "cycle_length_") ps = true
                 \/ StrSet.has "fan_in" ps = true
                 \/ StrSet.has "fan_out" ps = true
                 \/ StrSet.has "shell_network" ps = true).
  { destruct ps as [|p ps]; [congruence|].
    destruct (Hvoc p (or_introl eq_refl))
      as [<-|[<-|[<-|[<-|[<-|[<-|[]]]]]]]; cbn; auto. }
  destruct (existsb _ ps), (StrSet.has "fan_in" ps),
    (StrSet.has "fan_out" ps), (StrSet.has "shell_network" ps), flag;
    try lra; destruct Hone as [H|[H|[H|H]]]; discriminate H.
Qed.

Lemma cycle_ring_NoDup getTime transactions chains ring :
  chainsOf getTime transactions = Some chains ->
  In ring (fraudRings (finalStateOf getTime transactions chains)) ->
  isCycleRing ring = true ->
  NoDup (member_accounts ring).
Proof.
  intros Hc Hin Hcyc.
  pose proof (finalState_inv getTime transactions chains Hc) as Hinv.
  unfold isCycleRing in Hcyc. apply String.eqb_eq in Hcyc.
  destruct (inv_origin _ _ Hinv ring Hin) as [c Hc'|h d _|h d _|c _];
    try discriminate.
  destruct (detectCycles_In _ _ _ Hc') as [Hs _].
  apply (cyc_nodup _ _ Hs).
Qed.

(** The score of a suspicious account is computed from its patterns, from
    the statistics of the filtered batch, from the number of emitted cycle
    rings that list it and from the temporal flags of the hubs of the
    unfiltered batch; it is at least 20; the node of the account carries
    the same score, and a node that is not suspicious carries 0. *)
Theorem suspicion_score_of_ring_member (getTime : string -> option Z)
    (transactions : list Transaction) (r : AnalysisResult) :
  analyzeTransactions getTime transactions = Some r ->
  (forall sa, In sa (suspicious_accounts r) ->
     let a := account_id sa in
     let fanIn := detectFan getTime receiver_id sender_id transactions in
     let fanOut := detectFan getTime sender_id receiver_id transactions in
     suspicion_score sa
     = calculateSuspicionScore a (detected_patterns sa)
         (computeAccountStats getTime (filteredOf transactions))
         (List.length (filter isCycleRing (ringsOf a (fraud_rings r))))
         (StrMap.has a fanIn || StrMap.has a fanOut)
         (StrSet.has "shell_network" (detected_patterns sa))
         (temporalFlagOf fanIn fanOut a)
     /\ (20 <= suspicion_score sa <= 100)%Q)
  /\ (forall node, In node (nodes r) ->
        (suspicious node = false -> node_suspicion_score node = 0%Q)
        /\ (forall sa, In sa (suspicious_accounts r) ->
              account_id sa = id node ->
              (node_suspicion_score node == suspicion_score sa)%Q)).
Proof.
  intros Hr.
  destruct (suspicious_accounts_are_the_ring_members_aux _ _ _ Hr) as [Hnd _].
  destruct (detected_patterns_aux _ _ _ Hr) as (Hpat & _ & Hvoc).
  destruct (analyze_cases _ _ _ Hr)
    as [[_ ->]|[_ [chains [Hc [Hf [Hs Hn]]]]]].
  { cbn [emptyResult suspicious_accounts fraud_rings nodes].
    split; [intros sa []|].
    intros node Hin. apply in_map_iff in Hin. destruct Hin as [a [<- _]].
    split; [reflexivity|intros sa []]. }
  pose proof (finalState_inv getTime transactions chains Hc) as Hinv.
  pose proof (finalState_ledger getTime transactions chains) as Hled.
  rewrite Hf, Hs, Hn in *. split.
  - intros sa Hin a fanIn fanOut.
    assert (Hscore : suspicion_score sa
                     = calculateSuspicionScore a (detected_patterns sa)
                         (computeAccountStats getTime (filteredOf transactions))
                         (List.length
                            (filter isCycleRing
                               (ringsOf a
                                  (fraudRings
                                     (finalStateOf getTime transactions chains)))))
                         (StrMap.has a fanIn || StrMap.has a fanOut)
                         (StrSet.has "shell_network" (detected_patterns sa))
                         (temporalFlagOf fanIn fanOut a)).
    { unfold suspiciousOf, sortSuspicious in Hin.
      apply sortBy_In, buildSuspiciousAccounts_entry in Hin.
      destruct Hin as (ps & rs & _ & _ & _ & -> & _ & ->).
      rewrite (led_counts _ Hled), cycleCountOf_NoDup; [reflexivity|].
      intros ring. apply cycle_ring_NoDup. exact Hc. }
    split; [exact Hscore|].
    split; [|rewrite Hscore; apply calculateSuspicionScore_range].
    rewrite Hscore, calculateSuspicionScore_eq.
    apply (round1_ge 20).
    assert (H20 : (20 <= patternScore (detected_patterns sa)
                           (List.length
                              (filter isCycleRing
                                 (ringsOf a
                                    (fraudRings
                                       (finalStateOf getTime transactions
                                          chains)))))
                           (temporalFlagOf fanIn fanOut a))%Q).
    { apply patternScore_ge_20.
      - rewrite (Hpat sa Hin). apply ofList_nonempty.
        assert (Hne : ringsOf (account_id sa)
                        (fraudRings (finalStateOf getTime transactions chains))
                      <> []).
        { apply suspicious_ids_iff. now apply in_map. }
        destruct (ringsOf (account_id sa) _); [congruence|discriminate].
      - intros p Hp. rewrite (Hpat sa Hin) in Hp.
        apply StrSetFacts.ofList_In, in_map_iff in Hp.
        destruct Hp as [ring [<- Hring]]. apply ringsOf_In in Hring.
        apply Hvoc, Hring. }
    change (inject_Z 20) with 20%Q.
    destruct (Qmin_spec
                (patternScore (detected_patterns sa)
                   (List.length
                      (filter isCycleRing
                         (ringsOf a
                            (fraudRings
                               (finalStateOf getTime transactions chains)))))
                   (temporalFlagOf fanIn fanOut a)
                 + (if flowBonus
                         (computeAccountStats getTime (filteredOf transactions))
                         a
                    then 10 else 0)) 100) as [[_ ->]|[_ ->]];
      [|lra].
    destruct (flowBonus _ a); lra.
  - intros node Hin. apply in_map_iff in Hin. destruct Hin as [a [<- _]].
    cbn [buildNode suspicious node_suspicion_score id].
    destruct (find _ _) as [sa'|] eqn:Efind.
    + apply find_some in Efind. destruct Efind as [Hin' Eid].
      apply String.eqb_eq in Eid. split.
      * intros Hf'. apply StrSetFacts.has_false in Hf'. exfalso. apply Hf'.
        apply StrSetFacts.ofList_In. rewrite <- Eid. now apply in_map.
      * intros sa Hsa Esa. rewrite orZero_eq.
        rewrite (NoDup_map_eq account_id _ sa sa' Hnd Hsa Hin');
          [reflexivity|congruence].
    + split; [reflexivity|].
      intros sa Hsa Esa. apply (find_none _ _ Efind) in Hsa.
      rewrite Esa, String.eqb_refl in Hsa. discriminate.
Qed.

Lemma suspicion_score_of_ring_member_witness :
  Forall (fun sa => (20 <= suspicion_score sa <= 100)%Q)
    (suspicious_accounts mixedResult).
Proof.
  destruct (suspicion_score_of_ring_member sampleGetTime mixedBatch
              mixedResult mixedBatch_analysis) as [H _].
  refine (proj2 (Forall_forall _ _) _).
  intros sa Hsa. destruct (H sa Hsa) as [_ H2]. exact H2.
Defined.

(** ** Tables with one entry per account *)

Section PairTables.
Context {V : Type}.
Variables (d : V) (fs fr : Transaction -> V -> V).

Local Abbreviation loopBody :=
  (fun (m : StrMap.t V) tx =>
     StrMap.update (receiver_id tx) d (fr tx)
       (StrMap.update (sender_id tx) d (fs tx) m)).

Lemma pairStep_get a t (m : StrMap.t V) :
  StrMap.get a
    (StrMap.update (receiver_id t) d (fr t)
       (StrMap.update (sender_id t) d (fs t) m))
  = if touches a t
    then Some (pairStep fs fr a
                 (match StrMap.get a m with Some s => s | None => d end) t)
    else StrMap.get a m.
Proof.
  rewrite !StrMapFacts.get_update. unfold touches, pairStep.
  rewrite (String.eqb_sym a (receiver_id t)), (String.eqb_sym a (sender_id t)).
  destruct (String.eqb_spec (receiver_id t) a) as [Er|Er],
    (String.eqb_spec (sender_id t) a) as [Es|Es]; cbn [orb].
  - rewrite Er, <- Es, String.eqb_refl. reflexivity.
  - rewrite Er. apply String.eqb_neq in Es.
    rewrite String.eqb_sym, Es. reflexivity.
  - now rewrite Es.
  - reflexivity.
Qed.

Lemma pairStep_untouched a t s : touches a t = false -> pairStep fs fr a s t = s.
Proof.
  unfold touches, pairStep.
  destruct (String.eqb (sender_id t) a), (String.eqb (receiver_id t) a);
    simpl; congruence.
Qed.

Lemma pairTable_acc transactions : forall (m : StrMap.t V) a,
  StrMap.get a (fold_left loopBody transactions m)
  = match StrMap.get a m with
    | Some s => Some (fold_left (pairStep fs fr a) transactions s)
    | None =>
        if existsb (touches a) transactions
        then Some (fold_left (pairStep fs fr a) transactions d)
        else None
    end.
Proof.
  induction transactions as [|t l IH]; intros m a.
  - simpl. destruct (StrMap.get a m); reflexivity.
  - cbn [fold_left existsb]. rewrite IH. cbv beta. rewrite pairStep_get.
    destruct (touches a t) eqn:Et; cbn [orb].
    + destruct (StrMap.get a m); reflexivity.
    + destruct (StrMap.get a m);
        now rewrite (pairStep_untouched a t _ Et).
Qed.

Lemma pairTable_get transactions a :
  StrMap.get a (fold_left loopBody transactions [])
  = if existsb (touches a) transactions
    then Some (fold_left (pairStep fs fr a) transactions d)
    else None.
Proof. apply (pairTable_acc transactions []). Qed.

(** The keys of the table are the accounts of the batch, in the order of
    their first appearance. *)
Lemma pairTable_keys transactions : forall (m : StrMap.t V),
  StrMap.keys (fold_left loopBody transactions m)
  = fold_left
      (fun accounts tx =>
         StrSet.add (receiver_id tx) (StrSet.add (sender_id tx) accounts))
      transactions (StrMap.keys m).
Proof.
  assert (Hk : forall k f (m : StrMap.t V),
             StrMap.keys (StrMap.update k d f m)
             = StrSet.add k (StrMap.keys m)).
  { intros k f m. unfold StrMap.update, StrSet.add.
    assert (Hs : forall v, StrMap.keys (StrMap.set k v m)
                           = if StrSet.has k (StrMap.keys m)
                             then StrMap.keys m else StrMap.keys m ++ [k]).
    { intros v. induction m as [|[k' v'] m IH]; [reflexivity|].
      cbn [StrMap.set StrMap.keys map fst StrSet.has existsb].
      destruct (String.eqb k k') eqn:E; [reflexivity|].
      cbn [orb map fst]. fold (StrMap.keys (StrMap.set k v m)).
      fold (StrMap.keys m). fold (StrSet.has k (StrMap.keys m)).
      rewrite IH. destruct (StrSet.has k (StrMap.keys m)); reflexivity. }
    destruct (StrMap.get k m); apply Hs. }
  induction transactions as [|t l IH]; intros m; [reflexivity|].
  cbn [fold_left]. rewrite IH. cbv beta. rewrite !Hk. reflexivity.
Qed.
End PairTables.

(** ** Legitimate accounts *)

Lemma gatherAccountTxs_eq transactions :
  gatherAccountTxs transactions
  = fold_left
      (fun m tx =>
         StrMap.update (receiver_id tx) AccountTxs.empty (gatherReceived tx)
           (StrMap.update (sender_id tx) AccountTxs.empty (gatherSent tx) m))
      transactions [].
Proof. reflexivity. Qed.

Lemma gather_fold a transactions : forall s,
  fold_left (pairStep gatherSent gatherReceived a) transactions s
  = AccountTxs.mk
      (AccountTxs.sent s ++ txsOf sender_id a transactions)
      (AccountTxs.received s ++ txsOf receiver_id a transactions)
      (fold_left (fun acc x => StrSet.add x acc)
         (map sender_id (txsOf receiver_id a transactions))
         (AccountTxs.uniqueSenders s))
      (fold_left (fun acc x => StrSet.add x acc)
         (map receiver_id (txsOf sender_id a transactions))
         (AccountTxs.uniqueReceivers s))
      (fold_left Qplus (map amount (txsOf sender_id a transactions))
         (AccountTxs.totalSent s))
      (fold_left Qplus (map amount (txsOf receiver_id a transactions))
         (AccountTxs.totalReceived s)).
Proof.
  induction transactions as [|t l IH]; intros s.
  - simpl. rewrite !app_nil_r. destruct s; reflexivity.
  - cbn [fold_left]. rewrite IH. unfold pairStep, txsOf. cbn [filter].
    destruct (String.eqb (sender_id t) a), (String.eqb (receiver_id t) a);
      cbn; rewrite <- ?app_assoc; reflexivity.
Qed.

Lemma gatherAccountTxs_get transactions a :
  StrMap.get a (gatherAccountTxs transactions)
  = if existsb (touches a) transactions
    then Some (accountTxsOf a transactions)
    else None.
Proof.
  rewrite gatherAccountTxs_eq, pairTable_get, gather_fold. reflexivity.
Qed.

Lemma gatherAccountTxs_keys transactions :
  StrMap.keys (gatherAccountTxs transactions) = getAllAccounts transactions.
Proof. rewrite gatherAccountTxs_eq. apply pairTable_keys. Qed.

Lemma touches_In a transactions :
  existsb (touches a) transactions = true
  <-> In a (getAllAccounts transactions).
Proof.
  rewrite getAllAccounts_In, existsb_exists. unfold touches.
  split; intros [t [Ht H]]; exists t; split; auto.
  - apply orb_true_iff in H. now rewrite !String.eqb_eq in H.
  - apply orb_true_iff. now rewrite !String.eqb_eq.
Qed.

Lemma detectLegitimateAccounts_fold (l : StrMap.t AccountTxs.t) :
  forall legit a,
    In a (fold_left
            (fun legit '(accountId, data) =>
               if isLegitimate accountId data then StrSet.add accountId legit
               else legit) l legit)
    <-> In a legit
        \/ exists data, In (a, data) l /\ isLegitimate a data = true.
Proof.
  induction l as [|[k v] l IH]; intros legit a; cbn [fold_left].
  - split; [auto|intros [H|[data [[] _]]]; auto].
  - rewrite IH. split.
    + intros [H|[data [Hin Hl]]].
      * destruct (isLegitimate k v) eqn:E; auto.
        apply StrSetFacts.add_In in H. destruct H as [->|H]; auto.
        right. exists v. split; simpl; auto.
      * right. exists data. split; simpl; auto.
    + intros [H|[data [[[= <- <-]|Hin] Hl]]].
      * left. destruct (isLegitimate k v); auto.
        apply StrSetFacts.add_In. auto.
      * left. rewrite Hl. apply StrSetFacts.add_In. auto.
      * right. eauto.
Qed.

Lemma detectLegitimateAccounts_NoDup transactions :
  NoDup (detectLegitimateAccounts transactions).
Proof.
  unfold detectLegitimateAccounts.
  apply fold_left_inv; [constructor|].
  intros legit [k v] _ Hnd. destruct (isLegitimate k v); auto.
  now apply StrSetFacts.add_NoDup.
Qed.

Lemma detectLegitimateAccounts_In transactions a :
  In a (detectLegitimateAccounts transactions)
  <-> In a (getAllAccounts transactions)
      /\ isLegitimate a (accountTxsOf a transactions) = true.
Proof.
  unfold detectLegitimateAccounts. rewrite detectLegitimateAccounts_fold.
  pose proof (gatherAccountTxs_get transactions a) as Hget.
  split.
  - intros [[]|[data [Hin Hl]]].
    apply StrMapFacts.In_get in Hin;
      [|rewrite gatherAccountTxs_keys; apply getAllAccounts_NoDup].
    rewrite Hin in Hget.
    destruct (existsb (touches a) transactions) eqn:E; [|discriminate].
    injection Hget as ->. split; auto. now apply touches_In.
  - intros [Hin Hl]. right. exists (accountTxsOf a transactions).
    split; auto. apply StrMapFacts.get_In.
    apply touches_In in Hin. now rewrite Hin in Hget.
Qed.

(** An account is classified from its own transactions alone: it is
    legitimate exactly when it occurs in the batch and the rule holds of the
    transactions it sent and received; a business keyword in its name is
    enough; and without a keyword it needs at least five distinct receivers
    or at least five distinct senders.  No account is listed twice. *)
Theorem legitimate_accounts_by_own_transactions
    (transactions : list Transaction) :
  let legit := detectLegitimateAccounts transactions in
  NoDup legit
  /\ (forall a,
        In a legit
        <-> In a (getAllAccounts transactions)
            /\ isLegitimate a (accountTxsOf a transactions) = true)
  /\ (forall a, In a (getAllAccounts transactions) ->
        hasBusinessName a = true -> In a legit)
  /\ (forall a, In a legit -> hasBusinessName a = false ->
        5 <= StrSet.size
               (StrSet.ofList
                  (map receiver_id (txsOf sender_id a transactions)))
        \/ 5 <= StrSet.size
                  (StrSet.ofList
                     (map sender_id (txsOf receiver_id a transactions)))).
Proof.
  intros legit. split; [apply detectLegitimateAccounts_NoDup|].
  split; [apply detectLegitimateAccounts_In|]. split.
  - intros a Ha Hname. apply detectLegitimateAccounts_In. split; auto.
    unfold isLegitimate. now rewrite Hname.
  - intros a Ha Hname. apply detectLegitimateAccounts_In in Ha.
    destruct Ha as [_ Hl]. unfold isLegitimate in Hl. rewrite Hname in Hl.
    unfold isPayrollLike, isRentCollector, isMerchant, isPurePayer in Hl.
    cbn [accountTxsOf AccountTxs.uniqueReceivers AccountTxs.uniqueSenders]
      in Hl.
    set (nr := StrSet.size
                 (StrSet.ofList
                    (map receiver_id (txsOf sender_id a transactions)))) in *.
    set (ns := StrSet.size
                 (StrSet.ofList
                    (map sender_id (txsOf receiver_id a transactions)))) in *.
    destruct (Nat.leb_spec 5 nr); auto.
    destruct (Nat.leb_spec 5 ns); auto.
    destruct (Nat.leb_spec 8 ns); [lia|].
    cbn [andb] in Hl. discriminate Hl.
Qed.

Lemma legitimate_accounts_by_own_transactions_witness :
  In "BANK" (detectLegitimateAccounts bankBatch).
Proof.
  destruct (legitimate_accounts_by_own_transactions bankBatch)
    as (_ & _ & H & _).
  apply (H "BANK").
  - vm_compute. auto 20.
  - vm_compute. reflexivity.
Defined.

(** ** The filter and the early return *)

Lemma removeLegitimateTransactions_filter transactions legitimateAccounts :
  removeLegitimateTransactions transactions legitimateAccounts
  = filter (survives legitimateAccounts) transactions.
Proof.
  unfold removeLegitimateTransactions.
  destruct (StrSet.size legitimateAccounts =? 0) eqn:E; [|reflexivity].
  apply Nat.eqb_eq, length_zero_iff_nil in E. rewrite E.
  symmetry. apply forallb_filter_id. apply forallb_forall. reflexivity.
Qed.

Lemma survives_spec legitimateAccounts t :
  survives legitimateAccounts t = true
  <-> ~ In (sender_id t) legitimateAccounts
      /\ ~ In (receiver_id t) legitimateAccounts.
Proof.
  unfold survives.
  rewrite andb_true_iff, !negb_true_iff, !StrSetFacts.has_false. reflexivity.
Qed.

Lemma analyze_result getTime transactions r :
  analyzeTransactions getTime transactions = Some r ->
  (filteredOf transactions = []
   /\ r = emptyResult transactions (getAllAccounts transactions)
            (detectLegitimateAccounts transactions))
  \/ (filteredOf transactions <> []
      /\ exists chains,
          chainsOf getTime transactions = Some chains
          /\ r = mkAnalysisResult
                   (suspiciousOf getTime transactions chains)
                   (fraudRings (finalStateOf getTime transactions chains))
                   (mkAnalysisSummary
                      (StrSet.size (getAllAccounts transactions))
                      (List.length (suspiciousOf getTime transactions chains))
                      (List.length
                         (fraudRings
                            (finalStateOf getTime transactions chains)))
                      (StrSet.size (detectLegitimateAccounts transactions)))
                   (map (buildNode (finalStateOf getTime transactions chains)
                           (computeAccountStats getTime transactions)
                           (suspiciousOf getTime transactions chains)
                           (detectLegitimateAccounts transactions))
                      (getAllAccounts transactions))
                   (map edgeOf transactions)).
Proof.
  unfold analyzeTransactions. fold (filteredOf transactions).
  destruct (filteredOf transactions) as [|t l] eqn:Ef.
  - simpl. intros [= <-]. left. auto.
  - cbn [List.length Nat.eqb]. unfold detectSmurfing.
    rewrite <- Ef.
    fold (adjOf transactions) (statsOf getTime transactions)
      (cyclesOf transactions) (fanInOf getTime transactions)
      (fanOutOf getTime transactions) (hubStateOf getTime transactions)
      (chainsOf getTime transactions).
    destruct (chainsOf getTime transactions) as [chains|] eqn:Ec;
      [|discriminate].
    intros [= <-]. right. split; [rewrite Ef; discriminate|].
    exists chains. split; reflexivity.
Qed.

(** The filter keeps exactly the transactions whose two endpoints are not
    legitimate, so no account of the filtered batch is legitimate; and when
    every transaction touches a legitimate account the analysis reports no
    ring, no suspicious account, and clean nodes. *)
Theorem filter_and_early_return (getTime : string -> option Z)
    (transactions : list Transaction) (r : AnalysisResult) :
  analyzeTransactions getTime transactions = Some r ->
  let legit := detectLegitimateAccounts transactions in
  removeLegitimateTransactions transactions legit
  = filter (survives legit) transactions
  /\ (forall a,
        In a (getAllAccounts (removeLegitimateTransactions transactions legit))
        -> In a (getAllAccounts transactions) /\ ~ In a legit)
  /\ ((forall t, In t transactions ->
         In (sender_id t) legit \/ In (receiver_id t) legit) ->
      fraud_rings r = [] /\ suspicious_accounts r = []
      /\ forall node, In node (nodes r) ->
           suspicious node = false /\ ring_ids node = []
           /\ node_suspicion_score node = 0%Q).
Proof.
  intros Hr legit. split; [apply removeLegitimateTransactions_filter|]. split.
  - intros a Ha. rewrite removeLegitimateTransactions_filter in Ha.
    apply getAllAccounts_In in Ha. destruct Ha as [t [Ht Ha]].
    apply filter_In in Ht. destruct Ht as [Ht Hs].
    apply survives_spec in Hs. split.
    + apply getAllAccounts_In. eauto.
    + destruct Ha as [<-|<-]; tauto.
  - intros Hall.
    assert (Hempty : filteredOf transactions = []).
    { unfold filteredOf. rewrite removeLegitimateTransactions_filter.
      destruct (filter _ transactions) as [|t l] eqn:E; [reflexivity|].
      assert (Ht : In t (filter (survives legit) transactions))
        by (fold legit in E; rewrite E; simpl; auto).
      apply filter_In in Ht. destruct Ht as [Ht Hs].
      apply survives_spec in Hs. destruct (Hall t Ht); tauto. }
    destruct (analyze_result _ _ _ Hr) as [[_ ->]|[Hne _]]; [|contradiction].
    cbn [emptyResult fraud_rings suspicious_accounts nodes].
    repeat split; auto; apply in_map_iff in H; destruct H as [a [<- _]];
      reflexivity.
Qed.

Lemma payrollBatch_analysis :
  analyzeTransactions sampleGetTime payrollBatch
  = Some (emptyResult payrollBatch (getAllAccounts payrollBatch)
            (detectLegitimateAccounts payrollBatch)).
Proof. vm_compute. reflexivity. Qed.

Lemma filter_and_early_return_witness :
  fraud_rings (emptyResult payrollBatch (getAllAccounts payrollBatch)
                 (detectLegitimateAccounts payrollBatch)) = [].
Proof.
  destruct (filter_and_early_return sampleGetTime payrollBatch _
              payrollBatch_analysis) as (_ & _ & H).
  destruct H as [H _]; [|exact H].
  intros t Ht. left. vm_compute in Ht.
  repeat (destruct Ht as [<-|Ht]; [vm_compute; auto|]). destruct Ht.
Defined.

(** ** The summary, the nodes and the edges *)

Lemma filter_has_length (l s : list string) :
  NoDup l -> NoDup s -> (forall a, In a s -> In a l) ->
  List.length (filter (fun a => StrSet.has a s) l) = List.length s.
Proof.
  intros Hl Hs Hsub. apply Permutation_length, NoDup_Permutation; auto.
  - now apply NoDup_filter.
  - intros a. rewrite filter_In, StrSetFacts.set_has_In. split; [tauto|auto].
Qed.

Lemma filter_map_comm {A B : Type} (f : A -> B) (p : B -> bool) l :
  filter p (map f l) = map f (filter (fun x => p (f x)) l).
Proof.
  induction l as [|x l IH]; simpl; auto.
  destruct (p (f x)); simpl; now rewrite IH.
Qed.

Lemma labels_not_legitimate (l : list string) :
  (forall p, In p l ->
     In p ["cycle_length_3"; "cycle_length_4"; "cycle_length_5"; "fan_in";
           "fan_out"; "shell_network"]) ->
  match l with
  | [p] => String.eqb p "legitimate_business"
  | _ => false
  end = false.
Proof.
  intros Hvoc. destruct l as [|p [|q l]]; auto.
  destruct (Hvoc p (or_introl eq_refl))
    as [<-|[<-|[<-|[<-|[<-|[<-|[]]]]]]]; reflexivity.
Qed.

(** The result has one node per account of the unfiltered batch, in the
    order of first appearance, and one edge per transaction, in input order;
    the four counts of the summary are the number of nodes, of suspicious
    accounts, of rings, and of nodes labelled [legitimate_business]. *)
Theorem summary_counts_the_result (getTime : string -> option Z)
    (transactions : list Transaction) (r : AnalysisResult) :
  analyzeTransactions getTime transactions = Some r ->
  map id (nodes r) = getAllAccounts transactions
  /\ edges r = map edgeOf transactions
  /\ total_accounts_analyzed (summary r) = List.length (nodes r)
  /\ suspicious_accounts_flagged (summary r)
     = List.length (suspicious_accounts r)
  /\ fraud_rings_detected (summary r) = List.length (fraud_rings r)
  /\ legitimate_accounts_filtered (summary r)
     = List.length (filter labelledLegitimate (nodes r)).
Proof.
  intros Hr.
  pose proof (detected_patterns_aux _ _ _ Hr) as (_ & Hpat & Hvoc).
  assert (Hlegit : forall f : string -> GraphNode,
             (forall a, id (f a) = a) ->
             (forall a, In a (getAllAccounts transactions) ->
                labelledLegitimate (f a)
                = StrSet.has a (detectLegitimateAccounts transactions)) ->
             StrSet.size (detectLegitimateAccounts transactions)
             = List.length
                 (filter labelledLegitimate
                    (map f (getAllAccounts transactions)))).
  { intros f Hid Hf. rewrite filter_map_comm, length_map.
    rewrite (filter_ext_in _ (fun a => StrSet.has a
                                (detectLegitimateAccounts transactions)))
      by exact Hf.
    symmetry. apply filter_has_length.
    - apply getAllAccounts_NoDup.
    - apply detectLegitimateAccounts_NoDup.
    - intros a Ha. now apply detectLegitimateAccounts_In in Ha. }
  destruct (analyze_result _ _ _ Hr) as [[_ E]|[_ [chains [_ E]]]];
    rewrite E in *; clear E;
    cbn [emptyResult nodes edges summary suspicious_accounts fraud_rings
         total_accounts_analyzed suspicious_accounts_flagged
         fraud_rings_detected legitimate_accounts_filtered] in *.
  - split; [rewrite map_map; apply map_id|]. split; [reflexivity|].
    rewrite length_map. repeat split.
    apply Hlegit; [reflexivity|].
    intros a _. unfold labelledLegitimate. cbn [patterns].
    destruct (StrSet.has a _); reflexivity.
  - split; [rewrite map_map; apply map_id|]. split; [reflexivity|].
    rewrite length_map. repeat split.
    apply Hlegit; [reflexivity|].
    intros a Ha. unfold labelledLegitimate.
    rewrite (Hpat _ (in_map _ _ a Ha)). cbn [buildNode id].
    destruct (StrSet.has a _); [reflexivity|].
    apply labels_not_legitimate. intros p Hp.
    apply StrSetFacts.ofList_In, in_map_iff in Hp.
    destruct Hp as [ring [<- Hring]]. apply ringsOf_In in Hring.
    apply Hvoc, Hring.
Qed.

Lemma summary_counts_the_result_witness :
  legitimate_accounts_filtered (summary bankResult)
  = List.length (filter labelledLegitimate (nodes bankResult)).
Proof.
  destruct (summary_counts_the_result sampleGetTime bankBatch bankResult
              bankBatch_analysis) as (_ & _ & _ & _ & _ & H).
  exact H.
Defined.

(** ** The order of the suspicious accounts *)

Section SortByKey.
Context {A : Type}.
Variable key : A -> Q.

(** The comparator [(a, b) => key(b) - key(a)]: descending keys. *)
Local Abbreviation desc := (fun a b : A => Qle_bool (key b) (key a)).

Lemma insertSorted_desc x l :
  StronglySorted (fun a b => (key b <= key a)%Q) l ->
  StronglySorted (fun a b => (key b <= key a)%Q) (insertSorted desc x l).
Proof.
  induction 1 as [|y l Hs IH Hy]; simpl.
  - constructor; constructor.
  - destruct (Qle_bool (key y) (key x)) eqn:E.
    + apply Qle_bool_iff in E.
      constructor; [constructor; auto|].
      constructor; [exact E|].
      rewrite Forall_forall in *. intros z Hz.
      eapply Qle_trans; [apply Hy, Hz|exact E].
    + constructor; auto.
      assert (Hxy : (key x <= key y)%Q).
      { apply Qlt_le_weak, Qnot_le_lt. intros H.
        apply Qle_bool_iff in H. congruence. }
      rewrite Forall_forall in *. intros z Hz.
      apply (Permutation_in _ (insertSorted_perm desc x l)) in Hz.
      destruct Hz as [<-|Hz]; auto.
Qed.

Lemma sortBy_desc l :
  StronglySorted (fun a b => (key b <= key a)%Q) (sortBy desc l).
Proof.
  induction l as [|x l IH]; simpl; [constructor|].
  now apply insertSorted_desc.
Qed.

(** The sort is stable: the elements of one key keep their order. *)
Lemma insertSorted_stable q x l :
  filter (fun y => Qeq_bool (key y) q) (insertSorted desc x l)
  = filter (fun y => Qeq_bool (key y) q) (x :: l).
Proof.
  induction l as [|y l IH]; [reflexivity|].
  cbn [insertSorted].
  destruct (Qle_bool (key y) (key x)) eqn:E; [reflexivity|].
  cbn [filter] in *. rewrite IH.
  destruct (Qeq_bool (key x) q) eqn:Ex, (Qeq_bool (key y) q) eqn:Ey;
    try reflexivity.
  apply Qeq_bool_iff in Ex, Ey.
  assert (H : Qle_bool (key y) (key x) = true).
  { apply Qle_bool_iff. rewrite Ex, Ey. apply Qle_refl. }
  congruence.
Qed.

Lemma sortBy_stable q l :
  filter (fun y => Qeq_bool (key y) q) (sortBy desc l)
  = filter (fun y => Qeq_bool (key y) q) l.
Proof.
  induction l as [|x l IH]; [reflexivity|].
  cbn [sortBy]. rewrite insertSorted_stable. cbn [filter]. now rewrite IH.
Qed.
End SortByKey.

(** The suspicious accounts are listed by descending score, and the
    accounts of one score in the order in which the ring assembly first
    tagged them. *)
Theorem suspicious_accounts_sorted_by_score (getTime : string -> option Z)
    (transactions : list Transaction) (r : AnalysisResult) :
  analyzeTransactions getTime transactions = Some r ->
  StronglySorted (fun a b => (suspicion_score b <= suspicion_score a)%Q)
    (suspicious_accounts r)
  /\ (filteredOf transactions <> [] ->
      forall chains q,
        chainsOf getTime transactions = Some chains ->
        let st := finalStateOf getTime transactions chains in
        map account_id
          (filter (fun sa => Qeq_bool (suspicion_score sa) q)
             (suspicious_accounts r))
        = map account_id
            (filter (fun sa => Qeq_bool (suspicion_score sa) q)
               (buildSuspiciousAccounts st
                  (computeAccountStats getTime (filteredOf transactions))
                  (detectFan getTime receiver_id sender_id transactions)
                  (detectFan getTime sender_id receiver_id transactions)))).
Proof.
  intros Hr.
  destruct (analyze_cases _ _ _ Hr)
    as [[E ->]|[_ [chains [Hc [_ [Hs _]]]]]].
  - split; [constructor|]. intros Hne. contradiction.
  - rewrite Hs. split.
    + apply (sortBy_desc suspicion_score).
    + intros _ chains' q Hc' st. rewrite Hc in Hc'. injection Hc' as <-.
      unfold suspiciousOf, sortSuspicious.
      now rewrite (sortBy_stable suspicion_score).
Qed.

Lemma suspicious_accounts_sorted_by_score_witness :
  StronglySorted (fun a b => (suspicion_score b <= suspicion_score a)%Q)
    (suspicious_accounts mixedResult).
Proof.
  destruct (suspicious_accounts_sorted_by_score sampleGetTime mixedBatch
              mixedResult mixedBatch_analysis) as [H _].
  exact H.
Defined.

(** ** Sizes and risk floors of the emitted rings *)

Lemma QofNat_le n m : n <= m -> (QofNat n <= QofNat m)%Q.
Proof. intros H. unfold QofNat. rewrite <- Zle_Qle. lia. Qed.

Lemma capped_round_ge (z : Z) x :
  (z <= 100)%Z -> (inject_Z z <= x)%Q ->
  (inject_Z z <= round1 (Qmin x 100))%Q.
Proof.
  intros Hz Hx. apply round1_ge.
  destruct (Qmin_spec x 100) as [[_ ->]|[_ ->]]; auto.
  change 100%Q with (inject_Z 100). now rewrite <- Zle_Qle.
Qed.

Lemma ring_sizes_and_risks (getTime : string -> option Z)
    (transactions : list Transaction) (r : AnalysisResult) :
  analyzeTransactions getTime transactions = Some r ->
  forall ring, In ring (fraud_rings r) ->
    let n := List.length (member_accounts ring) in
    (pattern_type ring = "cycle"
     /\ 3 <= n <= 5 /\ NoDup (member_accounts ring)
     /\ (risk_score ring == 70 + 5 * QofNat n)%Q)
    \/ ((pattern_type ring = "fan_in" \/ pattern_type ring = "fan_out")
        /\ 11 <= n /\ NoDup (tl (member_accounts ring))
        /\ (75 <= risk_score ring <= 100)%Q)
    \/ (pattern_type ring = "shell_network"
        /\ 3 <= n /\ NoDup (member_accounts ring)
        /\ (74 <= risk_score ring <= 100)%Q).
Proof.
  intros Hr ring Hin n.
  destruct (analyze_cases _ _ _ Hr)
    as [[_ ->]|[_ [chains [Hc [Hf _]]]]]; [destruct Hin|].
  pose proof (finalState_inv getTime transactions chains Hc) as Hinv.
  rewrite Hf in Hin.
  assert (Hhub : forall hub party h d,
             In (h, d) (detectFan getTime hub party transactions) ->
             10 <= List.length (counterparties d)
             /\ NoDup (counterparties d)
             /\ (75 <= hubRisk d <= 100)%Q).
  { intros hub party h d Hd. apply detectFan_In in Hd.
    destruct Hd as [Hle ->]. cbn [hubOf counterparties temporal].
    split; [exact Hle|]. split; [apply StrSetFacts.ofList_NoDup|].
    split; [|apply hubRisk_range].
    unfold hubRisk, hubOf. cbn [counterparties temporal].
    apply (capped_round_ge 75); [lia|].
    apply QofNat_le in Hle. change (QofNat MIN_CONNECTIONS) with 10%Q in Hle.
    unfold StrSet.size in Hle. change (inject_Z 75) with 75%Q.
    match goal with
    | |- context [if ?b then _ else _] => destruct b
    end; lra. }
  subst n.
  destruct (inv_origin _ _ Hinv ring Hin) as [c Hc'|h d Hd|h d Hd|c Hc'].
  - left. destruct (detectCycles_In _ _ _ Hc') as [Hs _].
    pose proof (cyc_min _ _ Hs) as Hmin. pose proof (cyc_max _ _ Hs) as Hmax.
    split; [reflexivity|]. split; [lia|]. split; [apply (cyc_nodup _ _ Hs)|].
    unfold cycleRisk.
    destruct (List.length c) as [|[|[|[|[|[|k]]]]]]; try lia;
      vm_compute; reflexivity.
  - right; left. destruct (Hhub _ _ _ _ Hd) as (Hlen & Hnd & Hrisk).
    split; [auto|]. cbn [List.length tl]. split; [lia|]. split; assumption.
  - right; left. destruct (Hhub _ _ _ _ Hd) as (Hlen & Hnd & Hrisk).
    split; [auto|]. cbn [List.length tl]. split; [lia|]. split; assumption.
  - right; right.
    pose proof (detectShellNetworks_sound _ _ _ _ Hc) as Hok.
    rewrite Forall_forall in Hok. destruct (Hok c Hc') as [Hlen _ _ _ Hnd _].
    split; [reflexivity|]. split; [exact Hlen|]. split; [exact Hnd|].
    split; [|apply chainRisk_range].
    unfold chainRisk. apply (capped_round_ge 74); [lia|].
    apply QofNat_le in Hlen. change (QofNat 3) with 3%Q in Hlen.
    change (inject_Z 74) with 74%Q. lra.
Qed.

(** A cycle ring has 3 to 5 distinct members and risk 85, 90 or 95; a
    fan-in or fan-out ring lists its hub and then at least 10 distinct
    counterparties and has risk at least 75; a shell ring has at least 3
    distinct members and risk at least 74.  Every ring is of one of these
    four types. *)
Theorem ring_sizes_and_risk_floors (getTime : string -> option Z)
    (transactions : list Transaction) (r : AnalysisResult) :
  analyzeTransactions getTime transactions = Some r ->
  forall ring, In ring (fraud_rings r) ->
    let n := List.length (member_accounts ring) in
    (pattern_type ring = "cycle"
     /\ 3 <= n <= 5 /\ NoDup (member_accounts ring)
     /\ (risk_score ring == 70 + 5 * QofNat n)%Q)
    \/ ((pattern_type ring = "fan_in" \/ pattern_type ring = "fan_out")
        /\ 11 <= n /\ NoDup (tl (member_accounts ring))
        /\ (75 <= risk_score ring <= 100)%Q)
    \/ (pattern_type ring = "shell_network"
        /\ 3 <= n /\ NoDup (member_accounts ring)
        /\ (74 <= risk_score ring <= 100)%Q).
Proof. apply ring_sizes_and_risks. Qed.

Lemma ring_sizes_and_risk_floors_witness :
  (risk_score mixedCycleRing
   == 70 + 5 * QofNat (List.length (member_accounts mixedCycleRing)))%Q.
Proof.
  destruct (ring_sizes_and_risk_floors sampleGetTime mixedBatch mixedResult
              mixedBatch_analysis mixedCycleRing)
    as [(_ & _ & _ & H)|[([H|H] & _)|(H & _)]];
    [vm_compute; auto|exact H|discriminate H|discriminate H|discriminate H].
Defined.

(** ** Shell chains: the longest chains are kept *)

Lemma isSubsetOf_incl chain existing :
  isSubsetOf chain existing = true <-> incl chain existing.
Proof.
  unfold isSubsetOf, incl. rewrite forallb_forall.
  split; intros H a Ha; specialize (H a Ha).
  - apply StrSetFacts.set_has_In in H.
    exact (proj1 (StrSetFacts.ofList_In _ _) H).
  - apply StrSetFacts.set_has_In.
    exact (proj2 (StrSetFacts.ofList_In _ _) H).
Qed.

Lemma StronglySorted_snoc {A : Type} (R : A -> A -> Prop) l x :
  StronglySorted R l -> Forall (fun a => R a x) l ->
  StronglySorted R (l ++ [x]).
Proof.
  induction 1 as [|y l Hs IH Hy]; intros Hx; simpl.
  - constructor; constructor.
  - apply Forall_cons_iff in Hx. destruct Hx as [Hyx Hx].
    constructor; auto. apply Forall_app. split; auto.
Qed.

Lemma ForallOrdPairs_snoc {A : Type} (R : A -> A -> Prop) l x :
  ForallOrdPairs R l -> Forall (fun a => R a x) l ->
  ForallOrdPairs R (l ++ [x]).
Proof.
  induction 1 as [|y l Hy Hs IH]; intros Hx; simpl.
  - constructor; constructor.
  - apply Forall_cons_iff in Hx. destruct Hx as [Hyx Hx].
    constructor; auto. apply Forall_app. split; auto.
Qed.

Lemma StronglySorted_app_l {A : Type} (R : A -> A -> Prop) l1 l2 :
  StronglySorted R (l1 ++ l2) ->
  forall a b, In a l1 -> In b l2 -> R a b.
Proof.
  induction l1 as [|x l1 IH]; simpl; intros Hs a b Ha Hb; [destruct Ha|].
  apply StronglySorted_inv in Hs. destruct Hs as [Hs Hx].
  destruct Ha as [<-|Ha]; [|eauto].
  rewrite Forall_forall in Hx. apply Hx, in_app_iff. auto.
Qed.

Section EliminateSubsets.
Local Abbreviation longerFirst :=
  (fun a b : list string => List.length b <= List.length a).
Local Abbreviation keep :=
  (fun (uniqueChains : list (list string)) chain =>
     if existsb (isSubsetOf chain) uniqueChains then uniqueChains
     else uniqueChains ++ [chain]).

Lemma keep_fold l : forall kept seen,
  StronglySorted longerFirst (seen ++ l) -> Kept kept seen ->
  Kept (fold_left keep l kept) (seen ++ l).
Proof.
  induction l as [|c l IH]; intros kept seen Hs Hk.
  - now rewrite app_nil_r.
  - cbn [fold_left].
    pose proof (StronglySorted_app_l _ seen (c :: l) Hs) as Hlong.
    replace (seen ++ c :: l) with ((seen ++ [c]) ++ l) in *
      by (now rewrite <- app_assoc).
    apply IH; [exact Hs|].
    destruct Hk as [Hseen Hcov Hsort Hlater].
    destruct (existsb (isSubsetOf c) kept) eqn:E.
    + apply existsb_exists in E. destruct E as [u [Hu Hsub]].
      apply isSubsetOf_incl in Hsub.
      constructor; auto.
      * intros u' Hu'. apply in_app_iff. auto.
      * intros c' Hc'. in_snoc Hc'; eauto.
    + assert (Hnone : forall u, In u kept -> ~ incl c u).
      { intros u Hu Hsub. apply isSubsetOf_incl in Hsub.
        assert (H : existsb (isSubsetOf c) kept = true)
          by (apply existsb_exists; eauto).
        congruence. }
      constructor.
      * intros u Hu. in_snoc Hu; apply in_app_iff; simpl; auto.
      * intros c' Hc'. in_snoc Hc'.
        -- destruct (Hcov c' Hc') as [u [Hu Hsub]]. exists u.
           split; auto. apply in_app_iff. auto.
        -- exists c. split; [apply in_app_iff; simpl; auto|apply incl_refl].
      * apply StronglySorted_snoc; auto. apply Forall_forall. intros u Hu.
        apply Hlong; simpl; auto.
      * apply ForallOrdPairs_snoc; auto. apply Forall_forall. auto.
Qed.

Lemma sortBy_longerFirst (chains : list (list string)) :
  StronglySorted longerFirst
    (sortBy (fun a b => List.length b <=? List.length a) chains).
Proof.
  induction chains as [|x l IH]; simpl; [constructor|].
  induction IH as [|y s Hs IHs Hy]; simpl.
  - constructor; constructor.
  - destruct (Nat.leb_spec (List.length y) (List.length x)) as [E|E].
    + constructor; [constructor; auto|].
      constructor; [exact E|].
      rewrite Forall_forall in *. intros z Hz. specialize (Hy z Hz).
      cbv beta in Hy. lia.
    + constructor; auto.
      rewrite Forall_forall in *. intros z Hz.
      apply (Permutation_in _ (insertSorted_perm _ x s)) in Hz.
      destruct Hz as [<-|Hz]; [lia|auto].
Qed.

Lemma eliminateSubsets_Kept chains :
  Kept (eliminateSubsets chains)
    (sortBy (fun a b => List.length b <=? List.length a) chains).
Proof.
  unfold eliminateSubsets.
  apply (keep_fold _ [] []).
  - apply sortBy_longerFirst.
  - constructor; try (intros ? []); constructor.
Qed.
End EliminateSubsets.

Lemma ForallOrdPairs_nth {A : Type} (R : A -> A -> Prop) l :
  ForallOrdPairs R l ->
  forall i j a b, i < j -> nth_error l i = Some a -> nth_error l j = Some b ->
    R a b.
Proof.
  induction 1 as [|x l Hx Hl IH]; intros i j a b Hij Hi Hj.
  - destruct i; discriminate.
  - destruct j as [|j]; [lia|]. destruct i as [|i].
    + injection Hi as <-. rewrite Forall_forall in Hx.
      apply Hx. eapply nth_error_In. exact Hj.
    + apply (IH i j); auto. lia.
Qed.

Lemma StronglySorted_pairs {A : Type} (R : A -> A -> Prop) l :
  StronglySorted R l -> ForallOrdPairs R l.
Proof. induction 1; constructor; auto. Qed.

(** The chains that [detectShellNetworks] returns are recorded chains,
    longest first; every recorded chain is included in a returned one; and
    no returned chain is included in another returned chain. *)
Theorem shell_chains_are_maximal (adj : Adjacency) (accountStats : StatsTable)
    (cycleNodes : StrSet.t) (chains : list (list string)) :
  detectShellNetworks adj accountStats cycleNodes = Some chains ->
  exists raw,
    rawChains adj accountStats cycleNodes = Some raw
    /\ (forall u, In u chains -> In u raw)
    /\ (forall c, In c raw -> exists u, In u chains /\ incl c u)
    /\ StronglySorted (fun a b => List.length b <= List.length a) chains
    /\ (forall i j ci cj, i <> j ->
          nth_error chains i = Some ci -> nth_error chains j = Some cj ->
          ~ incl ci cj).
Proof.
  intros Hd.
  pose proof (detectShellNetworks_sound _ _ _ _ Hd) as Hok.
  rewrite Forall_forall in Hok.
  unfold detectShellNetworks in Hd.
  destruct (rawChains adj accountStats cycleNodes) as [raw|] eqn:Er;
    [|discriminate].
  injection Hd as <-.
  destruct (eliminateSubsets_Kept raw) as [Hseen Hcov Hsort Hlater].
  exists raw. split; [reflexivity|]. split; [|split; [|split]].
  - intros u Hu. eapply sortBy_In. apply Hseen, Hu.
  - intros c Hc. apply Hcov. now apply sortBy_In.
  - exact Hsort.
  - intros i j ci cj Hij Hi Hj Hsub.
    destruct (Nat.lt_total i j) as [Hlt|[->|Hlt]]; [|congruence|].
    + pose proof (ForallOrdPairs_nth _ _ (StronglySorted_pairs _ _ Hsort)
                    i j ci cj Hlt Hi Hj) as Hlen.
      cbv beta in Hlen.
      pose proof (chain_nodup _ _ _ _ (Hok ci (nth_error_In _ _ Hi))) as Hnd.
      pose proof (NoDup_incl_length Hnd Hsub) as Hle.
      apply (ForallOrdPairs_nth _ _ Hlater i j ci cj Hlt Hi Hj).
      apply NoDup_length_incl; auto.
    + apply (ForallOrdPairs_nth _ _ Hlater j i cj ci Hlt Hj Hi). exact Hsub.
Qed.

Lemma shell_chains_are_maximal_witness :
  exists raw,
    rawChains (adjOf mixedBatch) (statsOf sampleGetTime mixedBatch)
      (cycleNodes (hubStateOf sampleGetTime mixedBatch)) = Some raw
    /\ forall c, In c raw -> incl c ["SRC"; "M1"; "M2"; "M3"; "DST"].
Proof.
  destruct (shell_chains_are_maximal (adjOf mixedBatch)
              (statsOf sampleGetTime mixedBatch)
              (cycleNodes (hubStateOf sampleGetTime mixedBatch))
              [["SRC"; "M1"; "M2"; "M3"; "DST"]])
    as (raw & Hraw & _ & Hcov & _).
  - vm_compute. reflexivity.
  - exists raw. split; [exact Hraw|].
    intros c Hc. destruct (Hcov c Hc) as [u [[<-|[]] Hsub]]. exact Hsub.
Defined.

(** ** Totals over all accounts *)

Lemma Qsum_acc l : forall a, (fold_left Qplus l a == a + Qsum l)%Q.
Proof.
  unfold Qsum. induction l as [|x l IH]; intros a; simpl.
  - ring.
  - rewrite IH, (IH (0 + x)%Q). ring.
Qed.

Lemma Qsum_cons x l : (Qsum (x :: l) == x + Qsum l)%Q.
Proof. unfold Qsum at 1. simpl. rewrite Qsum_acc. ring. Qed.

Lemma Qsum_app l1 l2 : (Qsum (l1 ++ l2) == Qsum l1 + Qsum l2)%Q.
Proof.
  induction l1 as [|x l1 IH]; simpl.
  - unfold Qsum at 2. simpl. ring.
  - rewrite !Qsum_cons, IH. ring.
Qed.


Section TableSums.
Context {V : Type}.
Variable d : V.

(** A natural-number measure of the entries that each update increases by
    a weight of the transaction. *)
Section NatMeasure.
Variable g : V -> nat.
Hypothesis g_d : g d = 0.

Local Abbreviation total :=
  (fun m : StrMap.t V => list_sum (map (fun e => g (snd e)) m)).



End NatMeasure.

(** The same for a rational measure. *)
Section QMeasure.
Variable g : V -> Q.
Hypothesis g_d : (g d == 0)%Q.

Local Abbreviation totalQ :=
  (fun m : StrMap.t V => Qsum (map (fun e => g (snd e)) m)).



End QMeasure.
End TableSums.











(** ** The temporal flag of a hub *)

Lemma ofList_incl_size l l' :
  incl l l' -> StrSet.size (StrSet.ofList l) <= StrSet.size (StrSet.ofList l').
Proof.
  intros Hsub. unfold StrSet.size.
  apply NoDup_incl_length; [apply StrSetFacts.ofList_NoDup|].
  intros a Ha. apply StrSetFacts.ofList_In. apply Hsub.
  exact (proj1 (StrSetFacts.ofList_In _ _) Ha).
Qed.

Lemma windowFull_Some getTime party txs start :
  windowFull getTime party txs (Some start)
  = (MIN_CONNECTIONS
     <=? StrSet.size (partiesInWindow getTime party txs start)).
Proof. reflexivity. Qed.

(** The temporal flag of a hub holds exactly when one of its transactions
    has a timestamp that parses and starts a 72-hour window (both ends
    included) in which at least 10 distinct counterparties transact with
    the hub; the order in which the start times are tried does not matter.
    A flagged hub has at least 10 distinct counterparties, and a hub with
    10 distinct counterparties whose transactions all fall into the window
    of one of them is flagged. *)
Theorem temporal_flag_is_a_full_window (getTime : string -> option Z)
    (party : Transaction -> string) (txs : list Transaction) :
  WINDOW_MS = 259200000%Z
  /\ (temporalCluster getTime party txs = true
      <-> exists t start,
            In t txs /\ getTime (timestamp t) = Some start
            /\ 10 <= StrSet.size (partiesInWindow getTime party txs start))
  /\ (temporalCluster getTime party txs = true ->
      10 <= StrSet.size (StrSet.ofList (map party txs)))
  /\ (10 <= StrSet.size (StrSet.ofList (map party txs)) ->
      (exists t0 start,
          In t0 txs /\ getTime (timestamp t0) = Some start
          /\ forall t, In t txs ->
               exists ts, getTime (timestamp t) = Some ts
                          /\ (start <= ts <= start + WINDOW_MS)%Z) ->
      temporalCluster getTime party txs = true).
Proof.
  split; [reflexivity|].
  assert (Hiff : temporalCluster getTime party txs = true
                 <-> exists t start,
                       In t txs /\ getTime (timestamp t) = Some start
                       /\ 10 <= StrSet.size
                                  (partiesInWindow getTime party txs start)).
  { rewrite temporalCluster_eq, existsb_exists. split.
    - intros [t [Ht Hw]].
      destruct (getTime (timestamp t)) as [start|] eqn:E.
      + rewrite windowFull_Some in Hw. apply Nat.leb_le in Hw. eauto.
      + rewrite windowFull_NaN in Hw. discriminate.
    - intros (t & start & Ht & E & Hw). exists t. split; auto.
      rewrite E, windowFull_Some. now apply Nat.leb_le. }
  split; [exact Hiff|]. split.
  - intros Hflag. apply Hiff in Hflag.
    destruct Hflag as (t & start & _ & _ & Hw).
    eapply Nat.le_trans; [exact Hw|].
    apply ofList_incl_size. intros a Ha. apply in_map_iff in Ha.
    destruct Ha as [u [<- Hu]]. apply filter_In in Hu.
    apply in_map. tauto.
  - intros Hsize (t0 & start & Ht0 & E & Hall). apply Hiff.
    exists t0, start. split; auto. split; auto.
    eapply Nat.le_trans; [exact Hsize|].
    apply ofList_incl_size. intros a Ha. apply in_map_iff in Ha.
    destruct Ha as [u [<- Hu]]. apply in_map, filter_In. split; auto.
    destruct (Hall u Hu) as [ts [-> Hts]].
    apply andb_true_iff. split; apply Z.leb_le; lia.
Qed.

Lemma temporal_flag_is_a_full_window_witness :
  10 <= StrSet.size
          (StrSet.ofList (map sender_id (txsOf receiver_id "HUB" mixedBatch))).
Proof.
  destruct (temporal_flag_is_a_full_window sampleGetTime sender_id
              (txsOf receiver_id "HUB" mixedBatch)) as (_ & _ & H & _).
  apply H. vm_compute. reflexivity.
Defined.

(** ** Rings and candidates *)

Lemma has_map {A : Type} (f : A -> string) x l :
  StrSet.has x (map f l) = existsb (fun y => String.eqb x (f y)) l.
Proof.
  unfold StrSet.has. induction l as [|y l IH]; simpl; auto. now rewrite IH.
Qed.

Lemma existsb_over_map {A B : Type} (f : B -> bool) (g : A -> B) l :
  existsb f (map g l) = existsb (fun x => f (g x)) l.
Proof. induction l as [|x l IH]; simpl; auto. now rewrite IH. Qed.

Lemma acceptCandidate_shape members patternType label extra risk st :
  (forall a st, Extends st (extra a st)) ->
  ringDeduplicationSet st = map ringKey (fraudRings st) ->
  let st' := acceptCandidate members patternType label extra risk st in
  ringDeduplicationSet st' = map ringKey (fraudRings st')
  /\ map ringShape (fraudRings st')
     = keepFirst (map ringShape (fraudRings st)) (members, patternType).
Proof.
  intros Hextra Hseen. unfold acceptCandidate, keepFirst.
  rewrite existsb_over_map. unfold candidateKey at 1. cbn [fst snd].
  change (fun x => String.eqb (makeRingDeduplicationKey members patternType)
                     (candidateKey (ringShape x)))
    with (fun x => String.eqb (makeRingDeduplicationKey members patternType)
                     (ringKey x)).
  rewrite <- has_map, <- Hseen.
  destruct (StrSet.has _ (ringDeduplicationSet st)) eqn:E; [auto|].
  set (rid := ringIdOf (ringCounter st)).
  set (st1 := snd (nextRingId (markSeen _ st))).
  pose proof (member_loop label rid extra Hextra members st1) as Hloop.
  cbv zeta in Hloop. destruct Hloop as [[Er _ Es _ _ _] _].
  change (fraudRings st1) with (fraudRings st) in Er.
  change (ringDeduplicationSet st1)
    with (StrSet.add (makeRingDeduplicationKey members patternType)
            (ringDeduplicationSet st)) in Es.
  cbn [pushRing ringDeduplicationSet fraudRings]. rewrite Er, Es, !map_app.
  unfold StrSet.add. rewrite E, Hseen. split; reflexivity.
Qed.

Section CandidateLoops.
Context {A : Type}.
Variables (accept : RingState -> A -> RingState)
  (cand : A -> list string * string).
Hypothesis accept_shape : forall st x,
  ringDeduplicationSet st = map ringKey (fraudRings st) ->
  ringDeduplicationSet (accept st x) = map ringKey (fraudRings (accept st x))
  /\ map ringShape (fraudRings (accept st x))
     = keepFirst (map ringShape (fraudRings st)) (cand x).

Lemma loop_shape l : forall st,
  ringDeduplicationSet st = map ringKey (fraudRings st) ->
  let st' := fold_left accept l st in
  ringDeduplicationSet st' = map ringKey (fraudRings st')
  /\ map ringShape (fraudRings st')
     = fold_left keepFirst (map cand l) (map ringShape (fraudRings st)).
Proof.
  induction l as [|x l IH]; intros st Hseen; [split; auto|].
  cbn [fold_left map]. destruct (accept_shape st x Hseen) as [Hs <-].
  now apply IH.
Qed.
End CandidateLoops.

Lemma acceptCycle_shape st cycle :
  ringDeduplicationSet st = map ringKey (fraudRings st) ->
  ringDeduplicationSet (acceptCycle st cycle)
  = map ringKey (fraudRings (acceptCycle st cycle))
  /\ map ringShape (fraudRings (acceptCycle st cycle))
     = keepFirst (map ringShape (fraudRings st)) (cycle, "cycle").
Proof.
  rewrite acceptCycle_eq. apply acceptCandidate_shape.
  apply countCycleMember_Extends.
Qed.

Lemma acceptHub_shape patternType st entry :
  ringDeduplicationSet st = map ringKey (fraudRings st) ->
  ringDeduplicationSet (acceptHub patternType st entry)
  = map ringKey (fraudRings (acceptHub patternType st entry))
  /\ map ringShape (fraudRings (acceptHub patternType st entry))
     = keepFirst (map ringShape (fraudRings st))
         (hubCandidate patternType entry).
Proof.
  destruct entry as [h d]. rewrite acceptHub_eq.
  apply acceptCandidate_shape. apply id_Extends.
Qed.

Lemma acceptChain_shape st chain :
  ringDeduplicationSet st = map ringKey (fraudRings st) ->
  ringDeduplicationSet (acceptChain st chain)
  = map ringKey (fraudRings (acceptChain st chain))
  /\ map ringShape (fraudRings (acceptChain st chain))
     = keepFirst (map ringShape (fraudRings st)) (chain, "shell_network").
Proof.
  rewrite acceptChain_eq. apply acceptCandidate_shape. apply id_Extends.
Qed.

Lemma finalState_shape getTime transactions chains :
  map ringShape (fraudRings (finalStateOf getTime transactions chains))
  = firstOfEachKey (candidatesOf getTime transactions chains).
Proof.
  unfold finalStateOf, hubStateOf, assembleCyclesAndHubs, firstOfEachKey,
    candidatesOf.
  rewrite !fold_left_app.
  destruct (loop_shape acceptCycle (fun c => (c, "cycle")) acceptCycle_shape
              (cyclesOf transactions) initialRingState eq_refl) as [H1 E1].
  cbn [initialRingState fraudRings map] in E1. rewrite <- E1.
  destruct (loop_shape (acceptHub "fan_in") (hubCandidate "fan_in")
              (acceptHub_shape "fan_in")
              (fanInOf getTime transactions) _ H1) as [H2 E2].
  rewrite <- E2.
  destruct (loop_shape (acceptHub "fan_out") (hubCandidate "fan_out")
              (acceptHub_shape "fan_out")
              (fanOutOf getTime transactions) _ H2) as [H3 E3].
  rewrite <- E3.
  destruct (loop_shape acceptChain (fun c => (c, "shell_network"))
              acceptChain_shape chains _ H3) as [_ E4].
  exact E4.
Qed.

(** ** The deduplication key *)

Section Separator.
Variable sep : ascii.

Lemma hasChar_app a b : hasChar sep (a ++ b) = hasChar sep a || hasChar sep b.
Proof.
  induction a as [|c a IH]; simpl; auto. now rewrite IH, orb_assoc.
Qed.

Lemma append_sep_inj : forall x x' r r',
  hasChar sep x = false -> hasChar sep x' = false ->
  (x ++ String sep r)%string = (x' ++ String sep r')%string ->
  x = x' /\ r = r'.
Proof.
  induction x as [|c x IH]; intros [|c' x'] r r' Hx Hx'; simpl in *.
  - intros [= ->]. auto.
  - intros [= <- _]. rewrite Ascii.eqb_refl in Hx'. discriminate.
  - intros [= -> _]. rewrite Ascii.eqb_refl in Hx. discriminate.
  - intros [= -> E]. apply orb_false_iff in Hx, Hx'.
    destruct (IH x' r r') as [-> ->]; tauto.
Qed.

Lemma join_sep_cons2 x y l :
  join (String sep "") (x :: y :: l)
  = (x ++ String sep (join (String sep "") (y :: l)))%string.
Proof. reflexivity. Qed.

Lemma join_sep_inj : forall l l',
  l <> [] -> l' <> [] ->
  Forall (fun s => hasChar sep s = false) l ->
  Forall (fun s => hasChar sep s = false) l' ->
  join (String sep "") l = join (String sep "") l' -> l = l'.
Proof.
  induction l as [|x l IH]; intros [|x' l'] Hl Hl' Hf Hf' E; try congruence.
  inversion Hf as [|? ? Hx Hfl]; subst.
  inversion Hf' as [|? ? Hx' Hfl']; subst.
  destruct l as [|y l], l' as [|y' l'].
  - simpl in E. now subst.
  - rewrite join_sep_cons2 in E. simpl in E. subst x.
    rewrite hasChar_app in Hx. simpl in Hx.
    rewrite Ascii.eqb_refl, orb_true_r in Hx. discriminate.
  - rewrite join_sep_cons2 in E. simpl in E. subst x'.
    rewrite hasChar_app in Hx'. simpl in Hx'.
    rewrite Ascii.eqb_refl, orb_true_r in Hx'. discriminate.
  - rewrite !join_sep_cons2 in E.
    destruct (append_sep_inj _ _ _ _ Hx Hx' E) as [-> E'].
    f_equal. apply IH; auto; discriminate.
Qed.
End Separator.

Lemma key_inj members members' patternType patternType' :
  In patternType patternTypes -> In patternType' patternTypes ->
  members <> [] -> members' <> [] ->
  (forall a, In a members -> hasChar "," a = false) ->
  (forall a, In a members' -> hasChar "," a = false) ->
  makeRingDeduplicationKey members patternType
  = makeRingDeduplicationKey members' patternType' ->
  patternType = patternType' /\ Permutation members members'.
Proof.
  intros Hp Hp' Hne Hne' Hc Hc' E. unfold makeRingDeduplicationKey in E.
  cbv zeta in E.
  assert (Hsort : forall l, Permutation (sortStrings l) l)
    by (intros l; apply sortBy_perm).
  assert (Hjoin : join "," (sortStrings members)
                  = join "," (sortStrings members') ->
                  Permutation members members').
  { intros Ej. apply (join_sep_inj ",") in Ej.
    - rewrite <- (Hsort members), Ej. apply Hsort.
    - intros En. apply Hne. apply Permutation_nil.
      rewrite <- En. apply Hsort.
    - intros En. apply Hne'. apply Permutation_nil.
      rewrite <- En. apply Hsort.
    - apply Forall_forall. intros a Ha. apply Hc.
      eapply Permutation_in; [apply Hsort|exact Ha].
    - apply Forall_forall. intros a Ha. apply Hc'.
      eapply Permutation_in; [apply Hsort|exact Ha]. }
  unfold patternTypes in Hp, Hp'.
  destruct Hp as [<-|[<-|[<-|[<-|[]]]]],
    Hp' as [<-|[<-|[<-|[<-|[]]]]]; cbn [String.append] in E;
    try discriminate E; (split; [reflexivity|]); apply Hjoin;
    now injection E.
Qed.

(** The deduplication key does not depend on the order of the members; and
    for the four pattern types and non-empty member lists whose identifiers
    contain no comma, equal keys mean the same pattern type and the same
    members with the same multiplicities. *)
Theorem dedup_key_identifies_type_and_members :
  (forall members members' patternType,
     Permutation members members' ->
     makeRingDeduplicationKey members patternType
     = makeRingDeduplicationKey members' patternType)
  /\ (forall members members' patternType patternType',
        In patternType patternTypes -> In patternType' patternTypes ->
        members <> [] -> members' <> [] ->
        (forall a, In a members -> hasChar "," a = false) ->
        (forall a, In a members' -> hasChar "," a = false) ->
        makeRingDeduplicationKey members patternType
        = makeRingDeduplicationKey members' patternType' ->
        patternType = patternType' /\ Permutation members members').
Proof.
  split.
  - intros members members' patternType Hp. unfold makeRingDeduplicationKey.
    cbv zeta. now rewrite (sortStrings_perm members members').
  - apply key_inj.
Qed.

Lemma dedup_key_identifies_type_and_members_witness :
  makeRingDeduplicationKey ["A"; "B"; "C"] "cycle"
  = makeRingDeduplicationKey ["A"; "C"; "B"] "cycle".
Proof.
  destruct dedup_key_identifies_type_and_members as [H _].
  apply H. apply perm_skip, perm_swap.
Defined.

Lemma keepFirst_fold l : forall kept,
  (forall c, In c (fold_left keepFirst l kept) -> In c kept \/ In c l)
  /\ (forall c, In c kept -> In c (fold_left keepFirst l kept))
  /\ (forall c, In c l ->
        exists c', In c' (fold_left keepFirst l kept)
                   /\ candidateKey c' = candidateKey c).
Proof.
  induction l as [|x l IH]; intros kept; cbn [fold_left].
  - split; [auto|]. split; [auto|intros c []].
  - destruct (IH (keepFirst kept x)) as (H1 & H2 & H3).
    assert (Hk : forall c, In c (keepFirst kept x) -> In c kept \/ c = x).
    { intros c. unfold keepFirst. destruct (existsb _ kept); auto.
      intros Hc. in_snoc Hc; auto. }
    assert (Hk' : forall c, In c kept -> In c (keepFirst kept x)).
    { intros c Hc. unfold keepFirst. destruct (existsb _ kept); auto.
      apply in_app_iff. auto. }
    split; [|split].
    + intros c Hc. destruct (H1 c Hc) as [Hc'|Hc']; [|simpl; auto].
      destruct (Hk c Hc') as [?| ->]; simpl; auto.
    + auto.
    + intros c [<-|Hc]; [|auto].
      destruct (existsb
                  (fun c' => String.eqb (candidateKey x) (candidateKey c'))
                  kept) eqn:E.
      * apply existsb_exists in E. destruct E as [c' [Hc' Ek]].
        apply String.eqb_eq in Ek. exists c'. split; auto.
      * exists x. split; auto.
        apply H2. unfold keepFirst. rewrite E. apply in_app_iff. simpl. auto.
Qed.

Lemma candidate_wellformed getTime transactions chains c :
  chainsOf getTime transactions = Some chains ->
  In c (candidatesOf getTime transactions chains) ->
  fst c <> [] /\ In (snd c) patternTypes
  /\ forall a, In a (fst c) -> In a (getAllAccounts transactions).
Proof.
  intros Hc Hin. unfold candidatesOf in Hin.
  assert (Hends : forall t, In t transactions ->
                    In (receiver_id t) (getAllAccounts transactions)
                    /\ In (sender_id t) (getAllAccounts transactions)).
  { intros t Ht. destruct (endpoints_in_universe _ _ Ht). auto. }
  assert (Hends' : forall t, In t transactions ->
                     In (sender_id t) (getAllAccounts transactions)
                     /\ In (receiver_id t) (getAllAccounts transactions)).
  { intros t Ht. destruct (endpoints_in_universe _ _ Ht). auto. }
  rewrite !in_app_iff, !in_map_iff in Hin.
  destruct Hin as [[x [<- Hx]]|[[[h d] [<- Hx]]|[[[h d] [<- Hx]]|[x [<- Hx]]]]];
    cbn [fst snd hubCandidate patternTypes].
  - split; [|split].
    + destruct (detectCycles_In _ _ _ Hx) as [Hs _].
      pose proof (cyc_min _ _ Hs). destruct x; [simpl in *; lia|discriminate].
    + simpl. auto.
    + intros a Ha. exact (cycle_members_in_universe _ _ _ Hx Ha).
  - split; [discriminate|]. split; [simpl; auto|].
    intros a Ha.
    exact (hub_members_in_universe _ _ _ _ _ _ _ Hends Hx Ha).
  - split; [discriminate|]. split; [simpl; auto|].
    intros a Ha.
    exact (hub_members_in_universe _ _ _ _ _ _ _ Hends' Hx Ha).
  - pose proof (detectShellNetworks_sound _ _ _ _ Hc) as Hok.
    rewrite Forall_forall in Hok. specialize (Hok x Hx).
    split; [|split].
    + pose proof (chain_length _ _ _ _ Hok).
      destruct x; [simpl in *; lia|discriminate].
    + simpl. auto 10.
    + intros a Ha. exact (chain_members_in_universe _ _ _ _ _ Hok Ha).
Qed.

(** The emitted rings are the candidates (detected cycles, fan-in hubs with
    their senders, fan-out hubs with their receivers, shell chains, in this
    order) from which every candidate whose deduplication key was met
    before is dropped: every candidate has a ring with its key, and when no
    account identifier contains a comma, a ring of its pattern type over
    the same members. *)
Theorem rings_are_the_first_candidates (getTime : string -> option Z)
    (transactions : list Transaction) (r : AnalysisResult) :
  analyzeTransactions getTime transactions = Some r ->
  filteredOf transactions <> [] ->
  exists chains,
    chainsOf getTime transactions = Some chains
    /\ map ringShape (fraud_rings r)
       = firstOfEachKey (candidatesOf getTime transactions chains)
    /\ (forall c, In c (candidatesOf getTime transactions chains) ->
          exists ring, In ring (fraud_rings r) /\ ringKey ring = candidateKey c)
    /\ ((forall a, In a (getAllAccounts transactions) ->
           hasChar "," a = false) ->
        forall c, In c (candidatesOf getTime transactions chains) ->
          exists ring,
            In ring (fraud_rings r)
            /\ pattern_type ring = snd c
            /\ Permutation (member_accounts ring) (fst c)).
Proof.
  intros Hr Hne.
  destruct (analyze_cases _ _ _ Hr)
    as [[E _]|[_ [chains [Hc [Hf _]]]]]; [contradiction|].
  exists chains. split; [exact Hc|]. rewrite Hf.
  pose proof (finalState_shape getTime transactions chains) as Hshape.
  split; [exact Hshape|].
  assert (Hkey : forall c, In c (candidatesOf getTime transactions chains) ->
                   exists ring,
                     In ring (fraudRings
                                (finalStateOf getTime transactions chains))
                     /\ ringKey ring = candidateKey c
                     /\ In (ringShape ring)
                          (candidatesOf getTime transactions chains)).
  { intros c Hin.
    destruct (keepFirst_fold (candidatesOf getTime transactions chains) [])
      as (H1 & _ & H3).
    destruct (H3 c Hin) as [c' [Hc' Ek]].
    fold (firstOfEachKey (candidatesOf getTime transactions chains)) in Hc'.
    rewrite <- Hshape in Hc'. apply in_map_iff in Hc'.
    destruct Hc' as [ring [<- Hring]]. exists ring. split; auto.
    split; auto.
    destruct (H1 (ringShape ring)) as [[]|H]; auto.
    fold (firstOfEachKey (candidatesOf getTime transactions chains)).
    rewrite <- Hshape. now apply in_map. }
  split.
  - intros c Hin. destruct (Hkey c Hin) as [ring [H1 [H2 _]]]. eauto.
  - intros Hcomma c Hin. destruct (Hkey c Hin) as [ring [H1 [H2 H3]]].
    exists ring. split; auto.
    destruct (candidate_wellformed _ _ _ _ Hc Hin) as (Hn & Hp & Hu).
    destruct (candidate_wellformed _ _ _ _ Hc H3) as (Hn' & Hp' & Hu').
    apply key_inj; auto.
Qed.

Lemma rings_are_the_first_candidates_witness :
  exists chains,
    chainsOf sampleGetTime mixedBatch = Some chains
    /\ map ringShape (fraud_rings mixedResult)
       = firstOfEachKey (candidatesOf sampleGetTime mixedBatch chains).
Proof.
  destruct (rings_are_the_first_candidates sampleGetTime mixedBatch
              mixedResult mixedBatch_analysis)
    as (chains & Hc & Hs & _).
  - vm_compute. discriminate.
  - exists chains. split; [exact Hc|exact Hs].
Defined.

(** ** The two engines *)

(** On a batch without legitimate accounts the engine with the filter and
    the engine of lib/graph-engine.ts report the same suspicious accounts,
    rings, nodes, edges and counts. *)
Theorem engines_agree_without_legitimate_accounts
    (getTime : string -> option Z) (transactions : list Transaction)
    (r : AnalysisResult) :
  detectLegitimateAccounts transactions = [] ->
  analyzeTransactions getTime transactions = Some r ->
  exists r',
    Lib.analyzeTransactions getTime transactions = Some r'
    /\ suspicious_accounts r = Lib.suspicious_accounts r'
    /\ fraud_rings r = Lib.fraud_rings r'
    /\ nodes r = Lib.nodes r'
    /\ edges r = Lib.edges r'
    /\ total_accounts_analyzed (summary r)
       = Lib.total_accounts_analyzed (Lib.summary r')
    /\ suspicious_accounts_flagged (summary r)
       = Lib.suspicious_accounts_flagged (Lib.summary r')
    /\ fraud_rings_detected (summary r)
       = Lib.fraud_rings_detected (Lib.summary r')
    /\ legitimate_accounts_filtered (summary r) = 0.
Proof.
  intros Hlegit Hr.
  assert (Hfilter : filteredOf transactions = transactions).
  { unfold filteredOf, removeLegitimateTransactions. now rewrite Hlegit. }
  destruct (analyze_result _ _ _ Hr) as [[E ->]|[_ [chains [Hc ->]]]].
  - rewrite Hfilter in E. subst transactions.
    eexists. split; [reflexivity|]. repeat split.
  - unfold Lib.analyzeTransactions, detectSmurfing.
    unfold chainsOf, hubStateOf, cyclesOf, adjOf, statsOf, fanInOf, fanOutOf
      in Hc.
    rewrite Hfilter in Hc. rewrite Hc.
    eexists. split; [reflexivity|].
    unfold suspiciousOf, finalStateOf, hubStateOf, cyclesOf, adjOf, statsOf,
      fanInOf, fanOutOf.
    rewrite Hfilter, Hlegit.
    cbn [suspicious_accounts fraud_rings nodes edges summary
         total_accounts_analyzed suspicious_accounts_flagged
         fraud_rings_detected legitimate_accounts_filtered
         Lib.suspicious_accounts Lib.fraud_rings Lib.nodes Lib.edges
         Lib.summary Lib.total_accounts_analyzed
         Lib.suspicious_accounts_flagged Lib.fraud_rings_detected].
    repeat split.
Qed.

Lemma engines_agree_without_legitimate_accounts_witness :
  exists r',
    Lib.analyzeTransactions sampleGetTime mixedBatch = Some r'
    /\ fraud_rings mixedResult = Lib.fraud_rings r'.
Proof.
  destruct (engines_agree_without_legitimate_accounts sampleGetTime
              mixedBatch mixedResult) as (r' & H1 & _ & H2 & _).
  - vm_compute. reflexivity.
  - exact mixedBatch_analysis.
  - exists r'. split; [exact H1|exact H2].
Defined.

(** ** The CSV reader *)

Module CsvFacts.
Import Csv.

Lemma splitOn_nonempty sep s : splitOn sep s <> [].
Proof.
  destruct s as [|c s]; simpl; [discriminate|].
  destruct (Ascii.eqb c sep); [discriminate|].
  destruct (splitOn sep s); discriminate.
Qed.

(** No piece contains the separator, nor a character that the string does
    not contain. *)
Lemma splitOn_pieces sep c s :
  (c = sep \/ hasChar c s = false) ->
  forall p, In p (splitOn sep s) -> hasChar c p = false.
Proof.
  induction s as [|x s IH]; intros Hc p Hp.
  - destruct Hp as [<-|[]]. reflexivity.
  - cbn [splitOn] in Hp.
    assert (Hc' : c = sep \/ hasChar c s = false).
    { destruct Hc as [->|Hc]; auto. right. cbn [hasChar] in Hc.
      now apply orb_false_iff in Hc. }
    specialize (IH Hc').
    destruct (Ascii.eqb x sep) eqn:Ex.
    + destruct Hp as [<-|Hp]; [reflexivity|auto].
    + pose proof (splitOn_nonempty sep s) as Hne.
      destruct (splitOn sep s) as [|piece rest]; [congruence|].
      destruct Hp as [<-|Hp]; [|apply IH; simpl; auto].
      cbn [hasChar]. rewrite (IH piece (or_introl eq_refl)), orb_false_r.
      destruct Hc as [->|Hc]; [exact Ex|].
      cbn [hasChar] in Hc. now apply orb_false_iff in Hc.
Qed.

Lemma trimStart_hasChar c s :
  hasChar c s = false -> hasChar c (trimStart s) = false.
Proof.
  induction s as [|x s IH]; simpl; auto.
  intros H. apply orb_false_iff in H. destruct H as [Hx Hs].
  destruct (isSpace x); auto. simpl. now rewrite Hx, Hs.
Qed.

Lemma trimEnd_hasChar c s :
  hasChar c s = false -> hasChar c (trimEnd s) = false.
Proof.
  induction s as [|x s IH]; simpl; auto.
  intros H. apply orb_false_iff in H. destruct H as [Hx Hs].
  specialize (IH Hs).
  destruct (trimEnd s) as [|y t].
  - destruct (isSpace x); simpl; auto. now rewrite Hx.
  - cbn [hasChar] in *. now rewrite Hx, IH.
Qed.

Lemma trim_hasChar c s : hasChar c s = false -> hasChar c (trim s) = false.
Proof. intros H. now apply trimEnd_hasChar, trimStart_hasChar. Qed.

Lemma trimEnd_idem s : trimEnd (trimEnd s) = trimEnd s.
Proof.
  induction s as [|x s IH]; simpl; auto.
  destruct (trimEnd s) as [|y t] eqn:E.
  - destruct (isSpace x) eqn:Ex; simpl; auto. now rewrite Ex.
  - change (trimEnd (String x (String y t)))
      with (match trimEnd (String y t) with
            | EmptyString =>
                if isSpace x then EmptyString else String x EmptyString
            | u => String x u
            end).
    now rewrite IH.
Qed.

Lemma trimStart_head s :
  trimStart s = EmptyString
  \/ exists c t, trimStart s = String c t /\ isSpace c = false.
Proof.
  induction s as [|x s IH]; simpl; auto.
  destruct (isSpace x) eqn:Ex; auto. right. eauto.
Qed.

Lemma trimEnd_head c t :
  isSpace c = false -> exists t', trimEnd (String c t) = String c t'.
Proof.
  intros Hc. cbn [trimEnd]. destruct (trimEnd t); rewrite ?Hc; eauto.
Qed.

Lemma trim_idem s : trim (trim s) = trim s.
Proof.
  unfold trim.
  destruct (trimStart_head s) as [E|[c [t [E Hc]]]]; rewrite E.
  - reflexivity.
  - destruct (trimEnd_head c t Hc) as [t' E']. rewrite E'.
    cbn [trimStart]. rewrite Hc, <- E'. apply trimEnd_idem.
Qed.
End CsvFacts.

Lemma find_first {A : Type} (f : A -> bool) l x :
  find f l = Some x ->
  exists l1 l2, l = l1 ++ x :: l2 /\ f x = true
                /\ forall y, In y l1 -> f y = false.
Proof.
  induction l as [|y l IH]; simpl; [discriminate|].
  destruct (f y) eqn:E.
  - intros [= <-]. exists [], l. split; auto. split; auto. intros ? [].
  - intros H. destruct (IH H) as (l1 & l2 & -> & Hx & Hl1).
    exists (y :: l1), l2. split; auto. split; auto.
    intros z [<-|Hz]; auto.
Qed.

Section ParseFacts.
Variable parseFloat : string -> option Q.

(** A defined field of a row. *)
Local Abbreviation fieldOf :=
  (fun (row : Csv.Row) (v : string) =>
     Csv.row_transaction_id row = Some v \/ Csv.row_sender_id row = Some v
     \/ Csv.row_receiver_id row = Some v \/ Csv.row_timestamp row = Some v).

Lemma parseLine_rows header l : forall acc row,
  In row (fold_left (Csv.parseLine parseFloat header) l acc) ->
  In row acc
  \/ exists rawLine v,
       In rawLine l
       /\ nth_error (map Csv.trim (Csv.splitOn Csv.comma (Csv.trim rawLine)))
            (indexOf "amount" header) = Some v
       /\ parseFloat v = Some (Csv.row_amount row)
       /\ forall w, fieldOf row w ->
            In w (map Csv.trim (Csv.splitOn Csv.comma (Csv.trim rawLine))).
Proof.
  induction l as [|x l IH]; intros acc row Hin; [auto|].
  cbn [fold_left] in Hin. apply IH in Hin.
  destruct Hin as [Hin|(rawLine & v & Hl & Hv & Hp & Hf)].
  - unfold Csv.parseLine in Hin.
    destruct (String.eqb (Csv.trim x) ""); auto.
    destruct (nth_error _ (indexOf "amount" header)) as [v|] eqn:Ev; auto.
    destruct (parseFloat v) as [amount|] eqn:Ep; auto.
    in_snoc Hin; auto.
    right. exists x, v. split; [simpl; auto|]. split; auto. split; auto.
    cbn [Csv.row_transaction_id Csv.row_sender_id Csv.row_receiver_id
         Csv.row_timestamp].
    intros w [H|[H|[H|H]]]; eapply nth_error_In; eauto.
  - right. exists rawLine, v. split; [simpl; auto|auto].
Qed.

Lemma parseLine_length header l : forall acc,
  List.length (fold_left (Csv.parseLine parseFloat header) l acc)
  <= List.length acc + List.length l.
Proof.
  induction l as [|x l IH]; intros acc; cbn [fold_left List.length]; [lia|].
  eapply Nat.le_trans; [apply IH|].
  unfold Csv.parseLine.
  destruct (String.eqb (Csv.trim x) ""); [lia|].
  destruct (match nth_error _ _ with Some v => parseFloat v | None => None end);
    rewrite ?length_app; simpl; lia.
Qed.

(** [parseCSV] fails only on a text of fewer than two lines or on a header
    that lacks a required column, and then names the first missing one;
    neither depends on the data lines. *)
Theorem parseCSV_errors (csvText message : string) :
  Csv.parseCSV parseFloat csvText = inl message ->
  let lines := Csv.splitOn Csv.lineFeed (Csv.trim csvText) in
  let header :=
    map (fun h => Csv.toLowerCase (Csv.trim h))
      (Csv.splitOn Csv.comma (hd "" lines)) in
  (List.length lines < 2
   /\ message = "CSV must have a header and at least one data row")
  \/ (2 <= List.length lines
      /\ exists before col after,
           Csv.requiredColumns = before ++ col :: after
           /\ message = ("Missing required column: " ++ col)%string
           /\ ~ In col header
           /\ forall c, In c before -> In c header).
Proof.
  intros H lines header. unfold Csv.parseCSV in H. fold lines header in H.
  destruct (Nat.ltb_spec (List.length lines) 2) as [Hlt|Hge].
  - left. injection H as <-. auto.
  - right. split; auto.
    destruct (find _ Csv.requiredColumns) as [col|] eqn:Ef; [|discriminate].
    injection H as <-.
    destruct (find_first _ _ _ Ef) as (l1 & l2 & E & Hcol & Hl1).
    exists l1, col, l2. split; auto. split; auto. split.
    + apply negb_true_iff in Hcol. intros Hin.
      assert (Hex : existsb (String.eqb col) header = true).
      { apply existsb_exists. exists col. split; auto. apply String.eqb_refl. }
      congruence.
    + intros c Hc. specialize (Hl1 c Hc). apply negb_false_iff in Hl1.
      apply existsb_exists in Hl1. destruct Hl1 as [c' [Hc' Ec]].
      apply String.eqb_eq in Ec. now subst.
Qed.

(** The rows that [parseCSV] returns: at most one per data line, each from
    a line whose amount field parses; the header has the five required
    columns; and a field contains no comma and no line feed and has no
    ASCII white space at either end. *)
Theorem parsed_rows_are_clean (csvText : string) (rows : list Csv.Row) :
  Csv.parseCSV parseFloat csvText = inr rows ->
  let lines := Csv.splitOn Csv.lineFeed (Csv.trim csvText) in
  let header :=
    map (fun h => Csv.toLowerCase (Csv.trim h))
      (Csv.splitOn Csv.comma (hd "" lines)) in
  List.length rows <= List.length lines - 1
  /\ (forall col, In col Csv.requiredColumns -> In col header)
  /\ (forall row, In row rows ->
        (exists rawLine v,
            In rawLine (tl lines)
            /\ nth_error
                 (map Csv.trim (Csv.splitOn Csv.comma (Csv.trim rawLine)))
                 (indexOf "amount" header) = Some v
            /\ parseFloat v = Some (Csv.row_amount row))
        /\ forall v, fieldOf row v ->
             hasChar Csv.comma v = false
             /\ hasChar Csv.lineFeed v = false
             /\ Csv.trim v = v).
Proof.
  intros H lines header. unfold Csv.parseCSV in H. fold lines header in H.
  destruct (List.length lines <? 2); [discriminate|].
  destruct (find _ Csv.requiredColumns) as [col|] eqn:Ef; [discriminate|].
  injection H as <-. split; [|split].
  - pose proof (parseLine_length header (tl lines) []) as Hlen.
    cbn [List.length] in Hlen. destruct lines; simpl in *; lia.
  - intros col Hcol. pose proof (find_none _ _ Ef col Hcol) as Hn.
    apply negb_false_iff, existsb_exists in Hn.
    destruct Hn as [c [Hc Ec]]. apply String.eqb_eq in Ec. now subst.
  - intros row Hrow. apply parseLine_rows in Hrow.
    destruct Hrow as [[]|(rawLine & v & Hl & Hv & Hp & Hf)].
    split; [eauto|].
    intros w Hw. specialize (Hf w Hw). apply in_map_iff in Hf.
    destruct Hf as [piece [<- Hpiece]].
    assert (Hraw : hasChar Csv.lineFeed rawLine = false).
    { apply (CsvFacts.splitOn_pieces Csv.lineFeed Csv.lineFeed
               (Csv.trim csvText)); auto.
      fold lines. destruct lines; [destruct Hl|simpl in *; auto]. }
    apply CsvFacts.trim_hasChar in Hraw.
    split; [|split].
    + apply CsvFacts.trim_hasChar.
      apply (CsvFacts.splitOn_pieces Csv.comma Csv.comma
               (Csv.trim rawLine)); auto.
    + apply CsvFacts.trim_hasChar.
      apply (CsvFacts.splitOn_pieces Csv.comma Csv.lineFeed
               (Csv.trim rawLine)); auto.
    + apply CsvFacts.trim_idem.
Qed.
End ParseFacts.

Lemma sampleCsv_rows :
  Csv.parseCSV sampleParseFloat sampleCsv
  = inr [ Csv.mkRow (Some "T1") (Some "A") (Some "B") 100 (Some "0");
          Csv.mkRow (Some "T3") (Some "C") (Some "A") 50 None ].
Proof. vm_compute. reflexivity. Qed.

Lemma parseCSV_errors_witness :
  (List.length (Csv.splitOn Csv.lineFeed (Csv.trim "sender_id,amount")) < 2
   /\ "CSV must have a header and at least one data row"
      = "CSV must have a header and at least one data row")
  \/ (2 <= List.length
             (Csv.splitOn Csv.lineFeed (Csv.trim "sender_id,amount"))
      /\ exists before col after,
           Csv.requiredColumns = before ++ col :: after
           /\ "CSV must have a header and at least one data row"
              = ("Missing required column: " ++ col)%string
           /\ ~ In col
                  (map (fun h => Csv.toLowerCase (Csv.trim h))
                     (Csv.splitOn Csv.comma
                        (hd ""
                           (Csv.splitOn Csv.lineFeed
                              (Csv.trim "sender_id,amount")))))
           /\ forall c, In c before ->
                In c
                  (map (fun h => Csv.toLowerCase (Csv.trim h))
                     (Csv.splitOn Csv.comma
                        (hd ""
                           (Csv.splitOn Csv.lineFeed
                              (Csv.trim "sender_id,amount")))))).
Proof.
  apply (parseCSV_errors sampleParseFloat "sender_id,amount").
  vm_compute. reflexivity.
Defined.

Lemma parsed_rows_are_clean_witness :
  List.length
    [ Csv.mkRow (Some "T1") (Some "A") (Some "B") 100 (Some "0");
      Csv.mkRow (Some "T3") (Some "C") (Some "A") 50 None ]
  <= List.length (Csv.splitOn Csv.lineFeed (Csv.trim sampleCsv)) - 1.
Proof.
  destruct (parsed_rows_are_clean sampleParseFloat sampleCsv _ sampleCsv_rows)
    as [H _].
  exact H.
Defined.

(** ** The tables and the graph *)

Lemma Qgeb_ge x y : Qgeb x y = true <-> (y <= x)%Q.
Proof. unfold Qgeb. apply Qle_bool_iff. Qed.

(** The rings of the engine of lib/graph-engine.ts have the sizes and
    risk scores of the rings of the engine with the filter. *)
Lemma lib_ring_sizes_and_risks (getTime : string -> option Z)
    (transactions : list Transaction) (r : Lib.AnalysisResult) :
  Lib.analyzeTransactions getTime transactions = Some r ->
  forall ring, In ring (Lib.fraud_rings r) ->
    let n := List.length (member_accounts ring) in
    (pattern_type ring = "cycle"
     /\ 3 <= n <= 5 /\ NoDup (member_accounts ring)
     /\ (risk_score ring == 70 + 5 * QofNat n)%Q)
    \/ ((pattern_type ring = "fan_in" \/ pattern_type ring = "fan_out")
        /\ 11 <= n /\ NoDup (tl (member_accounts ring))
        /\ (75 <= risk_score ring <= 100)%Q)
    \/ (pattern_type ring = "shell_network"
        /\ 3 <= n /\ NoDup (member_accounts ring)
        /\ (74 <= risk_score ring <= 100)%Q).
Proof.
  unfold Lib.analyzeTransactions, detectSmurfing. cbv beta iota zeta.
  destruct (detectShellNetworks _ _ _) as [chains|] eqn:Hc; [|discriminate].
  intros Hr ring Hin. injection Hr as <-. cbn [Lib.fraud_rings] in Hin.
  match type of Hin with
  | In _ (fraudRings
            (fold_left acceptChain _
               (assembleCyclesAndHubs ?cycles ?fanIn ?fanOut))) =>
      pose proof (assemble_inv cycles fanIn fanOut chains) as Hinv
  end.
  assert (Hhub : forall hub party h d,
             In (h, d) (detectFan getTime hub party transactions) ->
             10 <= List.length (counterparties d)
             /\ NoDup (counterparties d)
             /\ (75 <= hubRisk d <= 100)%Q).
  { intros hub party h d Hd. apply detectFan_In in Hd.
    destruct Hd as [Hle ->]. cbn [hubOf counterparties temporal].
    split; [exact Hle|]. split; [apply StrSetFacts.ofList_NoDup|].
    split; [|apply hubRisk_range].
    unfold hubRisk, hubOf. cbn [counterparties temporal].
    apply (capped_round_ge 75); [lia|].
    apply QofNat_le in Hle. change (QofNat MIN_CONNECTIONS) with 10%Q in Hle.
    unfold StrSet.size in Hle. change (inject_Z 75) with 75%Q.
    match goal with
    | |- context [if ?b then _ else _] => destruct b
    end; lra. }
  destruct (inv_origin _ _ Hinv ring Hin) as [c Hc'|h d Hd|h d Hd|c Hc'].
  - left. destruct (detectCycles_In _ _ _ Hc') as [Hs _].
    pose proof (cyc_min _ _ Hs) as Hmin. pose proof (cyc_max _ _ Hs) as Hmax.
    split; [reflexivity|]. split; [lia|]. split; [apply (cyc_nodup _ _ Hs)|].
    unfold cycleRisk.
    destruct (List.length c) as [|[|[|[|[|[|k]]]]]]; try lia;
      vm_compute; reflexivity.
  - right; left. destruct (Hhub _ _ _ _ Hd) as (Hlen & Hnd & Hrisk).
    split; [auto|]. cbn [List.length tl]. split; [lia|]. split; assumption.
  - right; left. destruct (Hhub _ _ _ _ Hd) as (Hlen & Hnd & Hrisk).
    split; [auto|]. cbn [List.length tl]. split; [lia|]. split; assumption.
  - right; right.
    pose proof (detectShellNetworks_sound _ _ _ _ Hc) as Hok.
    rewrite Forall_forall in Hok. destruct (Hok c Hc') as [Hlen _ _ _ Hnd _].
    split; [reflexivity|]. split; [exact Hlen|]. split; [exact Hnd|].
    split; [|apply chainRisk_range].
    unfold chainRisk. apply (capped_round_ge 74); [lia|].
    apply QofNat_le in Hlen. change (QofNat 3) with 3%Q in Hlen.
    change (inject_Z 74) with 74%Q. lra.
Qed.

(** In the ring table every ring that either engine emits gets one of the
    four pattern labels (never the raw type) and a warning or destructive
    risk style (never the neutral one); a cycle ring always gets the
    destructive style. *)
Theorem ring_table_styles (getTime : string -> option Z)
    (transactions : list Transaction) (ring : FraudRing) :
  (exists r, analyzeTransactions getTime transactions = Some r
             /\ In ring (fraud_rings r))
  \/ (exists r, Lib.analyzeTransactions getTime transactions = Some r
                /\ In ring (Lib.fraud_rings r)) ->
  In (Ui.getPatternLabel (pattern_type ring))
    ["Circular Routing"; "Fan-In (Smurfing)"; "Fan-Out (Smurfing)";
     "Shell Network"]
  /\ In (Ui.getRiskColor (risk_score ring))
       ["text-destructive"; "text-warning"]
  /\ In (Ui.getRiskBadge (risk_score ring))
       ["bg-destructive/15 text-destructive"; "bg-warning/15 text-warning"]
  /\ (pattern_type ring = "cycle" ->
      Ui.getRiskColor (risk_score ring) = "text-destructive"
      /\ Ui.getRiskBadge (risk_score ring)
         = "bg-destructive/15 text-destructive").
Proof.
  intros Hring.
  assert (H : let n := List.length (member_accounts ring) in
              (pattern_type ring = "cycle"
               /\ 3 <= n <= 5 /\ NoDup (member_accounts ring)
               /\ (risk_score ring == 70 + 5 * QofNat n)%Q)
              \/ ((pattern_type ring = "fan_in"
                   \/ pattern_type ring = "fan_out")
                  /\ 11 <= n /\ NoDup (tl (member_accounts ring))
                  /\ (75 <= risk_score ring <= 100)%Q)
              \/ (pattern_type ring = "shell_network"
                  /\ 3 <= n /\ NoDup (member_accounts ring)
                  /\ (74 <= risk_score ring <= 100)%Q)).
  { destruct Hring as [[r [Hr Hin]]|[r [Hr Hin]]].
    - exact (ring_sizes_and_risks _ _ _ Hr ring Hin).
    - exact (lib_ring_sizes_and_risks _ _ _ Hr ring Hin). }
  cbv zeta in H.
  assert (Hstyle : forall x, (74 <= x)%Q ->
             In (Ui.getRiskColor x) ["text-destructive"; "text-warning"]
             /\ In (Ui.getRiskBadge x)
                  ["bg-destructive/15 text-destructive";
                   "bg-warning/15 text-warning"]).
  { intros x Hx. unfold Ui.getRiskColor, Ui.getRiskBadge.
    destruct (Qgeb x 80); [simpl; auto|].
    assert (H60 : Qgeb x 60 = true) by (apply Qgeb_ge; lra).
    rewrite H60. simpl. auto. }
  destruct H as [(Hp & Hn & _ & Hrisk)|[(Hp & _ & _ & Hrisk)|(Hp & _ & _ & Hrisk)]].
  - assert (H85 : (85 <= risk_score ring)%Q).
    { rewrite Hrisk.
      assert (H3 : (3 <= QofNat (List.length (member_accounts ring)))%Q)
        by (apply (QofNat_le 3); lia).
      lra. }
    assert (H80 : Qgeb (risk_score ring) 80 = true) by (apply Qgeb_ge; lra).
    rewrite Hp. split; [simpl; auto|].
    unfold Ui.getRiskColor, Ui.getRiskBadge. rewrite H80.
    repeat split; simpl; auto.
  - destruct (Hstyle (risk_score ring)) as [H1 H2]; [lra|].
    split; [destruct Hp as [-> | ->]; simpl; auto|].
    split; auto. split; auto.
    intros E. destruct Hp as [Hp|Hp]; congruence.
  - destruct (Hstyle (risk_score ring)) as [H1 H2]; [lra|].
    split; [rewrite Hp; simpl; auto 10|].
    split; auto. split; auto. intros E. congruence.
Qed.

Lemma ring_table_styles_witness :
  Ui.getRiskColor (risk_score mixedCycleRing) = "text-destructive".
Proof.
  destruct (ring_table_styles sampleGetTime mixedBatch mixedCycleRing)
    as (_ & _ & _ & H).
  - left. exists mixedResult. split; [exact mixedBatch_analysis|].
    vm_compute. auto.
  - destruct H as [H _]; [reflexivity|exact H].
Defined.

(** *** Score badges *)

Lemma StronglySorted_firstn {A : Type} (R : A -> A -> Prop) l : forall n,
  StronglySorted R l -> StronglySorted R (firstn n l).
Proof.
  induction l as [|x l IH]; intros [|n] H; cbn [firstn]; try constructor.
  - apply IH. now inversion H.
  - inversion H as [|? ? _ Hall]; subst.
    apply Forall_forall. intros y Hy. rewrite Forall_forall in Hall.
    apply Hall. rewrite <- (firstn_skipn n l). apply in_or_app. now left.
Qed.

Lemma getScoreColor_destructive q :
  Ui.getScoreColor q = "bg-destructive/15 text-destructive" -> (70 <= q)%Q.
Proof.
  unfold Ui.getScoreColor. destruct (Qgeb q 70) eqn:E.
  - intros _. now apply Qgeb_ge.
  - destruct (Qgeb q 40); discriminate.
Qed.

Lemma getScoreColor_not_neutral q :
  Ui.getScoreColor q <> "bg-muted text-muted-foreground" -> (40 <= q)%Q.
Proof.
  unfold Ui.getScoreColor. destruct (Qgeb q 70) eqn:E.
  - intros _. apply Qgeb_ge in E. lra.
  - destruct (Qgeb q 40) eqn:E'; [intros _; now apply Qgeb_ge|].
    intros H. now contradiction H.
Qed.

Lemma sorted_badges (l : list SuspiciousAccount) :
  StronglySorted (fun a b => (suspicion_score b <= suspicion_score a)%Q) l ->
  exists n1 n2 n3,
    map (fun account => Ui.getScoreColor (suspicion_score account)) l
    = repeat "bg-destructive/15 text-destructive" n1
      ++ repeat "bg-warning/15 text-warning" n2
      ++ repeat "bg-muted text-muted-foreground" n3.
Proof.
  induction l as [|x l IH]; intros H.
  - now exists 0, 0, 0.
  - inversion H as [|? ? Hl Hall]; subst.
    destruct (IH Hl) as (n1 & n2 & n3 & E).
    assert (Hhead : forall y rest,
               map (fun account => Ui.getScoreColor (suspicion_score account))
                 l = y :: rest ->
               exists a, (suspicion_score a <= suspicion_score x)%Q
                         /\ y = Ui.getScoreColor (suspicion_score a)).
    { intros y rest Hy. destruct l as [|a l']; [discriminate|].
      injection Hy as <- _. exists a. split; [|reflexivity].
      now inversion Hall. }
    cbn [map]. rewrite E.
    unfold Ui.getScoreColor at 1.
    destruct (Qgeb (suspicion_score x) 70) eqn:E70.
    { now exists (S n1), n2, n3. }
    assert (H70 : ~ (70 <= suspicion_score x)%Q).
    { intros Hle. apply Qgeb_ge in Hle. congruence. }
    destruct n1 as [|n1].
    2:{ destruct (Hhead _ _ E) as (a & Hle & Ea).
        symmetry in Ea. apply getScoreColor_destructive in Ea.
        exfalso. apply H70. lra. }
    destruct (Qgeb (suspicion_score x) 40) eqn:E40.
    { now exists 0, (S n2), n3. }
    assert (H40 : ~ (40 <= suspicion_score x)%Q).
    { intros Hle. apply Qgeb_ge in Hle. congruence. }
    destruct n2 as [|n2].
    2:{ destruct (Hhead _ _ E) as (a & Hle & Ea).
        assert (Hne : Ui.getScoreColor (suspicion_score a)
                      <> "bg-muted text-muted-foreground")
          by (rewrite <- Ea; discriminate).
        apply getScoreColor_not_neutral in Hne.
        exfalso. apply H40. lra. }
    now exists 0, 0, (S n3).
Qed.

(** The suspicious accounts table shows the first 50 accounts that either
    engine reports, and their score badges come in blocks by severity:
    first the destructive ones, then the warnings, then the neutral
    ones. *)
Theorem score_badges_by_severity (getTime : string -> option Z)
    (transactions : list Transaction) (accounts : list SuspiciousAccount) :
  (exists r, analyzeTransactions getTime transactions = Some r
             /\ accounts = suspicious_accounts r)
  \/ (exists r, Lib.analyzeTransactions getTime transactions = Some r
                /\ accounts = Lib.suspicious_accounts r) ->
  exists n1 n2 n3,
    Ui.scoreBadges accounts
    = repeat "bg-destructive/15 text-destructive" n1
      ++ repeat "bg-warning/15 text-warning" n2
      ++ repeat "bg-muted text-muted-foreground" n3
    /\ n1 + n2 + n3 = Nat.min 50 (List.length accounts).
Proof.
  intros Hacc.
  assert (Hsorted : StronglySorted
                      (fun a b => (suspicion_score b <= suspicion_score a)%Q)
                      accounts).
  { destruct Hacc as [(r & Hr & ->)|(r & Hr & ->)].
    - destruct (analyze_cases _ _ _ Hr)
        as [[_ ->]|[_ [chains [_ [_ [-> _]]]]]]; [constructor|].
      apply (sortBy_desc suspicion_score).
    - revert Hr. unfold Lib.analyzeTransactions, detectSmurfing.
      cbv beta iota zeta.
      destruct (detectShellNetworks _ _ _); [|discriminate].
      intros Hr. injection Hr as <-. cbn [Lib.suspicious_accounts].
      apply (sortBy_desc suspicion_score). }
  destruct (sorted_badges _ (StronglySorted_firstn _ _ 50 Hsorted))
    as (n1 & n2 & n3 & E).
  exists n1, n2, n3. split; [exact E|].
  apply (f_equal (@List.length string)) in E.
  rewrite length_map, length_firstn in E.
  rewrite !length_app, !repeat_length in E. lia.
Qed.

Lemma score_badges_by_severity_witness :
  exists n1 n2 n3,
    Ui.scoreBadges (suspicious_accounts mixedResult)
    = repeat "bg-destructive/15 text-destructive" n1
      ++ repeat "bg-warning/15 text-warning" n2
      ++ repeat "bg-muted text-muted-foreground" n3
    /\ n1 + n2 + n3 = Nat.min 50 (List.length (suspicious_accounts mixedResult)).
Proof.
  apply (score_badges_by_severity sampleGetTime mixedBatch).
  left. exists mixedResult. split; [exact mixedBatch_analysis|reflexivity].
Defined.

(** *** Ring colours *)

Lemma indexOf_app_l x l e : In x l -> indexOf x (l ++ e) = indexOf x l.
Proof.
  induction l as [|y l IH]; simpl; [intros []|].
  intros [->|H].
  - now rewrite String.eqb_refl.
  - destruct (String.eqb y x); auto.
Qed.

Lemma set_absent {V : Type} k (v : V) m :
  StrMap.get k m = None -> StrMap.set k v m = m ++ [(k, v)].
Proof.
  induction m as [|[k' v'] m IH]; simpl; auto.
  destruct (String.eqb k k'); [discriminate|].
  intros H. now rewrite IH.
Qed.

Lemma getRingColor_step ringId m :
  Ui.paletteMap m ->
  let '(color, m') := Ui.getRingColor ringId m in
  Ui.paletteMap m'
  /\ StrMap.keys m' = StrSet.add ringId (StrMap.keys m)
  /\ color
     = nth_error Ui.RING_COLORS
         (indexOf ringId (StrMap.keys m') mod List.length Ui.RING_COLORS).
Proof.
  intros [Hnd Hget]. unfold Ui.getRingColor.
  unfold StrMap.has, StrSet.add.
  destruct (StrMap.get ringId m) as [i|] eqn:E; cbn [negb].
  - assert (Hin : In ringId (StrMap.keys m))
      by (eapply StrMapFacts.get_Some_key; eauto).
    assert (Hhas : StrSet.has ringId (StrMap.keys m) = true)
      by (now apply StrSetFacts.set_has_In).
    rewrite E, Hhas. split; [split; auto|]. split; auto.
    rewrite (Hget ringId Hin) in E. now injection E as <-.
  - assert (Hnin : ~ In ringId (StrMap.keys m))
      by (now apply StrMapFacts.get_None).
    assert (Hhas : StrSet.has ringId (StrMap.keys m) = false)
      by (now apply StrSetFacts.has_false).
    rewrite Hhas, (set_absent _ _ _ E).
    assert (Hkeys : StrMap.keys (m ++ [(ringId,
                      List.length m mod List.length Ui.RING_COLORS)])
                    = StrMap.keys m ++ [ringId]).
    { unfold StrMap.keys. now rewrite map_app. }
    assert (Hidx : indexOf ringId (StrMap.keys m ++ [ringId])
                   = List.length m).
    { rewrite indexOf_split by assumption.
      unfold StrMap.keys. apply length_map. }
    assert (Hnew : forall (d : nat),
               StrMap.get ringId (m ++ [(ringId, d)]) = Some d).
    { intros d. clear -E. induction m as [|[k v] m IH]; simpl in *.
      - now rewrite String.eqb_refl.
      - destruct (String.eqb ringId k); [discriminate|auto]. }
    assert (Hold : forall k (d : nat), In k (StrMap.keys m) ->
               StrMap.get k (m ++ [(ringId, d)]) = StrMap.get k m).
    { intros k d Hk. clear -Hk. induction m as [|[k' v] m IH]; simpl in *.
      - destruct Hk.
      - destruct (String.eqb k k') eqn:Ek; auto.
        destruct Hk as [->|Hk]; auto.
        rewrite String.eqb_refl in Ek. discriminate. }
    rewrite Hnew, Hkeys, Hidx. split; [split|split; auto].
    + rewrite Hkeys. now apply NoDup_snoc.
    + rewrite Hkeys. intros k Hk. in_snoc Hk.
      * rewrite Hold, indexOf_app_l by assumption. auto.
      * rewrite Hnew, Hidx. reflexivity.
Qed.

Lemma ringColors_run ringIds : forall colors m,
  Ui.paletteMap m ->
  let '(colors', m') :=
    fold_left
      (fun '(colors, ringMap) ringId =>
         let '(color, ringMap) := Ui.getRingColor ringId ringMap in
         (colors ++ [color], ringMap))
      ringIds (colors, m) in
  Ui.paletteMap m'
  /\ StrMap.keys m'
     = fold_left (fun s x => StrSet.add x s) ringIds (StrMap.keys m)
  /\ (exists e, StrMap.keys m' = StrMap.keys m ++ e)
  /\ colors'
     = colors
       ++ map (fun ringId =>
                 nth_error Ui.RING_COLORS
                   (indexOf ringId (StrMap.keys m')
                    mod List.length Ui.RING_COLORS)) ringIds.
Proof.
  induction ringIds as [|x l IH]; intros colors m Hm; cbn [fold_left].
  - split; auto. split; auto. split; [exists []|]; now rewrite app_nil_r.
  - pose proof (getRingColor_step x m Hm) as Hstep.
    destruct (Ui.getRingColor x m) as [color m1].
    destruct Hstep as (Hm1 & Hk1 & Hc).
    specialize (IH (colors ++ [color]) m1 Hm1).
    destruct (fold_left _ l (colors ++ [color], m1)) as [colors' m'].
    destruct IH as (Hm' & Hk' & [e He] & Hcs).
    split; auto. split; [now rewrite Hk', Hk1|]. split.
    + rewrite He, Hk1. unfold StrSet.add.
      destruct (StrSet.has x (StrMap.keys m)); eexists;
        [reflexivity|now rewrite <- app_assoc].
    + rewrite Hcs, <- app_assoc. cbn [map app]. do 3 f_equal.
      rewrite Hc, He. rewrite indexOf_app_l; auto.
      rewrite Hk1. apply StrSetFacts.add_In. auto.
Qed.

Lemma ringColors_again ringIds : forall colors m,
  Ui.paletteMap m ->
  (forall ringId, In ringId ringIds -> In ringId (StrMap.keys m)) ->
  fold_left
    (fun '(colors, ringMap) ringId =>
       let '(color, ringMap) := Ui.getRingColor ringId ringMap in
       (colors ++ [color], ringMap))
    ringIds (colors, m)
  = (colors
     ++ map (fun ringId =>
               nth_error Ui.RING_COLORS
                 (indexOf ringId (StrMap.keys m)
                  mod List.length Ui.RING_COLORS)) ringIds,
     m).
Proof.
  induction ringIds as [|x l IH]; intros colors m Hm Hin; cbn [fold_left map].
  - now rewrite app_nil_r.
  - assert (Hx : Ui.getRingColor x m
                 = (nth_error Ui.RING_COLORS
                      (indexOf x (StrMap.keys m)
                       mod List.length Ui.RING_COLORS), m)).
    { unfold Ui.getRingColor, StrMap.has.
      rewrite (proj2 Hm x (Hin x (or_introl eq_refl))). cbn [negb].
      now rewrite (proj2 Hm x (Hin x (or_introl eq_refl))). }
    rewrite Hx, IH; auto.
    + now rewrite <- app_assoc.
    + intros y Hy. apply Hin. now right.
Qed.

(** Starting from an empty map, the drawing loop gives every ring
    identifier a colour of the palette: the identifiers are kept in the
    order of first use, the k-th of them (from 0) gets colour k modulo 8,
    an identifier gets the same colour at every call, and drawing again
    with the map so built gives the same colours and leaves the map
    unchanged. *)
Theorem ring_colours_cycle_through_the_palette (ringIds : list string) :
  let '(colors, ringMap) := Ui.ringColors ringIds [] in
  StrMap.keys ringMap = StrSet.ofList ringIds
  /\ colors
     = map (fun ringId =>
              nth_error Ui.RING_COLORS
                (indexOf ringId (StrSet.ofList ringIds) mod 8)) ringIds
  /\ Forall (fun color => In color (map Some Ui.RING_COLORS)) colors
  /\ Ui.ringColors ringIds ringMap = (colors, ringMap).
Proof.
  assert (H0 : Ui.paletteMap []) by (split; [constructor|intros ? []]).
  pose proof (ringColors_run ringIds [] [] H0) as H.
  unfold Ui.ringColors.
  match goal with
  | |- context [fold_left ?f ringIds ?a] =>
      destruct (fold_left f ringIds a) as [colors m]
  end.
  destruct H as (Hm & Hk & _ & Hc).
  cbn [StrMap.keys map] in Hk. fold (StrSet.ofList ringIds) in Hk.
  split; [exact Hk|]. rewrite Hk in Hc. cbn [app] in Hc.
  split; [exact Hc|].
  split.
  2:{ rewrite (ringColors_again ringIds [] m Hm).
      - rewrite Hk. cbn [app]. now rewrite <- Hc.
      - intros x Hx. rewrite Hk.
        exact (proj2 (StrSetFacts.ofList_In _ _) Hx). }
  assert (Hpal : forall n, n < 8 ->
            In (nth_error Ui.RING_COLORS n) (map Some Ui.RING_COLORS)).
  { intros n Hn. do 8 (destruct n as [|n]; [simpl; tauto|]). lia. }
  rewrite Hc. apply Forall_forall. intros c Hin. apply in_map_iff in Hin.
  destruct Hin as [x [<- _]]. apply Hpal.
  change (List.length Ui.RING_COLORS) with 8.
  apply Nat.mod_upper_bound. lia.
Qed.
